(** * Sequence assembly and decoding logic of the LauraGPT-style TSE model

    A shallow embedding of the tensor bookkeeping found in
    [exp/tse_wavlm/model.py], [decoder/wavlm_kmeans_conformer.py] and
    [models/modules/lm_discrete.py], followed by the helpers of [utils.py],
    the construction and the training pass of the model and the inference
    function of [inference/infer.py].

    Conventions.
    - A batched tensor of shape [B, T, ...] is a [list (list A)]: the outer
      list is the batch axis, the inner one the time axis and [A] stands for
      the trailing axes.  Floating-point rows are never inspected by the code
      modelled here, only moved around, so [A] stays abstract together with
      the row the code pads with ([0.0]).
    - A tensor of lengths, shape [(B,)], is a [list nat]; token ids are [Z].
    - Python exceptions are values of [exn]; a function that may raise
      returns a [result].
    - A dictionary is a [gmap] with string keys, or the list of its items
      where the code depends on their order.
    - The classes and functions of the libraries ([torch], [funcodec],
      [importlib], [os]) are parameters of the sections that use them. *)

From Stdlib Require Import ZArith Lia Ascii.
From stdpp Require Import sorting strings gmap pretty.
From stdpp Require Import base option list numbers.

(** ** Exceptions and fallible computations *)

Inductive exn : Set :=
| ValueError
| AssertionError
| IndexError
| TypeError
| AttributeError
| ZeroDivisionError
| RuntimeError
| NotImplementedError.

Inductive result (A : Type) : Type :=
| Ok (a : A)
| Raise (e : exn).
Arguments Ok {A} a.
Arguments Raise {A} e.

#[global] Instance result_ret : MRet result := @Ok.
#[global] Instance result_bind : MBind result := λ A B f m,
  match m with
  | Ok a => f a
  | Raise e => Raise e
  end.

Definition is_ok {A} (r : result A) : bool :=
  match r with Ok _ => true | Raise _ => false end.

(** [assert c] *)
Definition py_assert (c : bool) : result unit :=
  if c then Ok () else Raise AssertionError.

(** [t[i]] on the leading axis: an index past the end raises. *)
Definition index {A} (t : list A) (i : nat) : result A :=
  match t !! i with
  | Some x => Ok x
  | None => Raise IndexError
  end.

(** [for i, x in enumerate(l): out.append(f(i, x))], counting from [i]. *)
Fixpoint for_enumerate {A B} (f : nat → A → result B) (i : nat) (l : list A)
  : result (list B) :=
  match l with
  | [] => Ok []
  | x :: l' =>
      y ← f i x;
      ys ← for_enumerate f (S i) l';
      Ok (y :: ys)
  end.

(** ** Tensor helpers *)

(** [a + b] on two tensors of shape [(B,)]: element-wise, a tensor of one
    element being broadcast, any other mismatch of sizes an error. *)
Definition tensor_add (a b : list nat) : result (list nat) :=
  if decide (length a = length b) then Ok (zip_with Nat.add a b)
  else match a, b with
       | [x], _ => Ok (map (Nat.add x) b)
       | _, [y] => Ok (map (λ x, x + y) a)
       | _, _ => Raise RuntimeError
       end.

(** [t.max()] of a tensor of lengths: an empty tensor has no maximum. *)
Definition tensor_max (a : list nat) : result nat :=
  match a with
  | [] => Raise RuntimeError
  | _ => Ok (max_list a)
  end.

(** Modelled from the spec: [pad_list] of [funcodec.modules.nets_utils],
    imported by [model.py] and not part of the sources.  It stacks a list of
    sequences into one batch, every sequence being filled with [pad_value] up
    to the longest one ("pads all examples with 0.0 to the batch maximum");
    the maximum of an empty list raises. *)
Definition pad_list {A} (xs : list (list A)) (pad_value : A)
  : result (list (list A)) :=
  match xs with
  | [] => Raise ValueError
  | _ => let max_len := max_list (length <$> xs) in
         Ok (resize max_len pad_value <$> xs)
  end.

(** ** [LauraGenModel._pad_two] *)

Section pad_two.
Context {A : Type}.
(** The trailing-axes row filled with [0.0]. *)
Variable zero : A.

Definition _pad_two (t1 : list (list A)) (t1_lens : list nat)
    (t2 : list (list A)) (t2_lens : list nat)
  : result (list (list A) * list nat) :=
  inputs_list ← for_enumerate (λ i '(t1_l, t2_l),
      r1 ← index t1 i;
      r2 ← index t2 i;
      Ok (take t1_l r1 ++ take t2_l r2)) 0 (zip t1_lens t2_lens);
  inputs_list ← pad_list inputs_list zero;
  res_len ← tensor_add t1_lens t2_lens;
  Ok (inputs_list, res_len).
End pad_two.

(** ** [LauraGenModel]: sequence construction *)

(** A tensor of token ids of shape [(B, T, Nq)].  The size of the last axis
    is kept next to the nested lists, since the code tests it
    ([codec.shape[-1]]) even when no token is present. *)
Record codec_tensor : Type := CodecTensor {
  nq : nat;
  tokens : list (list (list Z))
}.

(** What [build_llm_io] returns: [(llm_inputs, llm_lengths)] without targets,
    [((llm_inputs, llm_targets), (llm_lengths, target_lengths))] with them. *)
Inductive llm_io (E : Type) : Type :=
| LlmInputs (llm_inputs : list (list E)) (llm_lengths : list nat)
| LlmInputsTargets (llm_inputs : list (list E))
    (llm_targets : list (list (list Z)))
    (llm_lengths : list nat) (target_lengths : list nat).
Arguments LlmInputs {E} _ _.
Arguments LlmInputsTargets {E} _ _ _ _.

Definition io_inputs {E} (io : llm_io E) : list (list E) :=
  match io with
  | LlmInputs x _ => x
  | LlmInputsTargets x _ _ _ => x
  end.

Definition io_lengths {E} (io : llm_io E) : list nat :=
  match io with
  | LlmInputs _ l => l
  | LlmInputsTargets _ _ l _ => l
  end.

(** [dst[:] = src] along one axis of size [n]: sizes agree, or a source of
    size one is broadcast; anything else is a shape error. *)
Definition broadcast_to {A} (n : nat) (src : list A) : result (list A) :=
  if decide (length src = n) then Ok src
  else match src with
       | [x] => Ok (replicate n x)
       | _ => Raise RuntimeError
       end.

(** [row[:n] = src]: the first [n] entries of [row] are overwritten (the
    slice is clipped to the row, as Python slices are). *)
Definition assign_prefix {A} (n : nat) (src : list A) (row : list A)
  : result (list A) :=
  src' ← broadcast_to (length (take n row)) src;
  Ok (src' ++ drop n row).

(** [row[n] = x]: an index past the end raises. *)
Definition assign_at {A} (n : nat) (x : A) (row : list A) : result (list A) :=
  if decide (n < length row) then Ok (<[n := x]> row) else Raise IndexError.

Section LauraGenModel.
(** An embedding vector of [codebook_dim] floats, and the vector of zeros. *)
Context {E : Type}.
Variable zero_emb : E.
(** [self.lm_embedding], a learned table with the two rows [sos_eos] and
    [task_id]. *)
Variable lm_embedding : Z → E.
(** [self.kmeans.emb], the centroid of a k-means token ([models.kmeans] is
    not part of the sources). *)
Variable kmeans_emb : Z → E.
Variable codebook_size : Z.
Variable predict_nq : nat.

Definition sos_eos : Z := 0.
Definition task_id : Z := 1.
(** The id that ends a token sequence, [self.codebook_size + self.sos_eos]. *)
Definition eos_id : Z := codebook_size + sos_eos.

(** [calc_dense_vector]: [codec] is [(B, T, Nq)] with [Nq == 1]; the last
    axis is squeezed and every token replaced by its centroid. *)
Definition calc_dense_vector (codec : codec_tensor)
    (codec_lengths : list nat) : result (list (list E)) :=
  _ ← py_assert (bool_decide (nq codec = 1));
  Ok (fmap (M := list)
        (fmap (M := list) (λ g, kmeans_emb (default 0%Z (head g))))
        (tokens codec)).

(** The body of the loop of lines 167-171: example [i] of the inputs,
    [codec_emb] being paired with [codec_lengths] when it is not [None]. *)
Definition llm_one_input (text : list (list E))
    (codec_emb : option (list (list E) * list nat)) (i text_len : nat)
  : result (list E) :=
  let sos_eos_emb := [lm_embedding sos_eos] in
  let task_id_emb := [lm_embedding task_id] in
  row ← index text i;
  let one_input := [sos_eos_emb; take text_len row; task_id_emb] in
  one_input ← match codec_emb with
              | Some (e, cl) =>
                  codec_len ← index cl i;
                  crow ← index e i;
                  Ok (one_input ++ [take codec_len crow])
              | None => Ok one_input
              end;
  Ok (concat one_input).

(** Lines 157-175 of [build_llm_io]: the inputs and their lengths. *)
Definition build_llm_inputs (text : list (list E)) (text_lengths : list nat)
    (codec : option codec_tensor)
    (codec_lengths : option (list nat)) (need_targets : bool)
  : result (list (list E) * list nat) :=
  _ ← (if need_targets
       then py_assert (bool_decide (is_Some codec)
                       && bool_decide (is_Some codec_lengths))
       else Ok ());
  codec_emb ← match codec, codec_lengths with
              | Some c, Some cl =>
                  e ← calc_dense_vector c cl; Ok (Some (e, cl))
              | _, _ => Ok None
              end;
  inputs_list ← for_enumerate (llm_one_input text codec_emb) 0 text_lengths;
  llm_inputs ← pad_list inputs_list zero_emb;
  let llm_lengths := (λ l, l + 2) <$> text_lengths in
  llm_lengths ← match codec_emb with
                 | Some (_, cl) => tensor_add llm_lengths cl
                 | None => Ok llm_lengths
                 end;
  Ok (llm_inputs, llm_lengths).

(** One turn of the loop of lines 182-184, on example [i]:
    [llm_targets[i, :codec_len] = codec[i, :codec_len]] (the last axis of
    [codec] broadcast to [predict_nq]), then
    [llm_targets[i, codec_len] = codebook_size + sos_eos]. *)
Definition set_target_row (codec : codec_tensor) (i codec_len : nat)
    (llm_targets : list (list (list Z))) : result (list (list (list Z))) :=
  crow ← index (tokens codec) i;
  trow ← index llm_targets i;
  _ ← broadcast_to predict_nq (replicate (nq codec) ());
  groups ← for_enumerate (λ _ g, broadcast_to predict_nq g) 0
             (take codec_len crow);
  trow ← assign_prefix codec_len groups trow;
  trow ← assign_at codec_len (replicate predict_nq eos_id) trow;
  Ok (<[i := trow]> llm_targets).

Fixpoint set_target_rows (codec : codec_tensor) (i : nat)
    (codec_lengths : list nat) (llm_targets : list (list (list Z)))
  : result (list (list (list Z))) :=
  match codec_lengths with
  | [] => Ok llm_targets
  | codec_len :: rest =>
      llm_targets ← set_target_row codec i codec_len llm_targets;
      set_target_rows codec (S i) rest llm_targets
  end.

(** Lines 180-184: the targets, [codec] followed by the end id. *)
Definition build_llm_targets (bb : nat) (codec : codec_tensor)
    (codec_lengths : list nat) : result (list (list (list Z))) :=
  m ← tensor_max codec_lengths;
  let tt := m + 1 in
  set_target_rows codec 0 codec_lengths
    (replicate bb (replicate tt (replicate predict_nq 0%Z))).

Definition build_llm_io (text : list (list E)) (text_lengths : list nat)
    (codec : option codec_tensor)
    (codec_lengths : option (list nat)) (need_targets : bool)
  : result (llm_io E) :=
  '(llm_inputs, llm_lengths) ←
    build_llm_inputs text text_lengths codec codec_lengths need_targets;
  if negb need_targets then Ok (LlmInputs llm_inputs llm_lengths)
  else match codec, codec_lengths with
       | Some codec, Some codec_lengths =>
           llm_targets ← build_llm_targets (length text) codec codec_lengths;
           Ok (LlmInputsTargets llm_inputs llm_targets llm_lengths
                 ((λ l, l + 1) <$> codec_lengths))
       | _, _ => Raise AssertionError
       end.
End LauraGenModel.

(** ** [LauraGenModel.nll] *)

(** [t.size(1)] of a batch that is not empty. *)
Definition size1 {A} (t : list (list A)) : nat :=
  match t with
  | [] => 0
  | row :: _ => length row
  end.

(** [row[a:b]] *)
Definition slice {A} (a b : nat) (row : list A) : list A :=
  take (b - a) (drop a row).

(** [t.reshape(rows, cols)] of a flat tensor: the number of elements has to
    be [rows * cols]. *)
Definition reshape2 {A} (rows cols : nat) (flat : list A)
  : result (list (list A)) :=
  if decide (length flat = rows * cols)
  then Ok (reshape (replicate rows cols) flat)
  else Raise RuntimeError.

(** Modelled from the spec: [make_pad_mask] of
    [funcodec.modules.nets_utils], imported by [model.py] and not part of the
    sources.  Row [i] of the mask is as long as the largest length and is
    [True] exactly on "the padded positions", those at or past
    [lengths[i]]; the maximum of no length at all raises. *)
Definition make_pad_mask (lengths : list nat) : result (list (list bool)) :=
  match lengths with
  | [] => Raise ValueError
  | _ => Ok ((λ l, (λ j, bool_decide (l ≤ j)) <$> seq 0 (max_list lengths))
             <$> lengths)
  end.

(** [x.masked_fill_(mask, value)] on flat tensors: the mask has the size of
    [x] or a single element. *)
Definition masked_fill_ {A} (mask : list bool) (value : A) (x : list A)
  : result (list A) :=
  mask ← broadcast_to (length x) mask;
  Ok (zip_with (λ v (m : bool), if m then value else v) x mask).

Section LauraGenModel_nll.
Context {E L F : Type}.
Variable zero_emb : E.
Variable lm_embedding : Z → E.
Variable kmeans_emb : Z → E.
Variable codebook_size : Z.
Variable predict_nq : nat.
(** The logits of one quantizer at one position, and the logits [0.0]. *)
Variable zero_logits : L.
(** The loss value [0.0]. *)
Variable fzero : F.
(** [self.codec_lm], the language model of funcodec, with its output
    already seen as [(B, T, n_q, V)], which is what
    [y.reshape(bb, tt, self.predict_nq, -1)] makes of it. *)
Variable codec_lm :
  list (list E) → list nat → list nat → list (list (list L)).
(** [self.criterion_ce] (label smoothing, [reduction=False]) followed by
    [.sum(-1)]: one loss value per position and quantizer. *)
Variable criterion_ce : L → Z → F.

(** Lines 204-223: what goes into the language model and what comes out,
    [(y, target, y_lengths)]. *)
Definition nll_forward (text : list (list E)) (text_lengths : list nat)
    (codec : codec_tensor) (codec_lengths : list nat)
  : result (list (list (list L)) * list (list (list Z)) * list nat) :=
  tm ← tensor_max text_lengths;
  let text := take tm <$> text in
  cm ← tensor_max codec_lengths;
  let codec := CodecTensor (nq codec) (take cm <$> tokens codec) in
  io ← build_llm_io zero_emb lm_embedding kmeans_emb codebook_size predict_nq
         text text_lengths (Some codec) (Some codec_lengths) true;
  match io with
  | LlmInputsTargets sequence target x_lengths y_lengths =>
      xm ← tensor_max x_lengths;
      let sequence := take xm <$> sequence in
      ym ← tensor_max y_lengths;
      let target := take ym <$> target in
      let y := codec_lm sequence x_lengths ((λ l, l + 1) <$> text_lengths) in
      Ok (y, target, y_lengths)
  | LlmInputs _ _ => Raise TypeError
  end.

(** Lines 225-228: the logits kept for the loss. *)
Definition nll_logits (y : list (list (list L)))
    (text_lengths codec_lengths : list nat)
  : result (list (list (list L))) :=
  logits_list ← for_enumerate (λ i '(text_len, codec_len),
      yrow ← index y i;
      Ok (slice (text_len + 1) (text_len + 2 + codec_len) yrow))
    0 (zip text_lengths codec_lengths);
  pad_list logits_list (replicate predict_nq zero_logits).

(** Lines 238-240: the loss of the padded positions is set to [0.0] on the
    flat tensor, which is then given the shape [(batch_size, tt, n_q)]. *)
Definition nll_mask_padding (batch_size tt : nat) (y_lengths : list nat)
    (nll : list F) : result (list (list (list F))) :=
  mask ← make_pad_mask ((λ l, l * predict_nq) <$> y_lengths);
  nll ← masked_fill_ (mjoin mask) fzero nll;
  nll ← reshape2 batch_size (tt * predict_nq) nll;
  for_enumerate (λ _ row, reshape2 tt predict_nq row) 0 nll.

Definition nll (text : list (list E)) (text_lengths : list nat)
    (codec : codec_tensor) (codec_lengths : list nat)
  : result (list (list (list F)) * list (list (list L))
            * list (list (list Z)) * list nat) :=
  let batch_size := length text in
  '(y, target, y_lengths) ← nll_forward text text_lengths codec codec_lengths;
  let bb := length y in
  logits ← nll_logits y text_lengths codec_lengths;
  let tt := size1 logits in
  flat_logits ← reshape2 bb (tt * predict_nq) (mjoin (mjoin logits));
  flat_target ← reshape2 bb (tt * predict_nq) (mjoin (mjoin target));
  let nll := zip_with criterion_ce (mjoin flat_logits) (mjoin flat_target) in
  nll ← nll_mask_padding batch_size tt y_lengths nll;
  Ok (nll, logits, target, (λ l, l + 1) <$> codec_lengths).
End LauraGenModel_nll.

(** ** [LauraGenModel.sampling_ids] *)

(** The [sampling] argument, [Union[bool, int, float]] by its annotation;
    [SamplingOther] stands for a value of any other type. *)
Inductive sampling_arg (F : Type) : Type :=
| SamplingBool (b : bool)
| SamplingInt (k : Z)
| SamplingFloat (p : F)
| SamplingOther.
Arguments SamplingBool {F} b.
Arguments SamplingInt {F} k.
Arguments SamplingFloat {F} p.
Arguments SamplingOther {F}.

Section sampling.
(** Floating-point numbers stay abstract: the code only compares and adds
    them, and hands them to the tensor library. *)
Context {F : Type}.
(** [x < y] *)
Variable fltb : F → F → bool.
(** [x + y] and [0.0] *)
Variable fadd : F → F → F.
Variable f0 : F.
(** [0.0 < x], the entries a multinomial draw can return. *)
Variable fpos : F → bool.
(** [t.softmax(dim=0)] *)
Variable softmax : list F → list F.
(** The stream of numbers drawn by the random generator. *)
Variable rng : nat → nat.
(** [torch.topk] leaves open which of several equal values it returns
    first, and what it does varies with [k]: [topk_ties t k] ranks the
    indices of [t], and of two equal values the one whose index has the
    lower rank comes first (the one of lower index, when the ranks are
    equal as well). *)
Variable topk_ties : list F → Z → nat → nat.

(** Insertion in a list sorted from the largest to the smallest; equal
    values keep their order. *)
Fixpoint insert_desc (x : F * nat) (l : list (F * nat)) : list (F * nat) :=
  match l with
  | [] => [x]
  | y :: l' => if fltb x.1 y.1 then y :: insert_desc x l' else x :: y :: l'
  end.

(** [t.sort(descending=True, stable=True)], values paired with indices. *)
Definition sort_descending (t : list F) : list (F * nat) :=
  foldr insert_desc [] (zip t (seq 0 (length t))).

(** Insertion in a list sorted from the largest to the smallest, equal
    values going by the rank of their indices. *)
Fixpoint insert_topk (rank : nat → nat) (x : F * nat) (l : list (F * nat))
  : list (F * nat) :=
  match l with
  | [] => [x]
  | y :: l' =>
      if fltb x.1 y.1
         || negb (fltb y.1 x.1) && bool_decide (rank y.2 < rank x.2)
      then y :: insert_topk rank x l'
      else x :: y :: l'
  end.

(** The entries of [t] from the largest to the smallest, in the order in
    which [t.topk(k)] goes through them. *)
Definition topk_order (t : list F) (k : Z) : list (F * nat) :=
  foldr (insert_topk (topk_ties t k)) [] (zip t (seq 0 (length t))).

(** [t.topk(k)]: the [k] largest values with their indices; [k] has to lie
    within the size of [t]. *)
Definition topk (t : list F) (k : Z) : result (list F * list nat) :=
  if decide (0 ≤ k ≤ Z.of_nat (length t))%Z
  then let top := take (Z.to_nat k) (topk_order t k) in
       Ok (top.*1, top.*2)
  else Raise RuntimeError.

(** [prob.multinomial(num_samples, replacement=True)], drawing from the
    generator in state [st]: only entries of positive weight are returned;
    no sample at all, or no entry of positive weight, is an error. *)
Definition multinomial (prob : list F) (num_samples : nat) (st : nat)
  : result (list nat * nat) :=
  let support := filter (λ i, fpos (default f0 (prob !! i)) = true)
                   (seq 0 (length prob)) in
  if decide (num_samples = 0) then Raise RuntimeError
  else match support with
       | [] => Raise RuntimeError
       | i0 :: _ =>
           Ok ((λ j, default i0 (support !! (rng (st + j) `mod` length support)))
                 <$> seq 0 num_samples,
               st + num_samples)
       end.

(** The loop of lines 478-484: the sorted entries are kept while the
    probability accumulated before them is below [sampling]. *)
Fixpoint nucleus (sampling cum_prob : F) (sorted : list (F * nat))
  : list (F * nat) :=
  match sorted with
  | [] => []
  | (value, idx) :: rest =>
      if fltb cum_prob sampling
      then (value, idx) :: nucleus sampling (fadd cum_prob value) rest
      else []
  end.

(** [indices[sampling_ids]] *)
Definition take_indices (indices : list nat) (sampling_ids : list nat)
  : result (list nat) :=
  for_enumerate (λ _ s, index indices s) 0 sampling_ids.

Definition sampling_ids (weighted_scores : list F)
    (sampling : sampling_arg F) (beam_size : nat) (st : nat)
  : result (list nat * nat) :=
  match sampling with
  | SamplingBool true =>
      multinomial (softmax weighted_scores) beam_size st
  | SamplingBool false =>
      '(_, top_ids) ← topk weighted_scores (Z.of_nat beam_size);
      Ok (top_ids, st)
  | SamplingInt k =>
      '(prob, indices) ← topk (softmax weighted_scores) k;
      '(sampling_ids, st) ← multinomial prob beam_size st;
      top_ids ← take_indices indices sampling_ids;
      Ok (top_ids, st)
  | SamplingFloat p =>
      let kept := nucleus p f0 (sort_descending (softmax weighted_scores)) in
      let prob := kept.*1 in
      let indices := kept.*2 in
      '(sampling_ids, st) ← multinomial prob beam_size st;
      top_ids ← take_indices indices sampling_ids;
      Ok (top_ids, st)
  | SamplingOther => Raise NotImplementedError
  end.
End sampling.

(** ** [LauraGenModel.decode_codec] *)

(** [torch.tensor([out_tokens])], of shape [(1, T, n_q)]: the groups need
    one common size. *)
Definition tensor_of_groups (out_tokens : list (list Z)) : result codec_tensor :=
  match out_tokens with
  | [] => Ok (CodecTensor 0 [[]])
  | g :: _ =>
      if forallb (λ h, bool_decide (length h = length g)) out_tokens
      then Ok (CodecTensor (length g) [out_tokens])
      else Raise ValueError
  end.

(** [torch.any(group == eos)] *)
Definition has_eos (eos : Z) (group : list Z) : bool :=
  existsb (λ t, bool_decide (t = eos)) group.

(** [l[-1]] *)
Definition py_last {A} (l : list A) : result A :=
  match list.last l with
  | Some x => Ok x
  | None => Raise IndexError
  end.

Section LauraGenModel_decode.
Context {E F : Type}.
Variable zero_emb : E.
Variable lm_embedding : Z → E.
Variable kmeans_emb : Z → E.
Variable codebook_size : Z.
Variable predict_nq : nat.
Variable fltb : F → F → bool.
Variable fadd : F → F → F.
Variable f0 : F.
Variable fpos : F → bool.
Variable softmax : list F → list F.
Variable rng : nat → nat.
Variable topk_ties : list F → Z → nat → nat.
(** [self.codec_lm.score(seq_input[0], state, prompt[0])], reshaped to
    [predict_nq] rows of scores as line 551 does. *)
Variable codec_lm_score : list E → list E → list (list F).

(** Lines 552-554: one token id per quantizer, the first of each beam. *)
Fixpoint sample_group (pred : list (list F)) (sampling : sampling_arg F)
    (beam_size : nat) (k n : nat) (st : nat) : result (list Z * nat) :=
  match n with
  | 0 => Ok ([], st)
  | S n' =>
      row ← index pred k;
      '(ids, st) ← sampling_ids fltb fadd f0 fpos softmax rng topk_ties
                     row sampling beam_size st;
      id0 ← index ids 0;
      '(top_ids, st) ← sample_group pred sampling beam_size (S k) n' st;
      Ok (Z.of_nat id0 :: top_ids, st)
  end.

(** Lines 536-555: one decoding iteration that does not stop, which
    appends one group of token ids to [out_tokens]. *)
Definition decode_step (text : list (list E)) (text_lengths : list nat)
    (prompt : list (list E)) (sampling : sampling_arg F) (beam_size : nat)
    (codec_prompt : option codec_tensor) (out_tokens : list (list Z))
    (st : nat) : result (list (list Z) * nat) :=
  io ← build_llm_io zero_emb lm_embedding kmeans_emb codebook_size predict_nq
         text text_lengths codec_prompt
         (match codec_prompt with
          | Some _ => Some [length out_tokens]
          | None => None
          end) false;
  seq_input0 ← index (io_inputs io) 0;
  prompt0 ← index prompt 0;
  let pred := codec_lm_score seq_input0 prompt0 in
  '(top_ids, st) ← sample_group pred sampling beam_size 0 predict_nq st;
  Ok (out_tokens ++ [top_ids], st).

(** The loop of lines 529-555, [max_length] iterations at most. *)
Fixpoint decode_loop (max_length : nat) (text : list (list E))
    (text_lengths : list nat) (prompt : list (list E))
    (sampling : sampling_arg F) (beam_size : nat) (out_tokens : list (list Z))
    (st : nat) : result (list (list Z) * nat) :=
  match max_length with
  | 0 => Ok (out_tokens, st)
  | S rest =>
      if bool_decide (0 < length out_tokens) then
        codec_prompt ← tensor_of_groups out_tokens;
        last_group ← py_last out_tokens;
        if has_eos (eos_id codebook_size) last_group
        then Ok (out_tokens, st)
        else
          '(out_tokens, st) ← decode_step text text_lengths prompt sampling
                                beam_size (Some codec_prompt) out_tokens st;
          decode_loop rest text text_lengths prompt sampling beam_size
            out_tokens st
      else
        '(out_tokens, st) ← decode_step text text_lengths prompt sampling
                              beam_size None out_tokens st;
        decode_loop rest text text_lengths prompt sampling beam_size
          out_tokens st
  end.

(** Lines 558-560: a trailing group that holds the end id is dropped. *)
Definition strip_trailing_eos (out_tokens : list (list Z))
  : result (list (list Z)) :=
  last_group ← py_last out_tokens;
  Ok (if has_eos (eos_id codebook_size) last_group
      then take (length out_tokens - 1) out_tokens
      else out_tokens).

(** Line 561, the final [return]: the tokens as a tensor, without its first
    [aux.size(1)] groups. *)
Definition decode_return (aux : option (list (list E)))
    (out_tokens : list (list Z)) : result (list (list (list Z))) :=
  _ ← tensor_of_groups out_tokens;
  match aux with
  | None => Raise AttributeError
  | Some aux => Ok [drop (size1 aux) out_tokens]
  end.

(** Lines 518-521: the length of the text, the auxiliary prefix included. *)
Definition decode_text_lengths (text : list (list E))
    (text_lengths aux_lengths : option (list nat)) : result (list nat) :=
  match text_lengths with
  | None => Ok [size1 text]
  | Some text_lengths =>
      match aux_lengths with
      | Some aux_lengths => tensor_add text_lengths aux_lengths
      | None => Raise TypeError
      end
  end.

(** Lines 525-527: [sos_eos], the text, [task_id]. *)
Definition decode_prompt (text : list (list E)) : list (list E) :=
  let sos_eos_emb := [[lm_embedding sos_eos]] in
  let task_id_emb := [[lm_embedding task_id]] in
  zip_with app sos_eos_emb (zip_with app text task_id_emb).

Definition decode_codec (text : list E) (aux : option (list E))
    (text_lengths aux_lengths : option (list nat)) (max_length : nat)
    (sampling : sampling_arg F) (beam_size : nat)
    (continual : option (list (list Z))) (st : nat)
  : result (list (list (list Z)) * nat) :=
  let text := [text] in
  let '(aux, text) :=
    match aux with
    | Some aux => (Some [aux], zip_with app [aux] text)
    | None => (None, text)
    end in
  text_lengths ← decode_text_lengths text text_lengths aux_lengths;
  let out_tokens := default [] continual in
  let prompt := decode_prompt text in
  '(out_tokens, st) ← decode_loop max_length text text_lengths prompt
                        sampling beam_size out_tokens st;
  out_tokens ← strip_trailing_eos out_tokens;
  res ← decode_return aux out_tokens;
  Ok (res, st).
End LauraGenModel_decode.

(** ** [WavLMKmeansConformer.forward] *)

(** [l[:n]] for an integer [n] of either sign. *)
Definition py_slice_to {A} (n : Z) (l : list A) : list A :=
  if decide (0 ≤ n)%Z then take (Z.to_nat n) l
  else take (length l - Z.to_nat (- n)) l.

Section WavLMKmeansConformer.
(** An embedding vector, a k-means token, a loss value, and the values
    [mask_ratio] ranges over. *)
Context {E Tok Loss Ratio : Type}.
(** [self.mask_emb] *)
Variable mask_emb : E.
(** [self.kmeans], [self.kmeans.emb] and [self.conformer]. *)
Variable kmeans : list (list E) → list (list Tok).
Variable kmeans_embedding : list (list Tok) → list (list E).
Variable conformer : list (list E) → list nat → list (list E) * list nat.
Variable mse_loss : list (list E) → list (list E) → Loss.
Variable ssim : list (list E) → list (list E) → Loss.
Variable loss_add : Loss → Loss → Loss.
(** [mask_ratio == 0.0] and [int(n * mask_ratio)] *)
Variable ratio_is_zero : Ratio → bool.
Variable int_mul : nat → Ratio → Z.

(** [emb[:, mask_index] = self.mask_emb], on one example. *)
Definition mask_row (mask_index : list nat) (row : list E) : list E :=
  foldl (λ row i, <[i := mask_emb]> row) row mask_index.

(** Lines 53-58; [perm] is the permutation drawn by
    [torch.randperm(emb.size(1))]. *)
Definition mask_index (emb : list (list E)) (mask_ratio : option Ratio)
    (perm : list nat) : list nat :=
  match mask_ratio with
  | None => []
  | Some r =>
      if ratio_is_zero r then []
      else let num_mask := int_mul (size1 emb) r in
           py_slice_to num_mask perm
  end.

Definition masked_emb (emb : list (list E)) (mask_ratio : option Ratio)
    (perm : list nat) : list (list E) :=
  match mask_ratio with
  | None => emb
  | Some r =>
      if ratio_is_zero r then emb
      else mask_row (mask_index emb mask_ratio perm) <$> emb
  end.

Definition forward (emb : list (list E)) (mask_ratio : option Ratio)
    (perm : list nat)
  : list (list E) * list (list E) * Loss * Loss * Loss :=
  let clean_emb := emb in
  let emb := masked_emb emb mask_ratio perm in
  let clean_token := kmeans emb in
  let embedding := kmeans_embedding clean_token in
  let res := conformer embedding
               (replicate (length embedding) (size1 embedding)) in
  let res := res.1 in
  let mse_loss := mse_loss res clean_emb in
  let ssim_loss := ssim res clean_emb in
  let total_loss := loss_add mse_loss ssim_loss in
  (res, emb, total_loss, mse_loss, ssim_loss).
End WavLMKmeansConformer.

(** ** [positionalencoding1d] *)

(** [torch.arange(start, stop, 2)] for [start] equal to 0 or 1: the columns
    [start::2] of a row of [stop] entries. *)
Definition arange2 (start stop : nat) : list nat :=
  (λ i, start + 2 * i) <$> seq 0 ((stop + 1 - start) / 2).

(** [row[start::2] = vals]: as many values as columns, or a single one. *)
Definition assign_strided {A} (start : nat) (vals : list A) (row : list A)
  : result (list A) :=
  let cols := arange2 start (length row) in
  vals ← broadcast_to (length cols) vals;
  Ok (foldl (λ row '(c, v), <[c := v]> row) row (zip cols vals)).

Section positional_encoding.
(** The entries of a [float32] tensor and Python's own floats, with the
    operations the function applies to them. *)
Context {F D : Type}.
(** [0.0], [torch.exp], [torch.sin], [torch.cos], the product of two
    tensor entries and the product of a tensor entry by a Python float. *)
Variable f0 : F.
Variable fexp : F → F.
Variable fsin : F → F.
Variable fcos : F → F.
Variable fmul : F → F → F.
Variable fscale : F → D → F.
(** The entry [n] of [torch.arange(..., dtype=torch.float)] or of
    [position.float()]. *)
Variable of_nat : nat → F.
(** [math.log(10000.0)], [x / n] for a non-zero integer [n], and [-x]. *)
Variable log_10000 : D.
Variable ddiv : D → nat → D.
Variable dneg : D → D.

(** [x / n] *)
Definition py_div (x : D) (n : nat) : result D :=
  if n =? 0 then Raise ZeroDivisionError else Ok (ddiv x n).

(** Lines 20-25:
    [exp(arange(0, d_model, 2) * -(math.log(10000.0) / d_model))]. *)
Definition div_term (d_model : nat) : result (list F) :=
  q ← py_div log_10000 d_model;
  Ok ((λ j, fexp (fscale (of_nat j) (dneg q))) <$> arange2 0 d_model).

Definition positionalencoding1d (d_model length : nat)
  : result (list (list F)) :=
  if negb (d_model `mod` 2 =? 0) then Raise ValueError
  else
    let pe := replicate length (replicate d_model f0) in
    let position := seq 0 length in
    div_term ← div_term d_model;
    let angles :=
      (λ pos, (λ d, fmul (of_nat pos) d) <$> div_term) <$> position in
    pe ← for_enumerate (λ _ '(row, a), assign_strided 0 (fsin <$> a) row)
           0 (zip pe angles);
    pe ← for_enumerate (λ _ '(row, a), assign_strided 1 (fcos <$> a) row)
           0 (zip pe angles);
    Ok pe.
End positional_encoding.

(** ** [CrossAttentionDecoderBlock] *)

(** The modules a [nn.Sequential] of this block can hold; a decoder layer is
    told apart by the turn of the comprehension that created it. *)
Inductive layer_module : Set :=
| Identity
| SelmTransformerDecoderLayer (d_model nheads hidden_dim : nat)
    (is_causal : bool) (created : nat).

Record CrossAttentionDecoderBlock : Set := {
  cross : nat * nat * bool;
  layers : list layer_module;
  layers_regi : list layer_module;
  cross_first : bool
}.

(** Lines 169-177 (and 178-186 for the register stack). *)
Definition build_layers (d_model num_layers nheads : nat) (is_causal : bool)
    (hidden_dim : nat) : list layer_module :=
  if num_layers =? 0 then [Identity]
  else (λ i, SelmTransformerDecoderLayer d_model nheads hidden_dim is_causal i)
         <$> seq 0 (num_layers - 1).

(** [CrossAttentionDecoderBlock.__init__] *)
Definition CrossAttentionDecoderBlock_init (d_model num_layers num_layers_regi
    nheads : nat) (is_causal cross_first : bool) (hidden_dim : nat)
  : CrossAttentionDecoderBlock :=
  {| cross := (d_model, nheads, is_causal);
     layers := build_layers d_model num_layers nheads is_causal hidden_dim;
     layers_regi :=
       build_layers d_model num_layers_regi nheads is_causal hidden_dim;
     cross_first := cross_first |}.

Section CrossAttentionDecoderBlock_forward.
(** A tensor [(B, T, E)]. *)
Context {X : Type}.
(** [SelmTransformerDecoderLayer.forward] and
    [SelmTransformerDecoderCrossAttentionLayer.forward] with the weights of
    the given module. *)
Variable decoder_layer_forward : layer_module → X → X.
Variable cross_forward : nat * nat * bool → X → X → X.

Definition module_forward (m : layer_module) (x : X) : X :=
  match m with
  | Identity => x
  | SelmTransformerDecoderLayer _ _ _ _ _ => decoder_layer_forward m x
  end.

(** [nn.Sequential] of [modules], applied to [x]: each module in turn. *)
Definition sequential (modules : list layer_module) (x : X) : X :=
  foldl (λ x m, module_forward m x) x modules.

Definition block_forward (self : CrossAttentionDecoderBlock) (args : X * X)
  : X * X :=
  let x := args.1 in
  let regi := args.2 in
  if cross_first self then
    let x := cross_forward (cross self) x regi in
    let regi := sequential (layers_regi self) regi in
    let x := sequential (layers self) x in
    (x, regi)
  else
    let x := sequential (layers self) x in
    let regi := sequential (layers_regi self) regi in
    let x := cross_forward (cross self) x regi in
    (x, regi).
End CrossAttentionDecoderBlock_forward.

(** ** [utils.py] *)

(** An [OrderedDict] with string keys: its items in insertion order, no key
    twice. *)
Definition odict (V : Type) : Type := list (string * V).

(** [d[k] = v]: the value of a key already present is replaced where it
    stands, a new key goes last. *)
Fixpoint odict_set {V} (k : string) (v : V) (d : odict V) : odict V :=
  match d with
  | [] => [(k, v)]
  | (k', v') :: d' =>
      if decide (k' = k) then (k, v) :: d' else (k', v') :: odict_set k v d'
  end.

(** [d.get(k)] *)
Fixpoint odict_get {V} (k : string) (d : odict V) : option V :=
  match d with
  | [] => None
  | (k', v) :: d' => if decide (k' = k) then Some v else odict_get k d'
  end.

(** [s.startswith(prefix)] *)
Fixpoint startswith (s prefix : string) {struct prefix} : bool :=
  match prefix with
  | EmptyString => true
  | String a prefix' =>
      match s with
      | EmptyString => false
      | String b s' => bool_decide (a = b) && startswith s' prefix'
      end
  end.

(** [s[n:]] *)
Fixpoint str_from (n : nat) (s : string) : string :=
  match n, s with
  | 0, _ => s
  | S n', String _ s' => str_from n' s'
  | S _, EmptyString => EmptyString
  end.

(** [strip_ddp_state_dict] *)
Definition strip_ddp_state_dict {V} (state_dict : odict V) : odict V :=
  foldl (λ new_state_dict '(k, v),
           if startswith k "module."
           then odict_set (str_from 7 k) v new_state_dict
           else odict_set k v new_state_dict)
    [] state_dict.

(** [s.split(sep)] for a separator of one character. *)
Fixpoint split (sep : ascii) (s : string) : list string :=
  match s with
  | EmptyString => [EmptyString]
  | String c s' =>
      if decide (c = sep) then EmptyString :: split sep s'
      else match split sep s' with
           | w :: ws => String c w :: ws
           | [] => [String c EmptyString]
           end
  end.

(** [sep.join(l)] *)
Fixpoint join (sep : string) (l : list string) : string :=
  match l with
  | [] => EmptyString
  | [w] => w
  | w :: ws => w +:+ sep +:+ join sep ws
  end.

(** A value found in a configuration read from YAML: a string, an integer,
    a mapping, or anything else. *)
Inductive config_value (V : Type) : Type :=
| ConfigStr (s : string)
| ConfigInt (z : Z)
| ConfigDict (d : list (string * V))
| ConfigOther (v : V).
Arguments ConfigStr {V} s.
Arguments ConfigInt {V} z.
Arguments ConfigDict {V} d.
Arguments ConfigOther {V} v.

(** [v == s] for a string [s] *)
Definition is_str {V} (v : config_value V) (s : string) : bool :=
  match v with
  | ConfigStr s' => bool_decide (s' = s)
  | _ => false
  end.

(** [f(..., **kwargs, **config)]: a keyword given twice is a [TypeError]. *)
Definition merge_kwargs {V} (kwargs config : list (string * V))
  : result (list (string * V)) :=
  if decide (Exists (λ k, k ∈ kwargs.*1) config.*1)
  then Raise TypeError else Ok (kwargs ++ config).

Section init.
(** A module, a callable found in it, the object it builds, and the values
    passed to it. *)
Context {Mod Callable Obj V : Type}.
(** [importlib.import_module], [getattr] on a module and the call of what
    was found there. *)
Variable import_module : string → result Mod.
Variable getattr : Mod → string → result Callable.
Variable call : Callable → list V → list (string * V) → result Obj.

Definition _init (path config : config_value V) (args : list V)
    (kwargs : list (string * V)) : result Obj :=
  match path with
  | ConfigStr path =>
      let p := split "."%char path in
      let package := join "." (py_slice_to (-1) p) in
      module ← py_last p;
      m ← import_module package;
      f ← getattr m module;
      kw ← match config with
           | ConfigDict config => merge_kwargs kwargs config
           | _ => Raise TypeError
           end;
      call f args kw
  | _ => Raise AttributeError
  end.

Definition init (config : gmap string (config_value V)) (args : list V)
    (kwargs : list (string * V)) : result Obj :=
  _ ← py_assert (bool_decide (is_Some (config !! "type")));
  _ ← py_assert (bool_decide (is_Some (config !! "args")));
  match config !! "type", config !! "args" with
  | Some path, Some config => _init path config args kwargs
  | _, _ => Raise AssertionError
  end.
End init.

(** ** [_MultiHeadAttention] *)

Section MultiHeadAttention.
(** The entries of a float tensor with [0.0], [1.0], [float("-inf")] and
    the test [x == y]. *)
Context {F : Type}.
Variable f0 f1 neg_inf : F.
Variable feqb : F → F → bool.
(** A tensor [(B, T, E)] with [t.size(1)], and [self.multi_head], the
    [nn.MultiheadAttention] of the layer, called with or without
    [attn_mask]; it returns the output and the attention weights. *)
Context {X W : Type}.
Variable size_1 : X → nat.
Variable multi_head : X → X → X → option (list (list F)) → X * W.

(** [torch.ones(n, m)] *)
Definition ones (n m : nat) : list (list F) := replicate n (replicate m f1).

(** [torch.tril(t, diagonal)]: the entries above the given diagonal, those
    of a column [j] with [j - i > diagonal], are set to zero. *)
Definition tril (t : list (list F)) (diagonal : Z) : list (list F) :=
  imap (λ i row,
          imap (λ j v, if decide (Z.of_nat j - Z.of_nat i ≤ diagonal)%Z
                       then v else f0) row) t.

(** [t.masked_fill(t == 0, value)] *)
Definition masked_fill_zeros (t : list (list F)) (value : F)
  : list (list F) :=
  fmap (M := list) (fmap (M := list) (λ v, if feqb v f0 then value else v)) t.

(** Lines 76-77: the mask handed to the attention of a causal layer. *)
Definition causal_attn_mask (seq_length : nat) : list (list F) :=
  let attn_mask := tril (ones seq_length seq_length) 1 in
  masked_fill_zeros attn_mask neg_inf.

(** [_MultiHeadAttention.forward] *)
Definition _MultiHeadAttention_forward (is_causal : bool)
    (query key value : X) : X :=
  if is_causal then
    let seq_length := size_1 key in
    let attn_mask := causal_attn_mask seq_length in
    (multi_head query key value (Some attn_mask)).1
  else (multi_head query key value None).1.
End MultiHeadAttention.

(** ** [SinuPosEncoding] *)

(** A float tensor of shape [(B, T, E)]: the sizes of the two trailing axes
    are kept next to the nested lists, since the code reads them
    ([x.size(-1)], [x.size(-2)]) whatever the batch holds. *)
Record tensor3 (F : Type) : Type := Tensor3 {
  size_T : nat;
  size_E : nat;
  entries : list (list (list F))
}.
Arguments Tensor3 {F} _ _ _.
Arguments size_T {F} _.
Arguments size_E {F} _.
Arguments entries {F} _.

Section SinuPosEncoding.
Context {F D : Type}.
Variable f0 : F.
Variable fexp fsin fcos : F → F.
Variable fmul : F → F → F.
Variable fscale : F → D → F.
Variable of_nat : nat → F.
Variable log_10000 : D.
Variable ddiv : D → nat → D.
Variable dneg : D → D.
(** [x + y] *)
Variable fadd : F → F → F.

(** [SinuPosEncoding.forward]: [pe], of shape [(T, E)], is added to every
    example of [x]. *)
Definition SinuPosEncoding_forward (x : tensor3 F) : result (tensor3 F) :=
  pe ← positionalencoding1d f0 fexp fsin fcos fmul fscale of_nat log_10000
         ddiv dneg (size_E x) (size_T x);
  Ok (Tensor3 (size_T x) (size_E x)
        ((λ example, zip_with (zip_with fadd) example pe) <$> entries x)).
End SinuPosEncoding.

(** ** [LanguageModel] *)

(** [self.layers], a [nn.Sequential] of blocks; the two embeddings and the
    classifier are fixed by [emb_num] and [emb_dim]. *)
Record LanguageModel : Set := {
  lm_layers : list CrossAttentionDecoderBlock;
  lm_emb_num : nat;
  lm_emb_dim : nat
}.

(** [LanguageModel.__init__]: every block is built with the default
    numbers of layers, [num_layers=1] and [num_layers_regi=1]. *)
Definition LanguageModel_init (emb_num emb_dim nheads hidden_dim num : nat)
    (is_causal cross_first : bool) : LanguageModel :=
  {| lm_layers :=
       (λ _, CrossAttentionDecoderBlock_init emb_dim 1 1 nheads is_causal
               cross_first hidden_dim) <$> seq 0 num;
     lm_emb_num := emb_num;
     lm_emb_dim := emb_dim |}.

Section LanguageModel_forward.
(** A tensor of token ids [(B, T)] and a float tensor. *)
Context {Ids X : Type}.
(** [self.audio_embedding], [self.regi_embedding], [self.classifier],
    [y.transpose(1, 2)] and [self.positional_encoding]. *)
Variable audio_embedding regi_embedding : Ids → X.
Variable classifier : X → X.
Variable transpose_1_2 : X → X.
Variable positional_encoding : X → result X.
(** The forward passes of the layers of block [i], each block having
    weights of its own. *)
Variable decoder_layer_forward : nat → layer_module → X → X.
Variable cross_forward : nat → nat * nat * bool → X → X → X.

(** [self.layers((y, register))]: the blocks in turn, on the pair. *)
Definition blocks_forward (blocks : list CrossAttentionDecoderBlock)
    (args : X * X) : X * X :=
  foldl (λ args '(i, block),
           block_forward (decoder_layer_forward i) (cross_forward i) block
             args)
    args (imap pair blocks).

(** [LanguageModel.forward] *)
Definition LanguageModel_forward (self : LanguageModel) (x register : Ids)
  : result X :=
  let x := audio_embedding x in
  let register := regi_embedding register in
  y ← positional_encoding x;
  register ← positional_encoding register;
  let y := (blocks_forward (lm_layers self) (y, register)).1 in
  let y := classifier y in
  let y := transpose_1_2 y in
  Ok y.
End LanguageModel_forward.

(** ** [LauraGenModel]: construction *)

(** The exceptions above, and [KeyError] and [NameError], which only the
    code modelled from here on raises. *)
Inductive exception : Set :=
| Builtin (e : exn)
| KeyError
| NameError.

Inductive outcome (A : Type) : Type :=
| Returns (a : A)
| Raises (e : exception).
Arguments Returns {A} a.
Arguments Raises {A} e.

#[global] Instance outcome_ret : MRet outcome := @Returns.
#[global] Instance outcome_bind : MBind outcome := λ A B f m,
  match m with
  | Returns a => f a
  | Raises e => Raises e
  end.

Definition lift {A} (r : result A) : outcome A :=
  match r with
  | Ok a => Returns a
  | Raise e => Raises (Builtin e)
  end.

(** An attribute that no statement of the class assigns: it is there only
    if a caller has set it, and reading it raises [AttributeError]
    otherwise. *)
Definition read_attribute {A} (attribute : option A) : result A :=
  match attribute with
  | Some a => Ok a
  | None => Raise AttributeError
  end.

(** [x // n] on integers *)
Definition py_floordiv (x n : Z) : result Z :=
  if decide (n = 0%Z) then Raise ZeroDivisionError else Ok (x `div` n)%Z.

(** The attributes of a [LauraGenModel]; [Mod] stands for the modules of
    the libraries and [Float] for Python's floats. *)
Record LauraGenModel (Mod Float : Type) : Type := {
  self_ignore_id : Z;
  self_codec_sampling_ratio : Float;
  self_codebook_size : Z;
  self_codebook_dim : Z;
  self_predict_nq : nat;
  self_pos_emb_func : Mod;
  self_pos_emb_type : string;
  self_kmeans : Mod;
  (* [None] after [__init__] *)
  self_text_encoder : option Mod;
  self_sos_eos : Z;
  self_task_id : Z;
  self_lm_embedding : Mod;
  self_lm_out_voc_size : Z;
  self_codec_lm : Mod;
  self_criterion_ce : Mod;
  self_length_normalized_loss : bool;
  (* read by [encode] and [cal_codec_emb], never assigned *)
  self_text_enc_out_layer : option Mod;
  self_quantizer_codebook : option Mod;
  self_codec_encoder : option Mod;
  self_codec_encoder_out_layer : option Mod
}.
Arguments self_ignore_id {Mod Float} _.
Arguments self_codec_sampling_ratio {Mod Float} _.
Arguments self_codebook_size {Mod Float} _.
Arguments self_codebook_dim {Mod Float} _.
Arguments self_predict_nq {Mod Float} _.
Arguments self_pos_emb_func {Mod Float} _.
Arguments self_pos_emb_type {Mod Float} _.
Arguments self_kmeans {Mod Float} _.
Arguments self_text_encoder {Mod Float} _.
Arguments self_sos_eos {Mod Float} _.
Arguments self_task_id {Mod Float} _.
Arguments self_lm_embedding {Mod Float} _.
Arguments self_lm_out_voc_size {Mod Float} _.
Arguments self_codec_lm {Mod Float} _.
Arguments self_criterion_ce {Mod Float} _.
Arguments self_length_normalized_loss {Mod Float} _.
Arguments self_text_enc_out_layer {Mod Float} _.
Arguments self_quantizer_codebook {Mod Float} _.
Arguments self_codec_encoder {Mod Float} _.
Arguments self_codec_encoder_out_layer {Mod Float} _.

Section LauraGenModel_init.
Context {Mod Float V : Type}.
(** The constructors of the libraries: [PositionalEncoding] and
    [ScaledPositionalEncoding] (called with the dimension and the dropout
    rate 0.1), [nn.Sequential()], [KMeansQuantizer], [torch.nn.Embedding],
    [TransformerEmbedLM] with its keyword arguments and
    [LabelSmoothingLoss] with [size], [padding_idx], [smoothing] and
    [normalize_length]. *)
Variable PositionalEncoding ScaledPositionalEncoding : Z → outcome Mod.
Variable Sequential : Mod.
Variable KMeansQuantizer : string → outcome Mod.
Variable Embedding : Z → Z → outcome Mod.
Variable TransformerEmbedLM : gmap string (config_value V) → outcome Mod.
Variable LabelSmoothingLoss : Z → Z → Float → bool → outcome Mod.

(** [build_codec_lm]: what the call gives and the dictionary [conf] as the
    call leaves it. *)
Definition build_codec_lm (lm_out_voc_size : Z)
    (conf : gmap string (config_value V))
  : outcome Mod * gmap string (config_value V) :=
  match conf !! "name" with
  | None => (Raises KeyError, conf)
  | Some name =>
      let conf := delete "name" conf in
      if is_str name "transformer" then
          let kwargs :=
            if decide (is_Some (conf !! "text_vocab_size")) then conf
            else <["text_vocab_size" := ConfigInt lm_out_voc_size]> conf in
          if decide (is_Some (conf !! "vocab_size"))
          then (Raises (Builtin TypeError), conf)
          else
            match TransformerEmbedLM
                    (<["vocab_size" := ConfigInt lm_out_voc_size]> kwargs)
            with
            | Returns lm_model => (Returns lm_model, <["name" := name]> conf)
            | Raises e => (Raises e, conf)
            end
      else (Raises (Builtin TypeError), conf)
  end.

(** [LauraGenModel.__init__]: the object built and [codec_lm_conf] as the
    call leaves it. *)
Definition LauraGenModel_init (kmeans_ckpt : string) (pos_enc : option string)
    (codec_conf : option (gmap string Z)) (ignore_id : Z)
    (length_normalized_loss : bool) (lsm_weight : Float)
    (codec_lm_conf : option (gmap string (config_value V)))
    (codec_sampling_ratio : Float) (predict_nq : nat) (pos_emb_type : string)
  : outcome (LauraGenModel Mod Float)
    * option (gmap string (config_value V)) :=
  let pos_enc_class : outcome (Z → outcome Mod) :=
    match pos_enc with
    | Some s =>
        if bool_decide (s ∈ ["sinusoidal"; "abs_pos"])
        then Returns PositionalEncoding
        else if bool_decide (s = "scaled_abs_pos")
             then Returns ScaledPositionalEncoding
             else Raises (Builtin ValueError)
    | None => Returns (λ _, Returns Sequential)
    end in
  let before_lm : outcome (Z * Z * Mod * Mod * Mod) :=
    pos_enc_class ← pos_enc_class;
    _ ← lift (py_assert (bool_decide (pos_emb_type ∈ ["split"; "uni"])));
    codec_conf ← match codec_conf with
                 | Some codec_conf => Returns codec_conf
                 | None => Raises (Builtin AttributeError)
                 end;
    let codebook_size := default 1000%Z (codec_conf !! "codebook_size") in
    let codebook_dim := default 1024%Z (codec_conf !! "codebook_dim") in
    pos_emb_func ← pos_enc_class codebook_dim;
    kmeans ← KMeansQuantizer kmeans_ckpt;
    lm_embedding ← Embedding 2 codebook_dim;
    Returns (codebook_size, codebook_dim, pos_emb_func, kmeans,
             lm_embedding) in
  match before_lm with
  | Raises e => (Raises e, codec_lm_conf)
  | Returns (codebook_size, codebook_dim, pos_emb_func, kmeans,
             lm_embedding) =>
      let lm_out_voc_size := ((codebook_size + 1) * Z.of_nat predict_nq)%Z in
      match codec_lm_conf with
      | None => (Raises (Builtin AttributeError), None)
      | Some conf =>
          let '(codec_lm, conf) := build_codec_lm lm_out_voc_size conf in
          (codec_lm ← codec_lm;
           size ← lift (py_floordiv lm_out_voc_size (Z.of_nat predict_nq));
           criterion_ce ← LabelSmoothingLoss size ignore_id lsm_weight
                            length_normalized_loss;
           Returns
             {| self_ignore_id := ignore_id;
                self_codec_sampling_ratio := codec_sampling_ratio;
                self_codebook_size := codebook_size;
                self_codebook_dim := codebook_dim;
                self_predict_nq := predict_nq;
                self_pos_emb_func := pos_emb_func;
                self_pos_emb_type := pos_emb_type;
                self_kmeans := kmeans;
                self_text_encoder := None;
                self_sos_eos := 0;
                self_task_id := 1;
                self_lm_embedding := lm_embedding;
                self_lm_out_voc_size := lm_out_voc_size;
                self_codec_lm := codec_lm;
                self_criterion_ce := criterion_ce;
                self_length_normalized_loss := length_normalized_loss;
                self_text_enc_out_layer := None;
                self_quantizer_codebook := None;
                self_codec_encoder := None;
                self_codec_encoder_out_layer := None |},
           Some conf)
      end
  end.
End LauraGenModel_init.

Section LauraGenModel_encode.
(** A tensor [(B, T, D)] with its [shape[-1]], and the call of a module of
    the libraries: a text encoder, which returns three values of which two
    are used, and a layer. *)
Context {Mod Float X : Type}.
Variable shape_last : X → Z.
Variable call_encoder : Mod → X → list nat → result (X * list nat).
Variable call_layer : Mod → X → result X.

(** [LauraGenModel.encode] *)
Definition encode (self : LauraGenModel Mod Float) (text : X)
    (text_lengths : list nat) : result (X * list nat) :=
  match self_text_encoder self with
  | Some text_encoder =>
      '(outs, out_lens) ← call_encoder text_encoder text text_lengths;
      text_enc_out_layer ← read_attribute (self_text_enc_out_layer self);
      outs ← call_layer text_enc_out_layer outs;
      Ok (outs, out_lens)
  | None =>
      if decide (shape_last text = self_codebook_dim self)
      then Ok (text, text_lengths)
      else
        text_enc_out_layer ← read_attribute (self_text_enc_out_layer self);
        outs ← call_layer text_enc_out_layer text;
        Ok (outs, text_lengths)
  end.
End LauraGenModel_encode.

(** ** [LauraGenModel.forward] *)

Section LauraGenModel_forward.
Context {Mod Float E L F : Type}.
Variable zero_emb : E.
Variable lm_embedding : Z → E.
Variable kmeans_emb : Z → E.
(** [self.kmeans], which maps a batch of frames to their tokens. *)
Variable kmeans : list (list E) → list (list Z).
Variable zero_logits : L.
Variable fzero : F.
Variable codec_lm :
  list (list E) → list nat → list nat → list (list (list L)).
Variable criterion_ce : L → Z → F.
Variable shape_last : list (list E) → Z.
Variable call_encoder :
  Mod → list (list E) → list nat → result (list (list E) * list nat).
Variable call_layer : Mod → list (list E) → result (list (list E)).

(** Lines 399-409: the text and the tokens handed to [nll].  With an
    auxiliary prefix, both the text and the continuous target are
    prefixed with it before the target is quantized. *)
Definition forward_nll_inputs (self : LauraGenModel Mod Float)
    (text : list (list E)) (text_lengths : list nat)
    (codec : list (list E)) (codec_lengths : list nat)
    (aux : option (list (list E))) (aux_lengths : option (list nat))
  : result (list (list E) * list nat * codec_tensor * list nat) :=
  tm ← tensor_max text_lengths;
  let text := take tm <$> text in
  cm ← tensor_max codec_lengths;
  let codec := take cm <$> codec in
  '(text, text_lengths, codec, codec_lengths) ←
    match aux with
    | Some aux =>
        aux_lengths ← match aux_lengths with
                       | Some aux_lengths => Ok aux_lengths
                       | None => Raise AssertionError
                       end;
        am ← tensor_max aux_lengths;
        let aux := take am <$> aux in
        '(text, text_lengths) ←
          _pad_two zero_emb aux aux_lengths text text_lengths;
        '(codec, codec_lengths) ←
          _pad_two zero_emb aux aux_lengths codec codec_lengths;
        Ok (text, text_lengths, codec, codec_lengths)
    | None => Ok (text, text_lengths, codec, codec_lengths)
    end;
  let codec :=
    CodecTensor 1
      (fmap (M := list) (fmap (M := list) (λ token, [token])) (kmeans codec)) in
  '(text, text_lengths) ←
    encode shape_last call_encoder call_layer self text text_lengths;
  Ok (text, text_lengths, codec, codec_lengths).

(** [codec[:, :, :n]] *)
Definition take_quantizers (n : nat) (codec : codec_tensor) : codec_tensor :=
  CodecTensor (nq codec `min` n)
    (fmap (M := list) (fmap (M := list) (take n)) (tokens codec)).

(** Line 412: the call of [nll], whose results are returned with the
    lengths that the statistics need. *)
Definition forward_nll (self : LauraGenModel Mod Float)
    (text : list (list E)) (text_lengths : list nat)
    (codec : list (list E)) (codec_lengths : list nat)
    (aux : option (list (list E))) (aux_lengths : option (list nat))
  : result (list (list (list F)) * list (list (list L))
            * list (list (list Z)) * list nat * list nat * list nat) :=
  '(text, text_lengths, codec, codec_lengths) ←
    forward_nll_inputs self text text_lengths codec codec_lengths aux
      aux_lengths;
  '(nll, logits, target, target_lengths) ←
    nll zero_emb lm_embedding kmeans_emb (self_codebook_size self)
      (self_predict_nq self) zero_logits fzero codec_lm criterion_ce
      text text_lengths (take_quantizers (self_predict_nq self) codec)
      codec_lengths;
  Ok (nll, logits, target, target_lengths, text_lengths, codec_lengths).

(** Lines 413-415 and 441: the mask of the positions that count, the
    number the loss is divided by, the weight of the batch and the
    sequence length reported. *)
Definition forward_normalizer (self : LauraGenModel Mod Float)
    (nll : list (list (list F))) (target_lengths : list nat)
    (text_lengths codec_lengths : list nat)
  : result (list (list bool) * nat * nat * nat) :=
  _ ← tensor_max target_lengths;
  mask ← make_pad_mask target_lengths;
  let output_mask := fmap (M := list) (fmap (M := list) negb) mask in
  let total :=
    length (filter (λ m, m = true) (mjoin output_mask))
    * self_predict_nq self in
  let batch_size := length nll * self_predict_nq self in
  let denom :=
    if self_length_normalized_loss self then total else batch_size in
  tm ← tensor_max text_lengths;
  cm ← tensor_max codec_lengths;
  Ok (output_mask, denom, batch_size, tm + cm).
End LauraGenModel_forward.

(** ** [LauraGenModel.cal_codec_emb] and [LauraGenModel._target_mask] *)

Section cal_codec_emb.
(** The probabilities [(B, T, N, V)], a matrix and a batch of embeddings,
    with [codec_prob[:, :, i]], [codebook.embed[i:i+1].detach()],
    [torch.matmul] and the sum of two tensors. *)
Context {Mod Float Prob Mat Emb : Type}.
Variable select_quantizer : Prob → nat → result Mat.
Variable codebook_embed : Mod → nat → result Mat.
Variable matmul : Mat → Mat → result Emb.
Variable emb_add : Emb → Emb → result Emb.

(** The loop of lines 252-257, from turn [i] on for [n] turns. *)
Fixpoint first_nq_emb_loop (self : LauraGenModel Mod Float)
    (codec_prob : Prob) (i n : nat) (first_nq_emb : option Emb)
  : result (option Emb) :=
  match n with
  | 0 => Ok first_nq_emb
  | S n' =>
      prob_i ← select_quantizer codec_prob i;
      quantizer_codebook ← read_attribute (self_quantizer_codebook self);
      embed_i ← codebook_embed quantizer_codebook i;
      one_emb ← matmul prob_i embed_i;
      first_nq_emb ← match first_nq_emb with
                      | None => Ok one_emb
                      | Some first_nq_emb => emb_add first_nq_emb one_emb
                      end;
      first_nq_emb_loop self codec_prob (S i) n' (Some first_nq_emb)
  end.

(** Lines 251-257 of [cal_codec_emb]: the embedding of the first
    [predict_nq] quantizers, which the rest of the function builds on. *)
Definition cal_codec_emb_first_nq_emb (self : LauraGenModel Mod Float)
    (codec_prob : Prob) : result (option Emb) :=
  first_nq_emb_loop self codec_prob 0 (self_predict_nq self) None.
End cal_codec_emb.

Section target_mask.
(** [subsequent_mask(size)] of [funcodec.modules.nets_utils]. *)
Variable subsequent_mask : nat → list (list bool).

(** [_target_mask]: [ys_mask], of shape [(B, L)], is combined with the
    [(L, L)] mask [m] into a mask [(B, L, L)]. *)
Definition _target_mask (lengths : list nat)
  : result (list (list (list bool))) :=
  pad_mask ← make_pad_mask lengths;
  let ys_mask := fmap (M := list) (fmap (M := list) negb) pad_mask in
  let m := subsequent_mask (size1 ys_mask) in
  Ok ((λ ys_row, (λ m_row, zip_with andb ys_row m_row) <$> m) <$> ys_mask).
End target_mask.

(** ** [inference/infer.py] *)

(** A raw input or an entry of a batch: a string or an array. *)
Inductive item (A : Type) : Type :=
| Str (s : string)
| Array (a : A).
Arguments Str {A} s.
Arguments Array {A} a.

(** What [_forward] does to the file system, [os.makedirs] and
    [save_audio]: the calls are recorded in their order. *)
Inductive effect (Wave : Type) : Type :=
| MakeDirs (path : string)
| SaveAudio (wave : Wave) (save_path : string).
Arguments MakeDirs {Wave} path.
Arguments SaveAudio {Wave} wave save_path.

(** [s.replace(old, "")] for an [old] that is not empty; [skip] counts the
    characters of an occurrence still to be dropped. *)
Fixpoint str_remove_go (old : string) (skip : nat) (s : string) : string :=
  match s with
  | EmptyString => EmptyString
  | String c s' =>
      match skip with
      | S skip' => str_remove_go old skip' s'
      | 0 =>
          if startswith s old
          then str_remove_go old (String.length old - 1) s'
          else String c (str_remove_go old 0 s')
      end
  end.

Definition str_remove (old s : string) : string := str_remove_go old 0 s.

(** [d[k]] on a dictionary *)
Definition getitem {V} (d : gmap string V) (k : string) : outcome V :=
  match d !! k with
  | Some v => Returns v
  | None => Raises KeyError
  end.

Section inference.
(** An array, a waveform and the description of a data set. *)
Context {A Wave Data : Type}.
(** The call of [my_model] on the model inputs, of whose two results the
    first, a dictionary from suffixes to batches of waveforms, is used. *)
Variable my_model : list (item A) → outcome (list (string * list Wave)).
(** [Text2AudioGenTask.build_streaming_iterator], which yields pairs of
    keys and data. *)
Variable build_streaming_iterator :
  option Data → outcome (list (list string * gmap string (list (item A)))).
(** [a.squeeze()[None, :]] and [os.path.join]. *)
Variable expand_audio : A → outcome A.
Variable path_join : string → string → string.

(** Lines 64-78: the one-element loader made of the raw inputs. *)
Definition raw_loader (raw_inputs : list (item A))
  : outcome (list (list string * gmap string (list (item A)))) :=
  text ← lift (index raw_inputs 0);
  let data_dict : gmap string (list (item A)) := {[ "text" := [text] ]} in
  data_dict ←
    (if decide (length raw_inputs = 3) then
       prompt_text ← lift (index raw_inputs 1);
       let data_dict := <["prompt_text" := [prompt_text]]> data_dict in
       prompt_audio ← lift (index raw_inputs 2);
       match prompt_audio with
       | Str _ => Raises NameError
       | Array a =>
           a ← expand_audio a;
           Returns (<["prompt_audio" := [Array a]]> data_dict)
       end
     else Returns data_dict);
  Returns [(["utt1"], data_dict)].

(** Lines 102-105 *)
Definition model_inputs (data : gmap string (list (item A)))
  : outcome (list (item A)) :=
  text ← getitem data "text";
  text0 ← lift (index text 0);
  foldl (λ acc input_key,
           model_inputs ← acc;
           match data !! input_key with
           | Some batch =>
               first ← lift (index batch 0);
               Returns (model_inputs ++ [first])
           | None => Returns model_inputs
           end)
    (Returns [text0]) ["prompt_text"; "prompt_audio"].

(** Lines 110-118: one file for every suffix of [ret_val]. *)
Fixpoint save_all (output_path key : string)
    (ret_val : list (string * list Wave)) (log : list (effect Wave))
  : outcome unit * list (effect Wave) :=
  match ret_val with
  | [] => (Returns (), log)
  | (suffix, wave) :: rest =>
      let file_name := str_remove ".wav" key +:+ "_" +:+ suffix +:+ ".wav" in
      let save_path := path_join output_path file_name in
      match index wave 0 with
      | Ok wave0 =>
          save_all output_path key rest (log ++ [SaveAudio wave0 save_path])
      | Raise e => (Raises (Builtin e), log)
      end
  end.

(** The loop of lines 99-120. *)
Fixpoint generate_all (output_path : option string)
    (loader : list (list string * gmap string (list (item A))))
    (result_list : list (string * list (string * list Wave)))
    (log : list (effect Wave))
  : outcome (list (string * list (string * list Wave)))
    * list (effect Wave) :=
  match loader with
  | [] => (Returns result_list, log)
  | (keys, data) :: rest =>
      match (key ← lift (index keys 0);
             model_inputs ← model_inputs data;
             ret_val ← my_model model_inputs;
             Returns (key, ret_val)) with
      | Raises e => (Raises e, log)
      | Returns (key, ret_val) =>
          match output_path with
          | Some output_path =>
              match save_all output_path key ret_val log with
              | (Returns _, log) => generate_all (Some output_path) rest
                                      result_list log
              | (Raises e, log) => (Raises e, log)
              end
          | None =>
              generate_all None rest (result_list ++ [(key, ret_val)]) log
          end
      end
  end.

(** [_forward], with the [output_dir] of the enclosing [inference_func]:
    what it returns and what it has done to the file system. *)
Definition _forward (output_dir : option string)
    (data_path_and_name_and_type : option Data)
    (raw_inputs : option (list (item A))) (output_dir_v2 : option string)
  : outcome (list (string * list (string * list Wave)))
    * list (effect Wave) :=
  let loader :=
    match data_path_and_name_and_type, raw_inputs with
    | None, Some raw_inputs => raw_loader raw_inputs
    | _, _ => build_streaming_iterator data_path_and_name_and_type
    end in
  match loader with
  | Raises e => (Raises e, [])
  | Returns loader =>
      let output_path :=
        match output_dir_v2 with
        | Some output_dir_v2 => Some output_dir_v2
        | None => output_dir
        end in
      let log :=
        match output_path with
        | Some output_path => [MakeDirs output_path]
        | None => []
        end in
      generate_all output_path loader [] log
  end.
End inference.

(** ** [WavLMKmeansConformer]: reconstruction and inference *)

(** A name that no statement of the module binds: it is there only if
    something else has put it into the module's namespace, and reading it
    raises [NameError] otherwise. *)
Definition read_global {A} (name : option A) : outcome A :=
  match name with
  | Some a => Returns a
  | None => Raises NameError
  end.

Section WavLMKmeansConformer_inference.
(** As for [forward], with an audio tensor [(B, T)] and a piece of audio
    [(T,)]. *)
Context {E Tok Loss Ratio Wave Piece : Type}.
Variable mask_emb : E.
Variable kmeans : list (list E) → list (list Tok).
Variable kmeans_embedding : list (list Tok) → list (list E).
Variable conformer : list (list E) → list nat → list (list E) * list nat.
Variable mse_loss : list (list E) → list (list E) → Loss.
Variable ssim : list (list E) → list (list E) → Loss.
Variable loss_add : Loss → Loss → Loss.
Variable ratio_is_zero : Ratio → bool.
Variable int_mul : nat → Ratio → Z.
(** [self.hifi], the vocoder. *)
Variable hifi : list (list E) → Wave.
(** [x.squeeze(0)], [audio.unsqueeze(0)], [torch.cat(res, dim=1)],
    [audio[:, :n]] and [x.size(1)]. *)
Variable squeeze_0 : Wave → Piece.
Variable unsqueeze_0 : Piece → Wave.
Variable cat_1 : list Wave → result Wave.
Variable slice_1 : Wave → nat → Wave.
Variable wave_size_1 : Wave → nat.

(** [recon] *)
Definition recon (embedding : list (list E)) : Wave := hifi embedding.

(** [inference] *)
Definition inference (x : list (list Tok)) : Wave :=
  let embedding := kmeans_embedding x in
  let res :=
    (conformer embedding (replicate (length embedding) (size1 embedding))).1 in
  hifi res.

(** [inference_audio].  [split_audio] is what the module's namespace holds
    under that name, if anything; with [mask_ratio=None], [forward] draws no
    permutation. *)
Definition inference_audio
    (split_audio : option (Piece → Z → list Piece)) (x : Wave)
    (wavlm : Wave → list (list E)) : outcome Wave :=
  split_audio ← read_global split_audio;
  let audio_list := split_audio (squeeze_0 x) 48080%Z in
  let res :=
    (λ audio,
       let audio := unsqueeze_0 audio in
       let emb := wavlm audio in
       let emb :=
         (forward mask_emb kmeans kmeans_embedding conformer mse_loss ssim
            loss_add ratio_is_zero int_mul emb None []).1.1.1.1 in
       let audio_hat := recon emb in
       audio_hat) <$> audio_list in
  audio ← lift (cat_1 res);
  let audio := slice_1 audio (wave_size_1 x) in
  Returns audio.
End WavLMKmeansConformer_inference.

(** ** [update_args] *)

(** A key of a mapping read from YAML: a string or something else (a
    number, a boolean, [None]). *)
Inductive yaml_key : Set :=
| KeyStr (s : string)
| KeyOther.

(** What [yaml.safe_load] returns: a mapping, given by its items in their
    order, or something else (a list, a scalar, [None] for an empty
    file). *)
Inductive yaml_document (V : Type) : Type :=
| YamlMapping (items : list (yaml_key * V))
| YamlOther.
Arguments YamlMapping {V} items.
Arguments YamlOther {V}.

Section update_args.
Context {V : Type}.
(** [open(config_file_path, "r")] followed by [yaml.safe_load]. *)
Variable safe_load : string → outcome (yaml_document V).

(** The loop of lines 71-72 on the attributes of [args]: what it raises,
    if anything, and the attributes as it leaves them. *)
Fixpoint setattr_items (args : gmap string V) (items : list (yaml_key * V))
  : outcome unit * gmap string V :=
  match items with
  | [] => (Returns (), args)
  | (KeyStr k, v) :: items => setattr_items (<[k := v]> args) items
  | (KeyOther, _) :: _ => (Raises (Builtin TypeError), args)
  end.

(** [update_args]: what is returned, which is the object [args] itself,
    and the attributes of [args] as the call leaves them. *)
Definition update_args (args : gmap string V) (config_file_path : string)
  : outcome (gmap string V) * gmap string V :=
  match safe_load config_file_path with
  | Raises e => (Raises e, args)
  | Returns (YamlMapping items) =>
      match setattr_items args items with
      | (Returns _, args) => (Returns args, args)
      | (Raises e, args) => (Raises e, args)
      end
  | Returns YamlOther => (Raises (Builtin AttributeError), args)
  end.
End update_args.

(** ** Layouts the code is compared with *)

(** Example [i] before padding. *)
Definition joined {A} (t1 t2 : list (list A)) (i : nat) (ls : nat * nat)
  : list A :=
  take ls.1 (default [] (t1 !! i)) ++ take ls.2 (default [] (t2 !! i)).

Section sequences.
Context {E : Type} (lm_embedding kmeans_emb : Z → E).
Context (codebook_size : Z) (predict_nq : nat).

(** The dense vectors of one example of [codec], last axis squeezed. *)
Definition dense_row (crow : list (list Z)) : list E :=
  (λ g, kmeans_emb (default 0%Z (head g))) <$> crow.

(** Example [i] of the inputs before padding. *)
Definition llm_sequence (text : list (list E))
    (codec : option (list (list E) * list nat)) (i text_len : nat) : list E :=
  [lm_embedding sos_eos] ++ take text_len (default [] (text !! i))
  ++ [lm_embedding task_id]
  ++ match codec with
     | Some (e, cl) => take (default 0 (cl !! i)) (default [] (e !! i))
     | None => []
     end.

(** Row [i] of the targets once the loop has visited it: the first
    [codec_len] groups of [codec[i]], the end id, zeros. *)
Definition target_row (crow : list (list Z)) (codec_len tt : nat)
  : list (list Z) :=
  <[codec_len := replicate predict_nq (eos_id codebook_size)]>
    (((λ g, replicate predict_nq (default 0%Z (head g))) <$> take codec_len crow)
     ++ replicate (tt - codec_len) (replicate predict_nq 0%Z)).

End sequences.

Section angles.
Context {F D : Type} (fexp : F → F) (fmul : F → F → F).
Context (fscale : F → D → F) (of_nat : nat → F).
Context (log_10000 : D) (ddiv : D → nat → D) (dneg : D → D).

(** [pos * exp(2i * -(log(10000) / d_model))], the argument of the sine and
    cosine in row [pos], columns [2i] and [2i + 1]. *)
Definition pe_angle (d_model pos i : nat) : F :=
  fmul (of_nat pos)
    (fexp (fscale (of_nat (2 * i)) (dneg (ddiv log_10000 d_model)))).

End angles.

(** The logits of example [i] before padding. *)
Definition kept_logits {L} (y : list (list (list L))) (i : nat) (ls : nat * nat)
  : list (list L) :=
  slice (ls.1 + 1) (ls.1 + 2 + ls.2) (default [] (y !! i)).

(** The language model returns one output per input position, split in
    [predict_nq] groups of logits. *)
Definition lm_keeps_shape {E L} (predict_nq : nat)
    (codec_lm : list (list E) → list nat → list nat → list (list (list L)))
  : Prop :=
  ∀ sequence x_lengths text_lengths,
    length (codec_lm sequence x_lengths text_lengths) = length sequence
    ∧ Forall (λ yrow, length yrow = size1 sequence
                      ∧ Forall (λ g, length g = predict_nq) yrow)
        (codec_lm sequence x_lengths text_lengths).

(** What the code relies on when it compares floats none of which is a
    NaN: [<] is asymmetric, [>=] is transitive, and a number that is not
    below a positive one is positive. *)
Definition float_order {F} (fltb : F → F → bool) (fpos : F → bool) : Prop :=
  (∀ x y, fltb x y = true → fltb y x = false)
  ∧ (∀ x y z, fltb x y = false → fltb y z = false → fltb x z = false)
  ∧ (∀ x y, fpos x = true → fltb y x = false → fpos y = true).

(** Scores one of which is above all the others. *)
Definition single_best {F} (fltb : F → F → bool) (row : list F) : Prop :=
  ∃ i v, row !! i = Some v
         ∧ ∀ j w, row !! j = Some w → j ≠ i → fltb w v = true.

(** The key under which [strip_ddp_state_dict] stores the value of [k]. *)
Definition ddp_key (k : string) : string :=
  if startswith k "module." then str_from 7 k else k.

(** A string that holds the character [c]. *)
Fixpoint str_has (c : ascii) (s : string) : bool :=
  match s with
  | EmptyString => false
  | String b s' => bool_decide (b = c) || str_has c s'
  end.

(** The entry [x[b, t, e]] of a tensor of shape [(B, T, E)]. *)
Definition entry3 {F} (x : list (list (list F))) (b t e : nat) : option F :=
  row ← (example ← x !! b; example !! t); row !! e.

(** The nested lists of [x] have the sizes [x] declares. *)
Definition tensor3_wf {F} (x : tensor3 F) : Prop :=
  Forall (λ example,
            length example = size_T x
            ∧ Forall (λ row, length row = size_E x) example)
    (entries x).

(** The items of a mapping all of whose keys are strings. *)
Definition str_items {V} (items : list (string * V)) : list (yaml_key * V) :=
  (λ kv, (KeyStr kv.1, kv.2)) <$> items.

(** ** Concrete instances

    The parameters of the model are given small concrete values, on which
    the definitions above evaluate: embeddings of one integer, scores and
    probabilities in thousandths, a four-entry vocabulary whose last id is
    the end id. *)

Module Example.

(** [lm_embedding]: the rows of [sos_eos] and [task_id]. *)
Definition lm_embedding (id : Z) : Z := (100 + id)%Z.

(** [kmeans.emb] *)
Definition kmeans_emb (token : Z) : Z := (10 * token)%Z.

Definition codebook_size : Z := 3.

Definition text : list (list Z) := [[7; 8; 9]; [5; 6; 0]]%Z.
Definition text_lengths : list nat := [3; 2].
Definition codec : codec_tensor :=
  CodecTensor 1 [[[1]; [2]]; [[2]; [0]]]%Z.
Definition codec_lengths : list nat := [2; 1].

Definition build_llm_io :=
  build_llm_io (E := Z) 0%Z lm_embedding kmeans_emb codebook_size 1.

(** A language model that answers, at every position, with the embedding it
    was given there. *)
Definition codec_lm (sequence : list (list Z)) (x_lengths text_lengths : list nat)
  : list (list (list Z)) :=
  (λ row, resize (size1 sequence) [0%Z] ((λ e, [e]) <$> row)) <$> sequence.

Definition nll :=
  nll (E := Z) (L := Z) (F := Z) 0%Z lm_embedding kmeans_emb codebook_size 1
    0%Z 0%Z codec_lm (λ logit target, (1 + logit + target)%Z).

(** The generator always draws the same number. *)
Definition rng (n : nat) : nat := 1.

(** Of equal scores, the one of lower index comes first. *)
Definition topk_ties (t : list Z) (k : Z) (i : nat) : nat := i.

Definition sampling_ids :=
  sampling_ids (F := Z) Z.ltb Z.add 0%Z (Z.ltb 0) id rng topk_ties.

(** Scores that favour token 1 while the input is short, and the end id 3
    once it has eight positions. *)
Definition codec_lm_score (seq_input prompt : list Z) : list (list Z) :=
  if length seq_input <? 8 then [[0; 5; 0; 0]%Z] else [[0; 0; 0; 9]%Z].

Definition decode_codec :=
  decode_codec (E := Z) (F := Z) 0%Z lm_embedding kmeans_emb codebook_size 1
    Z.ltb Z.add 0%Z (Z.ltb 0) id rng topk_ties codec_lm_score.

(** A ratio as a fraction [(numerator, denominator)]; [int(n * r)] rounds
    towards zero. *)
Definition ratio_is_zero (r : Z * Z) : bool := (r.1 =? 0)%Z.
Definition int_mul (n : nat) (r : Z * Z) : Z := (Z.of_nat n * r.1 ÷ r.2)%Z.

Definition mask_index := mask_index (E := Z) ratio_is_zero int_mul.
Definition masked_emb := masked_emb (E := Z) (-1)%Z ratio_is_zero int_mul.
Definition forward :=
  forward (E := Z) (Tok := Z) (Loss := unit) (-1)%Z id id (λ emb lens, (emb, lens))
    (λ _ _, ()) (λ _ _, ()) (λ _ _, ()) ratio_is_zero int_mul.

(** Floating-point expressions left unevaluated. *)
Inductive dexpr : Set :=
| DLog10000
| DDiv (x : dexpr) (n : nat)
| DNeg (x : dexpr).

Inductive fexpr : Set :=
| FZero
| FOfNat (n : nat)
| FExp (x : fexpr)
| FSin (x : fexpr)
| FCos (x : fexpr)
| FMul (x y : fexpr)
| FScale (x : fexpr) (d : dexpr).

Definition positionalencoding1d :=
  positionalencoding1d FZero FExp FSin FCos FMul FScale FOfNat DLog10000 DDiv
    DNeg.

End Example.

(** A float that is a number or minus infinity. *)
Inductive extended : Set :=
| Finite (z : Z)
| NegInf.

Definition extended_eqb (x y : extended) : bool :=
  match x, y with
  | Finite a, Finite b => (a =? b)%Z
  | NegInf, NegInf => true
  | _, _ => false
  end.

Module Example2.
(** A module system in which every module and every attribute exists; a
    call records the callable and what it was given. *)
Definition import_module (name : string) : result string := Ok name.
Definition getattr (m : string) (attribute : string)
  : result (string * string) := Ok (m, attribute).
Definition call (f : string * string) (args : list Z)
    (kwargs : list (string * Z))
  : result (string * string * list Z * list (string * Z)) :=
  Ok (f, args, kwargs).

Definition _init := _init import_module getattr call.
Definition init := init import_module getattr call.

Definition causal_attn_mask :=
  causal_attn_mask (Finite 0) (Finite 1) NegInf extended_eqb.

(** Positional encodings over the integers, with the successor for the
    exponential, the angle itself for the sine and its opposite for the
    cosine. *)
Definition SinuPosEncoding_forward :=
  SinuPosEncoding_forward (F := Z) (D := Z) 0%Z Z.succ id Z.opp Z.mul
    (λ x d, (x * d)%Z) Z.of_nat 8%Z (λ d n, (d / Z.of_nat n)%Z) Z.opp Z.add.

(** Library modules that are built without fail, named by their class (and
    the size of the loss). *)
Definition TransformerEmbedLM (kwargs : gmap string (config_value unit))
  : outcome string := Returns "TransformerEmbedLM".
Definition LabelSmoothingLoss (size padding_idx : Z) (smoothing : Z)
    (normalize_length : bool) : outcome string :=
  Returns ("LabelSmoothingLoss " +:+ pretty size).

Definition LauraGenModel_init :=
  LauraGenModel_init (Mod := string) (Float := Z) (V := unit)
    (λ _, Returns "PositionalEncoding")
    (λ _, Returns "ScaledPositionalEncoding")
    "Sequential" (λ _, Returns "KMeansQuantizer")
    (λ _ _, Returns "Embedding") TransformerEmbedLM LabelSmoothingLoss.

Definition codec_conf : gmap string Z :=
  {[ "codebook_size" := 3%Z; "codebook_dim" := 2%Z ]}.
Definition codec_lm_conf : gmap string (config_value unit) :=
  {[ "name" := ConfigStr "transformer"; "att_unit" := ConfigInt 4 ]}.

Definition encode :=
  encode (Mod := string) (Float := Z) (X := list (list (list Z)))
    (λ text, Z.of_nat (size1 (mjoin text)))
    (λ _ text lens, Ok (text, lens)) (λ _ text, Ok text).
End Example2.

Module Example3.
(** The model that [__init__] builds from the configurations above, with
    two quantizers. *)
Definition self : LauraGenModel string Z :=
  {| self_ignore_id := -1;
     self_codec_sampling_ratio := 0%Z;
     self_codebook_size := 3;
     self_codebook_dim := 2;
     self_predict_nq := 2;
     self_pos_emb_func := "PositionalEncoding";
     self_pos_emb_type := "split";
     self_kmeans := "KMeansQuantizer";
     self_text_encoder := None;
     self_sos_eos := 0;
     self_task_id := 1;
     self_lm_embedding := "Embedding";
     self_lm_out_voc_size := 8;
     self_codec_lm := "TransformerEmbedLM";
     self_criterion_ce := "LabelSmoothingLoss 4";
     self_length_normalized_loss := true;
     self_text_enc_out_layer := None;
     self_quantizer_codebook := None;
     self_codec_encoder := None;
     self_codec_encoder_out_layer := None |}.

(** Frames of one integer, which is also their token. *)
Definition kmeans (frames : list (list Z)) : list (list Z) :=
  fmap (M := list) (fmap (M := list) id) frames.

Definition forward_nll_inputs :=
  forward_nll_inputs (Mod := string) (Float := Z) (E := Z) 0%Z kmeans
    (λ _, 2%Z) (λ _ text lens, Ok (text, lens)) (λ _ text, Ok text).

Definition nll_forward :=
  nll_forward (E := Z) (L := Z) 0%Z Example.lm_embedding Example.kmeans_emb
    3 2 Example.codec_lm.

Definition cal_codec_emb_first_nq_emb :=
  cal_codec_emb_first_nq_emb (Mod := string) (Float := Z) (Prob := list Z)
    (Mat := Z) (Emb := Z) index (λ _ i, Ok (Z.of_nat i))
    (λ p c, Ok (p * c)%Z) (λ a b, Ok (a + b)%Z).

(** The lower-triangular mask of [size] rows. *)
Definition subsequent_mask (size : nat) : list (list bool) :=
  (λ i, (λ j, bool_decide (j ≤ i)) <$> seq 0 size) <$> seq 0 size.

(** A model that returns one waveform under the suffix [gen], which names
    its inputs. *)
Definition my_model (inputs : list (item Z))
  : outcome (list (string * list (list (item Z)))) :=
  Returns [("gen", [inputs])].

Definition _forward :=
  _forward (A := Z) (Data := unit) my_model (λ _, Returns [])
    (λ a, Returns a) (λ dir file, dir +:+ "/" +:+ file).
End Example3.

Module Example4.
(** A vocoder that hands on the first entry of every embedding, which is
    an integer here; pieces of audio of a fixed length. *)
Definition inference :=
  inference (E := Z) (Tok := Z) (Wave := list (list Z)) id
    (λ emb lens, (emb, lens)) id.

Definition recon := recon (E := Z) (Wave := list (list Z)) id.

Fixpoint split_audio (fuel : nat) (audio : list Z) (length : nat)
  : list (list Z) :=
  match fuel, audio with
  | 0, _ | _, [] => []
  | S fuel, _ => take length audio :: split_audio fuel (drop length audio) length
  end.

Definition cat_1 (res : list (list (list Z))) : result (list (list Z)) :=
  match res with
  | [] => Raise RuntimeError
  | _ => Ok [mjoin (mjoin <$> res)]
  end.

Definition inference_audio split_audio :=
  inference_audio (E := Z) (Tok := Z) (Loss := unit) (Ratio := Z * Z)
    (-1)%Z id id (λ emb lens, (emb, lens)) (λ _ _, ()) (λ _ _, ())
    (λ _ _, ()) Example.ratio_is_zero Example.int_mul id mjoin (λ piece, [piece])
    cat_1 (λ audio n, take n <$> audio) size1 split_audio.

(** A configuration file that holds two items. *)
Definition safe_load (path : string) : outcome (yaml_document Z) :=
  if bool_decide (path = "config.yaml")
  then Returns (YamlMapping [(KeyStr "lr", 3%Z); (KeyStr "epochs", 10%Z)])
  else if bool_decide (path = "list.yaml") then Returns YamlOther
  else Raises (Builtin RuntimeError).

Definition update_args := update_args safe_load.
End Example4.

(** * Properties *)

(** ** Generic facts on the loop and padding helpers *)

Lemma for_enumerate_ok {A B} (f : nat → A → result B) (g : nat → A → B) l :
  ∀ i, (∀ k x, l !! k = Some x → f (i + k) x = Ok (g (i + k) x)) →
       for_enumerate f i l = Ok (imap (λ k, g (i + k)) l).
Proof.
  induction l as [|x l IH]; intros i Hf; [done|].
  cbn [for_enumerate]. rewrite <-(Nat.add_0_r i) at 1.
  rewrite (Hf 0 x eq_refl). cbn.
  rewrite (IH (S i)).
  - cbn. rewrite Nat.add_0_r. do 2 f_equal.
    apply imap_ext. intros k y _. cbn. f_equal. lia.
  - intros k y Hk. replace (S i + k) with (i + S k) by lia. by apply Hf.
Qed.

Lemma for_enumerate_ok_0 {A B} (f : nat → A → result B) (g : nat → A → B) l :
  (∀ k x, l !! k = Some x → f k x = Ok (g k x)) →
  for_enumerate f 0 l = Ok (imap g l).
Proof. intros H. by rewrite (for_enumerate_ok f g). Qed.

Lemma pad_list_ok {A} (xs : list (list A)) (pad : A) :
  xs ≠ [] →
  pad_list xs pad = Ok (resize (max_list (length <$> xs)) pad <$> xs).
Proof. by destruct xs. Qed.

Lemma tensor_add_same_length a b :
  length a = length b → tensor_add a b = Ok (zip_with Nat.add a b).
Proof. intros H. unfold tensor_add. by rewrite decide_True. Qed.

Lemma index_ok {A} (t : list A) i x : t !! i = Some x → index t i = Ok x.
Proof. intros H. unfold index. by rewrite H. Qed.

Lemma broadcast_to_same {A} n (src : list A) :
  length src = n → broadcast_to n src = Ok src.
Proof. intros H. unfold broadcast_to. by rewrite decide_True. Qed.

(** ** [_pad_two] *)

Section pad_two_facts.
Context {A : Type} (zero : A).

Lemma pad_two_inputs_list (t1 : list (list A)) t1_lens t2 t2_lens :
  length t1_lens ≤ length t1 → length t1_lens ≤ length t2 →
  for_enumerate (λ i '(t1_l, t2_l),
      r1 ← index t1 i;
      r2 ← index t2 i;
      Ok (take t1_l r1 ++ take t2_l r2)) 0 (zip t1_lens t2_lens)
  = Ok (imap (joined t1 t2) (zip t1_lens t2_lens)).
Proof.
  intros H1 H2.
  rewrite (for_enumerate_ok _ (joined t1 t2)); [done|].
  intros k [l1 l2] Hk. cbn.
  apply lookup_lt_Some in Hk. rewrite length_zip in Hk.
  destruct (lookup_lt_is_Some_2 t1 k) as [r1 Hr1]; [lia|].
  destruct (lookup_lt_is_Some_2 t2 k) as [r2 Hr2]; [lia|].
  unfold joined. rewrite (index_ok _ _ _ Hr1), (index_ok _ _ _ Hr2).
  cbn. by rewrite Hr1, Hr2.
Qed.

Lemma joined_lengths (t1 : list (list A)) t1_lens t2 t2_lens :
  Forall2 (λ l r, l ≤ length r) t1_lens t1 →
  Forall2 (λ l r, l ≤ length r) t2_lens t2 →
  length <$> imap (joined t1 t2) (zip t1_lens t2_lens)
  = zip_with Nat.add t1_lens t2_lens.
Proof.
  intros V1 V2. apply list_eq. intros i.
  rewrite list_lookup_fmap, list_lookup_imap, !lookup_zip_with.
  destruct (t1_lens !! i) as [l1|] eqn:E1; [|done]. cbn.
  destruct (t2_lens !! i) as [l2|] eqn:E2; [|done]. cbn.
  destruct (Forall2_lookup_l _ _ _ _ _ V1 E1) as (r1 & Hr1 & Hl1).
  destruct (Forall2_lookup_l _ _ _ _ _ V2 E2) as (r2 & Hr2 & Hl2).
  cbn beta in Hl1, Hl2.
  unfold joined. rewrite Hr1, Hr2. cbn.
  rewrite length_app, !length_take. f_equal. lia.
Qed.
End pad_two_facts.

(** C7. For padded batches [t1], [t2] with valid lengths, [_pad_two] returns
    a batch whose example [i] is [t1[i, :t1_lens[i]]] followed by
    [t2[i, :t2_lens[i]]] and by zeros up to the largest combined length of the
    batch, together with the lengths [t1_lens + t2_lens]. *)
Theorem pad_two_concat_padded {A} (zero : A) t1 t1_lens t2 t2_lens :
  t1_lens ≠ [] →
  length t2_lens = length t1_lens →
  Forall2 (λ l r, l ≤ length r) t1_lens t1 →
  Forall2 (λ l r, l ≤ length r) t2_lens t2 →
  ∃ res,
    _pad_two zero t1 t1_lens t2 t2_lens
    = Ok (res, zip_with Nat.add t1_lens t2_lens)
    ∧ length res = length t1_lens
    ∧ ∀ i r1 r2 l1 l2,
        t1 !! i = Some r1 → t2 !! i = Some r2 →
        t1_lens !! i = Some l1 → t2_lens !! i = Some l2 →
        res !! i
        = Some (take l1 r1 ++ take l2 r2
                ++ replicate
                     (max_list (zip_with Nat.add t1_lens t2_lens) - (l1 + l2))
                     zero).
Proof.
  intros Hne Hlen V1 V2.
  pose proof (Forall2_length V1) as L1.
  pose proof (Forall2_length V2) as L2.
  unfold _pad_two.
  rewrite pad_two_inputs_list by lia. cbn.
  rewrite pad_list_ok.
  2:{ intros Hnil. apply (f_equal length) in Hnil.
      rewrite length_imap, length_zip, Hlen, Nat.min_id in Hnil.
      by destruct t1_lens. }
  cbn. rewrite tensor_add_same_length by lia. cbn.
  rewrite joined_lengths by done.
  eexists. split; [reflexivity|]. split.
  - rewrite length_fmap, length_imap, length_zip. lia.
  - intros i r1 r2 l1 l2 Hr1 Hr2 Hl1 Hl2.
    rewrite list_lookup_fmap, list_lookup_imap.
    rewrite lookup_zip_with, Hl1. cbn. rewrite Hl2. cbn.
    unfold joined. rewrite Hr1, Hr2. cbn.
    pose proof (Forall2_lookup_lr _ _ _ _ _ _ V1 Hl1 Hr1) as B1.
    pose proof (Forall2_lookup_lr _ _ _ _ _ _ V2 Hl2 Hr2) as B2.
    cbn beta in B1, B2.
    assert (l1 + l2 ≤ max_list (zip_with Nat.add t1_lens t2_lens)) as Hmax.
    { apply max_list_elem_of_le, list_elem_of_lookup. exists i.
      rewrite lookup_zip_with, Hl1. cbn. by rewrite Hl2. }
    rewrite resize_ge by (rewrite length_app, !length_take; lia).
    rewrite length_app, !length_take, <-(assoc_L (++)).
    do 4 f_equal. lia.
Qed.

(** The example of the docstring of [_pad_two]: lengths [3, 2, 1] and
    [4, 2, 1] give the rows below and the lengths [7, 4, 2]. *)
Lemma pad_two_docstring_example :
  let t1 := [[1; 2; 3; 0; 0]; [-1; -2; 0; 0; 0]; [100; 0; 0; 0; 0]]%Z in
  let t2 := [[10; 20; 30; 40; 0]; [-10; -20; 0; 0; 0]; [1000; 0; 0; 0; 0]]%Z in
  _pad_two 0%Z t1 [3; 2; 1] t2 [4; 2; 1]
  = Ok ([[1; 2; 3; 10; 20; 30; 40];
         [-1; -2; -10; -20; 0; 0; 0];
         [100; 1000; 0; 0; 0; 0; 0]]%Z, [7; 4; 2])
  ∧ ∃ res,
      _pad_two 0%Z t1 [3; 2; 1] t2 [4; 2; 1] = Ok (res, [7; 4; 2])
      ∧ length res = 3
      ∧ ∀ i r1 r2 l1 l2,
          t1 !! i = Some r1 → t2 !! i = Some r2 →
          [3; 2; 1] !! i = Some l1 → [4; 2; 1] !! i = Some l2 →
          res !! i
          = Some (take l1 r1 ++ take l2 r2 ++ replicate (7 - (l1 + l2)) 0%Z).
Proof.
  intros t1 t2. split; [reflexivity|].
  apply (pad_two_concat_padded 0%Z t1 [3; 2; 1] t2 [4; 2; 1]).
  - done.
  - reflexivity.
  - repeat constructor; simpl; lia.
  - repeat constructor; simpl; lia.
Defined.

(** ** [build_llm_io]: the inputs *)

Section build_llm_io_facts.
Context {E : Type} (zero_emb : E) (lm_embedding kmeans_emb : Z → E).
Context (codebook_size : Z) (predict_nq : nat).

Local Abbreviation build_llm_inputs' :=
  (build_llm_inputs zero_emb lm_embedding kmeans_emb).
Local Abbreviation build_llm_io' :=
  (build_llm_io zero_emb lm_embedding kmeans_emb codebook_size predict_nq).
Local Abbreviation calc_dense_vector' := (calc_dense_vector kmeans_emb).

Local Abbreviation dense_row' := (dense_row kmeans_emb).
Local Abbreviation llm_sequence' := (llm_sequence lm_embedding).

Lemma llm_inputs_list text text_lengths codec_emb :
  length text_lengths ≤ length text →
  match codec_emb with
  | Some (e, cl) =>
      length text_lengths ≤ length e ∧ length text_lengths ≤ length cl
  | None => True
  end →
  for_enumerate (llm_one_input lm_embedding text codec_emb) 0 text_lengths
  = Ok (imap (llm_sequence' text codec_emb) text_lengths).
Proof.
  intros Ht Hc.
  rewrite (for_enumerate_ok _ (llm_sequence' text codec_emb)); [done|].
  intros k tl Hk. cbn. apply lookup_lt_Some in Hk.
  destruct (lookup_lt_is_Some_2 text k) as [row Hrow]; [lia|].
  unfold llm_one_input.
  rewrite (index_ok _ _ _ Hrow). cbn. unfold llm_sequence'. rewrite Hrow.
  destruct codec_emb as [[e cl]|]; cbn.
  - destruct Hc as [He Hcl].
    destruct (lookup_lt_is_Some_2 e k) as [crow Hcrow]; [lia|].
    destruct (lookup_lt_is_Some_2 cl k) as [l Hl]; [lia|].
    rewrite (index_ok _ _ _ Hl), (index_ok _ _ _ Hcrow). cbn.
    rewrite Hl, Hcrow. cbn. by rewrite app_nil_r.
  - done.
Qed.

Lemma imap_nonempty {A B} (f : nat → A → B) (l : list A) :
  l ≠ [] → imap f l ≠ [].
Proof. by destruct l. Qed.

Lemma llm_sequence_lengths_none text text_lengths :
  Forall2 (λ l r, l ≤ length r) text_lengths text →
  length <$> imap (llm_sequence' text None) text_lengths
  = (λ l, l + 2) <$> text_lengths.
Proof.
  intros V. apply list_eq. intros i.
  rewrite !list_lookup_fmap, list_lookup_imap.
  destruct (text_lengths !! i) as [tl|] eqn:Etl; [|done]. cbn.
  destruct (Forall2_lookup_l _ _ _ _ _ V Etl) as (row & Hrow & Hle).
  cbn beta in Hle. unfold llm_sequence'. rewrite Hrow. cbn.
  rewrite length_app, length_take. cbn. f_equal. lia.
Qed.

Lemma llm_sequence_lengths_some text text_lengths e cl :
  Forall2 (λ l r, l ≤ length r) text_lengths text →
  Forall2 (λ l r, l ≤ length r) cl e →
  length cl = length text_lengths →
  length <$> imap (llm_sequence' text (Some (e, cl))) text_lengths
  = zip_with Nat.add ((λ l, l + 2) <$> text_lengths) cl.
Proof.
  intros V Vc Hlen. apply list_eq. intros i.
  rewrite !list_lookup_fmap, list_lookup_imap, lookup_zip_with.
  rewrite list_lookup_fmap.
  destruct (text_lengths !! i) as [tl|] eqn:Etl; [|done]. cbn.
  destruct (Forall2_lookup_l _ _ _ _ _ V Etl) as (row & Hrow & Hle).
  destruct (lookup_lt_is_Some_2 cl i) as [l Hl].
  { apply lookup_lt_Some in Etl. lia. }
  destruct (Forall2_lookup_l _ _ _ _ _ Vc Hl) as (crow & Hcrow & Hlec).
  cbn beta in Hle, Hlec. unfold llm_sequence'.
  rewrite Hrow, Hl, Hcrow. cbn.
  rewrite !length_app, !length_take. cbn. rewrite length_take.
  f_equal. lia.
Qed.

Lemma calc_dense_vector_ok c cl :
  nq c = 1 → calc_dense_vector' c cl = Ok (dense_row' <$> tokens c).
Proof.
  intros Hnq. unfold calc_dense_vector', calc_dense_vector.
  rewrite Hnq. by rewrite bool_decide_eq_true_2.
Qed.

Lemma build_llm_inputs_none text text_lengths :
  text_lengths ≠ [] →
  Forall2 (λ l r, l ≤ length r) text_lengths text →
  build_llm_inputs' text text_lengths None None false
  = Ok (resize (max_list ((λ l, l + 2) <$> text_lengths)) zero_emb
          <$> imap (llm_sequence' text None) text_lengths,
        (λ l, l + 2) <$> text_lengths).
Proof.
  intros Hne V. pose proof (Forall2_length V) as L.
  unfold build_llm_inputs', build_llm_inputs. cbn.
  rewrite (llm_inputs_list text text_lengths None) by (done || lia). cbn.
  rewrite pad_list_ok by by apply imap_nonempty. cbn.
  by rewrite llm_sequence_lengths_none.
Qed.

Lemma build_llm_inputs_some text text_lengths c cl need_targets :
  text_lengths ≠ [] →
  Forall2 (λ l r, l ≤ length r) text_lengths text →
  nq c = 1 →
  Forall2 (λ l r, l ≤ length r) cl (tokens c) →
  length cl = length text_lengths →
  build_llm_inputs' text text_lengths (Some c) (Some cl) need_targets
  = Ok (resize (max_list (zip_with Nat.add ((λ l, l + 2) <$> text_lengths) cl))
          zero_emb
          <$> imap (llm_sequence' text (Some (dense_row' <$> tokens c, cl)))
                text_lengths,
        zip_with Nat.add ((λ l, l + 2) <$> text_lengths) cl).
Proof.
  intros Hne V Hnq Vc Hlen.
  pose proof (Forall2_length V) as L. pose proof (Forall2_length Vc) as Lc.
  assert (Forall2 (λ l r, l ≤ length r) cl (dense_row' <$> tokens c)) as Vc'.
  { apply Forall2_fmap_r. revert Vc. apply Forall2_impl.
    intros l r. cbn. unfold dense_row'. by rewrite length_fmap. }
  unfold build_llm_inputs', build_llm_inputs.
  assert (py_assert (bool_decide (is_Some (Some c))
                     && bool_decide (is_Some (Some cl))) = Ok ()) as ->.
  { rewrite !bool_decide_eq_true_2 by eauto. done. }
  assert ((if need_targets then Ok () else Ok ()) = Ok ()) as ->
    by by destruct need_targets.
  cbn. rewrite calc_dense_vector_ok by done. cbn.
  rewrite (llm_inputs_list text text_lengths
             (Some (dense_row' <$> tokens c, cl))).
  2: lia. 2: { rewrite length_fmap. lia. }
  cbn. rewrite pad_list_ok by by apply imap_nonempty. cbn.
  rewrite tensor_add_same_length by (rewrite length_fmap; lia). cbn.
  by rewrite llm_sequence_lengths_some.
Qed.
End build_llm_io_facts.

(** ** [build_llm_io]: the targets *)

Section build_llm_targets_facts.
Context (codebook_size : Z) (predict_nq : nat).

Local Abbreviation eos' := (eos_id codebook_size).
Local Abbreviation zero_group' := (replicate predict_nq 0%Z).

Local Abbreviation target_row' := (target_row codebook_size predict_nq).

Lemma broadcast_to_singleton {A} n (x : A) :
  broadcast_to n [x] = Ok (replicate n x).
Proof.
  unfold broadcast_to. case_decide as H; [|done]. cbn in H. by subst n.
Qed.

Lemma broadcast_groups (crow : list (list Z)) :
  Forall (λ g, length g = 1) crow →
  for_enumerate (λ _ g, broadcast_to predict_nq g) 0 crow
  = Ok ((λ g, replicate predict_nq (default 0%Z (head g))) <$> crow).
Proof.
  intros Hg.
  rewrite (for_enumerate_ok _
             (λ _ g, replicate predict_nq (default 0%Z (head g)))).
  - f_equal. apply (imap_const (λ g, replicate predict_nq (default 0%Z (head g)))).
  - intros k g Hk. cbn.
    pose proof (Forall_lookup_1 _ _ _ _ Hg Hk) as Hlen. cbn beta in Hlen.
    destruct g as [|x [|??]]; try done. cbn. apply broadcast_to_singleton.
Qed.
End build_llm_targets_facts.

Section set_target_rows_facts.
Context (codebook_size : Z) (predict_nq : nat).

Local Abbreviation zero_group' := (replicate predict_nq 0%Z).
Local Abbreviation set_target_row' := (set_target_row codebook_size predict_nq).
Local Abbreviation set_target_rows' := (set_target_rows codebook_size predict_nq).
Local Abbreviation target_row' := (target_row codebook_size predict_nq).

Lemma set_target_row_ok c i codec_len llm_targets crow tt :
  nq c = 1 →
  tokens c !! i = Some crow →
  Forall (λ g, length g = 1) crow →
  llm_targets !! i = Some (replicate tt zero_group') →
  codec_len ≤ length crow → codec_len < tt →
  set_target_row' c i codec_len llm_targets
  = Ok (<[i := target_row' crow codec_len tt]> llm_targets).
Proof.
  intros Hnq Hcrow Hg Ht Hle Hlt.
  unfold set_target_row', set_target_row.
  rewrite (index_ok _ _ _ Hcrow), (index_ok _ _ _ Ht), Hnq. cbn.
  rewrite broadcast_to_singleton. cbn.
  rewrite broadcast_groups by by apply Forall_take. cbn.
  unfold assign_prefix.
  rewrite broadcast_to_same.
  2:{ rewrite length_fmap, !length_take, length_replicate. lia. }
  cbn. unfold assign_at. rewrite decide_True.
  2:{ rewrite length_app, length_fmap, length_take, length_drop,
        length_replicate. lia. }
  by rewrite drop_replicate.
Qed.

Lemma set_target_rows_ok c tt lens :
  nq c = 1 →
  ∀ i llm_targets,
    (∀ k l, lens !! k = Some l →
       ∃ crow, tokens c !! (i + k) = Some crow
               ∧ Forall (λ g, length g = 1) crow
               ∧ l ≤ length crow ∧ l < tt
               ∧ llm_targets !! (i + k) = Some (replicate tt zero_group')) →
    ∃ res,
      set_target_rows' c i lens llm_targets = Ok res
      ∧ length res = length llm_targets
      ∧ (∀ k l crow, lens !! k = Some l → tokens c !! (i + k) = Some crow →
           res !! (i + k) = Some (target_row' crow l tt))
      ∧ (∀ j, j < i → res !! j = llm_targets !! j).
Proof.
  intros Hnq. induction lens as [|l lens IH]; intros i T Hwf.
  { exists T. cbn. split_and!; try done. }
  destruct (Hwf 0 l eq_refl) as (crow & Hcrow & Hg & Hle & Hlt & HT).
  rewrite Nat.add_0_r in Hcrow, HT.
  cbn [set_target_rows].
  rewrite (set_target_row_ok c i l T crow tt) by done. cbn.
  destruct (IH (S i) (<[i := target_row' crow l tt]> T)) as (res & Hres & Hlen & Hrows & Hold).
  { intros k l' Hk. destruct (Hwf (S k) l' Hk) as (crow' & ? & ? & ? & ? & HT').
    exists crow'. replace (S i + k) with (i + S k) by lia.
    split_and!; try done. rewrite list_lookup_insert_ne by lia. done. }
  exists res. split; [done|]. split; [by rewrite Hlen, length_insert|].
  split.
  - intros [|k] l' crow' Hk Hc'.
    + cbn in Hk. injection Hk as <-. rewrite Nat.add_0_r in Hc' |- *.
      rewrite Hcrow in Hc'. injection Hc' as <-.
      rewrite Hold by lia. apply list_lookup_insert_eq.
      by eapply lookup_lt_Some.
    + replace (i + S k) with (S i + k) in Hc' |- * by lia.
      by eapply Hrows.
  - intros j Hj. rewrite Hold by lia. by rewrite list_lookup_insert_ne by lia.
Qed.
End set_target_rows_facts.

Section build_llm_io_properties.
Context {E : Type} (zero_emb : E) (lm_embedding kmeans_emb : Z → E).
Context (codebook_size : Z) (predict_nq : nat).

Local Abbreviation build_llm_inputs' :=
  (build_llm_inputs zero_emb lm_embedding kmeans_emb).
Local Abbreviation build_llm_io' :=
  (build_llm_io zero_emb lm_embedding kmeans_emb codebook_size predict_nq).
Local Abbreviation dense_row' := (dense_row kmeans_emb).
Local Abbreviation llm_sequence' := (llm_sequence lm_embedding).

Lemma build_llm_io_inputs_agree text text_lengths codec codec_lengths
    need_targets io :
  build_llm_io' text text_lengths codec codec_lengths need_targets = Ok io →
  build_llm_inputs' text text_lengths codec codec_lengths need_targets
  = Ok (io_inputs io, io_lengths io).
Proof.
  unfold build_llm_io', build_llm_io.
  destruct (build_llm_inputs' _ _ _ _ _) as [[inp lens]|e]; [|done]. cbn.
  destruct need_targets; cbn.
  - destruct codec as [c|]; [|done]. destruct codec_lengths as [cl|]; [|done].
    destruct (build_llm_targets _ _ _ _ _) as [tg|]; [|done]. cbn.
    by intros [= <-].
  - by intros [= <-].
Qed.

(** C1. [build_llm_io'] lays out example [i] of the language-model input as
    the [sos_eos] embedding, [text[i, :text_lengths[i]]], the [task_id]
    embedding and, when a codec is given, its dense vectors
    [codec_emb[i, :codec_lengths[i]]]; every example is filled with zeros up
    to the longest one, and the lengths returned are
    [text_lengths + 2 (+ codec_lengths)]. *)
Theorem build_llm_io_inputs_layout text text_lengths :
  text_lengths ≠ [] →
  Forall2 (λ l r, l ≤ length r) text_lengths text →
  (∃ llm_inputs,
     let llm_lengths := (λ l, l + 2) <$> text_lengths in
     build_llm_io' text text_lengths None None false
     = Ok (LlmInputs llm_inputs llm_lengths)
     ∧ length llm_inputs = length text_lengths
     ∧ ∀ i row tl,
         text !! i = Some row → text_lengths !! i = Some tl →
         llm_inputs !! i
         = Some ([lm_embedding sos_eos] ++ take tl row
                 ++ [lm_embedding task_id]
                 ++ replicate (max_list llm_lengths - (tl + 2)) zero_emb))
  ∧ (∀ c cl,
       nq c = 1 →
       Forall2 (λ l r, l ≤ length r) cl (tokens c) →
       length cl = length text_lengths →
       ∃ llm_inputs,
         let llm_lengths := zip_with (λ tl l, tl + 2 + l) text_lengths cl in
         build_llm_io' text text_lengths (Some c) (Some cl) false
         = Ok (LlmInputs llm_inputs llm_lengths)
         ∧ (∀ io, build_llm_io' text text_lengths (Some c) (Some cl) true
                  = Ok io →
                  io_inputs io = llm_inputs ∧ io_lengths io = llm_lengths)
         ∧ length llm_inputs = length text_lengths
         ∧ ∀ i row tl crow l,
             text !! i = Some row → text_lengths !! i = Some tl →
             tokens c !! i = Some crow → cl !! i = Some l →
             llm_inputs !! i
             = Some ([lm_embedding sos_eos] ++ take tl row
                     ++ [lm_embedding task_id]
                     ++ take l (dense_row' crow)
                     ++ replicate (max_list llm_lengths - (tl + 2 + l))
                          zero_emb)).
Proof.
  intros Hne V. split.
  - eexists. cbn zeta. split; [|split].
    + unfold build_llm_io', build_llm_io.
      rewrite build_llm_inputs_none by done. reflexivity.
    + by rewrite length_fmap, length_imap.
    + intros i row tl Hrow Htl.
      rewrite list_lookup_fmap, list_lookup_imap, Htl. cbn.
      pose proof (Forall2_lookup_lr _ _ _ _ _ _ V Htl Hrow) as Hle.
      cbn beta in Hle.
      assert (tl + 2 ≤ max_list ((λ l, l + 2) <$> text_lengths)) as Hmax.
      { apply max_list_elem_of_le, list_elem_of_lookup. exists i.
        by rewrite list_lookup_fmap, Htl. }
      unfold llm_sequence', llm_sequence. rewrite Hrow. cbn.
      rewrite resize_ge.
      2:{ cbn. rewrite length_app, length_take. cbn. lia. }
      cbn. rewrite length_app, length_take. cbn.
      rewrite <-(assoc_L (++)). cbn. do 5 f_equal. lia.
  - intros c cl Hnq Vc Hlen.
    assert (zip_with Nat.add ((λ l, l + 2) <$> text_lengths) cl
            = zip_with (λ tl l, tl + 2 + l) text_lengths cl) as Hzip
      by by rewrite zip_with_fmap_l.
    eexists. cbn zeta. split; [|split; [|split]].
    + unfold build_llm_io', build_llm_io.
      rewrite build_llm_inputs_some by done. cbn. rewrite Hzip. reflexivity.
    + intros io Hio. apply build_llm_io_inputs_agree in Hio.
      rewrite build_llm_inputs_some in Hio by done.
      rewrite Hzip in Hio. by injection Hio as <- <-.
    + by rewrite length_fmap, length_imap.
    + intros i row tl crow l Hrow Htl Hcrow Hl.
      rewrite list_lookup_fmap, list_lookup_imap, Htl. cbn.
      pose proof (Forall2_lookup_lr _ _ _ _ _ _ V Htl Hrow) as Hle.
      pose proof (Forall2_lookup_lr _ _ _ _ _ _ Vc Hl Hcrow) as Hlec.
      cbn beta in Hle, Hlec.
      assert (tl + 2 + l
              ≤ max_list (zip_with (λ tl l, tl + 2 + l) text_lengths cl))
        as Hmax.
      { apply max_list_elem_of_le, list_elem_of_lookup. exists i.
        rewrite lookup_zip_with, Htl. cbn. by rewrite Hl. }
      unfold llm_sequence', llm_sequence.
      rewrite Hrow, Hl, list_lookup_fmap, Hcrow. cbn.
      assert (length (take l (dense_row' crow)) = l) as Hdl.
      { unfold dense_row', dense_row.
        rewrite length_take, length_fmap. lia. }
      rewrite resize_ge.
      2:{ cbn. rewrite length_app, length_take. cbn. rewrite Hdl. lia. }
      cbn. rewrite length_app, length_take. cbn. rewrite Hdl.
      rewrite <-(assoc_L (++)). cbn.
      do 6 f_equal. lia.
Qed.
End build_llm_io_properties.

Section build_llm_io_target_properties.
Context {E : Type} (zero_emb : E) (lm_embedding kmeans_emb : Z → E).
Context (codebook_size : Z) (predict_nq : nat).

Local Abbreviation build_llm_io' :=
  (build_llm_io zero_emb lm_embedding kmeans_emb codebook_size predict_nq).
Local Abbreviation build_llm_targets' :=
  (build_llm_targets codebook_size predict_nq).
Local Abbreviation target_row' := (target_row codebook_size predict_nq).

Lemma target_row_length crow l tt :
  l ≤ length crow → l ≤ tt → length (target_row' crow l tt) = tt.
Proof.
  intros. unfold target_row', target_row.
  rewrite length_insert, length_app, length_fmap, length_take,
    length_replicate. lia.
Qed.

Lemma target_row_prefix crow l tt :
  l ≤ length crow →
  take l (target_row' crow l tt)
  = (λ g, replicate predict_nq (default 0%Z (head g))) <$> take l crow.
Proof.
  intros. unfold target_row', target_row.
  rewrite take_insert_ge by lia.
  apply take_app_length'. rewrite length_fmap, length_take. lia.
Qed.

Lemma target_row_eos crow l tt :
  l ≤ length crow → l < tt →
  target_row' crow l tt !! l
  = Some (replicate predict_nq (codebook_size + sos_eos)%Z).
Proof.
  intros. unfold target_row', target_row.
  apply list_lookup_insert_eq.
  rewrite length_app, length_fmap, length_take, length_replicate. lia.
Qed.

Lemma squeeze_groups (crow : list (list Z)) :
  Forall (λ g, length g = 1) crow →
  (λ g, replicate 1 (default 0%Z (head g))) <$> crow = crow.
Proof.
  induction 1 as [|g crow Hg _ IH]; [done|].
  rewrite fmap_cons, IH. f_equal.
  by destruct g as [|x [|??]].
Qed.

Lemma build_llm_targets_ok bb c cl :
  cl ≠ [] → nq c = 1 → bb = length cl →
  Forall (Forall (λ g, length g = 1)) (tokens c) →
  Forall2 (λ l r, l ≤ length r) cl (tokens c) →
  ∃ llm_targets,
    build_llm_targets' bb c cl = Ok llm_targets
    ∧ length llm_targets = bb
    ∧ ∀ i l crow, cl !! i = Some l → tokens c !! i = Some crow →
        llm_targets !! i = Some (target_row' crow l (max_list cl + 1)).
Proof.
  intros Hne Hnq -> Hg Vc.
  unfold build_llm_targets', build_llm_targets.
  assert (tensor_max cl = Ok (max_list cl)) as -> by by destruct cl.
  cbn.
  destruct (set_target_rows_ok codebook_size predict_nq c (max_list cl + 1)
              cl Hnq 0
              (replicate (length cl)
                 (replicate (max_list cl + 1) (replicate predict_nq 0%Z))))
    as (res & Hres & Hlen & Hrows & _).
  { intros k l Hk. cbn.
    destruct (Forall2_lookup_l _ _ _ _ _ Vc Hk) as (crow & Hcrow & Hle).
    exists crow. split_and!; try done.
    - by eapply Forall_lookup_1 in Hg.
    - assert (l ≤ max_list cl); [|lia].
      apply max_list_elem_of_le, list_elem_of_lookup. eauto.
    - apply lookup_replicate_2. by eapply lookup_lt_Some. }
  exists res. split; [done|]. split.
  - by rewrite Hlen, length_replicate.
  - intros i l crow Hl Hcrow. by apply (Hrows i l crow).
Qed.

(** C2. With [need_targets] the codec and its lengths must be given
    (otherwise the assertion fails); the targets then have
    [max(codec_lengths) + 1] time steps, row [i] starts with
    [codec[i, :codec_lengths[i]]] (its single quantizer axis broadcast to
    [predict_nq]) followed at index [codec_lengths[i]] by the end id
    [codebook_size + sos_eos], and the target lengths returned are
    [codec_lengths + 1]. *)
Theorem build_llm_io_targets_layout text text_lengths c cl :
  text_lengths ≠ [] →
  Forall2 (λ l r, l ≤ length r) text_lengths text →
  nq c = 1 →
  Forall (Forall (λ g, length g = 1)) (tokens c) →
  Forall2 (λ l r, l ≤ length r) cl (tokens c) →
  length cl = length text_lengths →
  (∀ codec codec_lengths,
     codec = None ∨ codec_lengths = None →
     build_llm_io' text text_lengths codec codec_lengths true
     = Raise AssertionError)
  ∧ ∃ llm_inputs llm_targets llm_lengths,
      build_llm_io' text text_lengths (Some c) (Some cl) true
      = Ok (LlmInputsTargets llm_inputs llm_targets llm_lengths
              ((λ l, l + 1) <$> cl))
      ∧ length llm_targets = length text
      ∧ ∀ i l crow,
          cl !! i = Some l → tokens c !! i = Some crow →
          ∃ trow,
            llm_targets !! i = Some trow
            ∧ length trow = max_list cl + 1
            ∧ take l trow
              = (λ g, replicate predict_nq (default 0%Z (head g)))
                  <$> take l crow
            ∧ (predict_nq = 1 → take l trow = take l crow)
            ∧ trow !! l
              = Some (replicate predict_nq (codebook_size + sos_eos)%Z).
Proof.
  intros Hne V Hnq Hg Vc Hlen. split.
  { intros codec codec_lengths Hnone.
    unfold build_llm_io', build_llm_io, build_llm_inputs. cbn.
    destruct Hnone as [-> | ->]; [done|]. by destruct codec. }
  pose proof (Forall2_length V) as L.
  assert (cl ≠ []) as Hcne by (destruct cl, text_lengths; done).
  destruct (build_llm_targets_ok (length text) c cl)
    as (tg & Htg & Htlen & Hrows); try done; [lia|].
  unfold build_llm_io', build_llm_io.
  rewrite build_llm_inputs_some by done. rewrite Htg. cbn.
  eexists _, tg, _. split; [reflexivity|]. split; [done|].
  intros i l crow Hl Hcrow.
  pose proof (Forall2_lookup_lr _ _ _ _ _ _ Vc Hl Hcrow) as Hle.
  cbn beta in Hle.
  assert (l ≤ max_list cl) as Hmax.
  { apply max_list_elem_of_le, list_elem_of_lookup. eauto. }
  exists (target_row' crow l (max_list cl + 1)).
  split; [by apply Hrows|].
  split; [apply target_row_length; lia|].
  split; [by apply target_row_prefix|].
  split; [|apply target_row_eos; lia].
  intros Hone. rewrite target_row_prefix by done. rewrite Hone.
  apply squeeze_groups, Forall_take. by eapply Forall_lookup_1 in Hg.
Qed.
End build_llm_io_target_properties.

(** ** [CrossAttentionDecoderBlock] *)

Section cross_attention_block_properties.
Context {X : Type} (decoder_layer_forward : layer_module → X → X).
Context (cross_forward : nat * nat * bool → X → X → X).

Local Abbreviation sequential' := (sequential decoder_layer_forward).
Local Abbreviation block_forward' :=
  (block_forward decoder_layer_forward cross_forward).

Lemma build_layers_positive d_model num_layers nheads is_causal hidden_dim :
  1 ≤ num_layers →
  build_layers d_model num_layers nheads is_causal hidden_dim
  = (λ i, SelmTransformerDecoderLayer d_model nheads hidden_dim is_causal i)
      <$> seq 0 (num_layers - 1).
Proof.
  intros H. unfold build_layers.
  destruct (Nat.eqb_spec num_layers 0); [lia|done].
Qed.

(** C10. For [num_layers >= 1] the self-attention stack holds
    [num_layers - 1] decoder layers (and the register stack
    [num_layers_regi - 1] of them); with [num_layers = 1] the stack is empty
    and returns its input, as the [Identity] stack of [num_layers = 0]
    does; the cross-attention layer is applied once whatever the counts. *)
Theorem cross_attention_block_stacks d_model num_layers num_layers_regi
    nheads is_causal first hidden_dim :
  1 ≤ num_layers →
  let init n m :=
    CrossAttentionDecoderBlock_init d_model n m nheads is_causal first
      hidden_dim in
  let self := init num_layers num_layers_regi in
  layers self
  = (λ i, SelmTransformerDecoderLayer d_model nheads hidden_dim is_causal i)
      <$> seq 0 (num_layers - 1)
  ∧ length (layers self) = num_layers - 1
  ∧ (1 ≤ num_layers_regi →
     layers_regi self
     = (λ i, SelmTransformerDecoderLayer d_model nheads hidden_dim
               is_causal i) <$> seq 0 (num_layers_regi - 1)
     ∧ length (layers_regi self) = num_layers_regi - 1)
  ∧ (num_layers = 1 →
     layers self = []
     ∧ ∀ x, sequential' (layers self) x = x
            ∧ sequential' (layers self) x
              = sequential' (layers (init 0 num_layers_regi)) x)
  ∧ ∀ x regi,
      block_forward' self (x, regi)
      = if first
        then (sequential' (layers self) (cross_forward (cross self) x regi),
              sequential' (layers_regi self) regi)
        else (cross_forward (cross self) (sequential' (layers self) x)
                (sequential' (layers_regi self) regi),
              sequential' (layers_regi self) regi).
Proof.
  intros Hn init self. subst self init. cbn [layers layers_regi cross
    CrossAttentionDecoderBlock_init cross_first].
  split; [by apply build_layers_positive|].
  split; [by rewrite build_layers_positive, length_fmap, length_seq|].
  split.
  { intros Hm. split; [by apply build_layers_positive|].
    by rewrite build_layers_positive, length_fmap, length_seq. }
  split.
  { intros ->. by repeat split. }
  intros x regi. unfold block_forward', block_forward. cbn.
  by destruct first.
Qed.
End cross_attention_block_properties.

(** A block built with three layers and one register layer: two decoder
    layers in the first stack, none in the second. *)
Lemma cross_attention_block_stacks_witness :
  1 ≤ 3
  ∧ length (layers (CrossAttentionDecoderBlock_init 512 3 1 16 true false 1024))
    = 2
  ∧ layers_regi (CrossAttentionDecoderBlock_init 512 3 1 16 true false 1024)
    = [].
Proof.
  assert (1 ≤ 3) as H by lia.
  destruct (cross_attention_block_stacks (X := nat) (λ _ x, S x)
              (λ _ x r, x + r) 512 3 1 16 true false 1024 H)
    as (_ & Hlen & Hregi & _).
  split; [exact H|]. split; [exact Hlen|].
  destruct Hregi as [Hr _]; [lia|]. exact Hr.
Defined.

(** ** [positionalencoding1d] *)

Section strided_assignment.
Context {A : Type}.

Local Abbreviation put' :=
  (λ (row : list A) '(c, v), <[c := v]> row).

Lemma foldl_put_length (l : list (nat * A)) : ∀ row,
  length (foldl put' row l) = length row.
Proof.
  induction l as [|[c v] l IH]; intros row; [done|].
  cbn. by rewrite IH, length_insert.
Qed.

Lemma foldl_put_other (l : list (nat * A)) c : ∀ row,
  c ∉ l.*1 → foldl put' row l !! c = row !! c.
Proof.
  induction l as [|[c0 v0] l IH]; intros row Hc; [done|].
  cbn in *. apply not_elem_of_cons in Hc as [Hne Hc].
  rewrite IH by done. by apply list_lookup_insert_ne.
Qed.

Lemma foldl_put_at (l : list (nat * A)) c v : ∀ row,
  NoDup l.*1 → (c, v) ∈ l → c < length row →
  foldl put' row l !! c = Some v.
Proof.
  induction l as [|[c0 v0] l IH]; intros row Hnd Hin Hlt.
  { by apply elem_of_nil in Hin. }
  cbn in *. apply list.NoDup_cons in Hnd as [Hfresh Hnd].
  apply elem_of_cons in Hin as [[= -> ->]|Hin].
  - rewrite foldl_put_other by done. by apply list_lookup_insert_eq.
  - apply IH; [done..|]. by rewrite length_insert.
Qed.

Lemma arange2_NoDup start stop : NoDup (arange2 start stop).
Proof.
  unfold arange2. apply NoDup_fmap_2; [|apply NoDup_seq].
  intros i j. lia.
Qed.

Lemma arange2_lookup start stop i :
  start + 2 * i < stop → start ≤ 1 →
  arange2 start stop !! i = Some (start + 2 * i).
Proof.
  intros Hlt Hs. unfold arange2. rewrite list_lookup_fmap, lookup_seq_lt.
  - done.
  - apply Nat.div_le_lower_bound; lia.
Qed.

Lemma arange2_parity start stop c :
  c ∈ arange2 start stop → c `mod` 2 = start `mod` 2.
Proof.
  unfold arange2. intros (i & -> & _)%list_elem_of_fmap.
  rewrite (Nat.mul_comm 2 i). apply Nat.Div0.mod_add.
Qed.

Lemma assign_strided_ok start (vals row : list A) :
  length vals = length (arange2 start (length row)) →
  ∃ row',
    assign_strided start vals row = Ok row'
    ∧ length row' = length row
    ∧ (∀ i v, start ≤ 1 → start + 2 * i < length row → vals !! i = Some v →
         row' !! (start + 2 * i) = Some v)
    ∧ (∀ c, c `mod` 2 ≠ start `mod` 2 → row' !! c = row !! c).
Proof.
  intros Hlen. unfold assign_strided.
  rewrite broadcast_to_same by done. cbn [mbind result_bind].
  eexists. split; [done|].
  split; [apply foldl_put_length|]. split.
  - intros i v Hs Hlt Hv. apply foldl_put_at.
    + rewrite fst_zip by lia. apply arange2_NoDup.
    + apply elem_of_lookup_zip_with. exists i, (start + 2 * i), v.
      split_and!; [done| |done]. by apply arange2_lookup.
    + done.
  - intros c Hc. apply foldl_put_other. rewrite fst_zip by lia.
    intros Hin%arange2_parity. done.
Qed.
End strided_assignment.

Lemma for_enumerate_pointwise {A B} (f : nat → A → result B)
    (P : nat → A → B → Prop) l :
  ∀ i, (∀ k x, l !! k = Some x → ∃ y, f (i + k) x = Ok y ∧ P (i + k) x y) →
       ∃ ys, for_enumerate f i l = Ok ys
             ∧ length ys = length l
             ∧ ∀ k x, l !! k = Some x →
                 ∃ y, ys !! k = Some y ∧ P (i + k) x y.
Proof.
  induction l as [|x l IH]; intros i Hf.
  { exists []. by repeat split. }
  destruct (Hf 0 x eq_refl) as (y & Hy & HP).
  destruct (IH (S i)) as (ys & Hys & Hlen & Hall).
  { intros k z Hk. replace (S i + k) with (i + S k) by lia. by apply Hf. }
  exists (y :: ys). rewrite Nat.add_0_r in Hy, HP.
  cbn [for_enumerate]. rewrite Hy. cbn. rewrite Hys. cbn.
  split; [done|]. split; [by rewrite Hlen|].
  intros [|k] z Hk.
  - injection Hk as <-. exists y. by rewrite Nat.add_0_r.
  - destruct (Hall k z Hk) as (y' & ? & ?). exists y'.
    by replace (i + S k) with (S i + k) by lia.
Qed.

Section positional_encoding_properties.
Context {F D : Type} (f0 : F) (fexp fsin fcos : F → F) (fmul : F → F → F).
Context (fscale : F → D → F) (of_nat : nat → F).
Context (log_10000 : D) (ddiv : D → nat → D) (dneg : D → D).

Local Abbreviation div_term' := (div_term fexp fscale of_nat log_10000 ddiv dneg).
Local Abbreviation positionalencoding1d' :=
  (positionalencoding1d f0 fexp fsin fcos fmul fscale of_nat log_10000 ddiv
     dneg).

Local Abbreviation pe_angle' :=
  (pe_angle fexp fmul fscale of_nat log_10000 ddiv dneg).

Lemma div_term_lookup d_model i :
  0 < d_model → 2 * i < d_model →
  ∃ dt, div_term' d_model = Ok dt
        ∧ length dt = length (arange2 0 d_model)
        ∧ dt !! i
          = Some (fexp (fscale (of_nat (2 * i))
                          (dneg (ddiv log_10000 d_model)))).
Proof.
  intros Hpos Hi. unfold div_term', div_term, py_div.
  destruct (Nat.eqb_spec d_model 0); [lia|]. cbn [mbind result_bind].
  eexists. split; [done|]. split; [by rewrite length_fmap|].
  rewrite list_lookup_fmap, (arange2_lookup 0 d_model i) by lia. done.
Qed.

Lemma arange2_even_lengths m :
  length (arange2 0 (2 * m)) = m ∧ length (arange2 1 (2 * m)) = m.
Proof.
  unfold arange2. rewrite !length_fmap, !length_seq. split.
  - replace (2 * m + 1 - 0) with (1 + m * 2) by lia.
    rewrite Nat.div_add by lia. done.
  - replace (2 * m + 1 - 1) with (m * 2) by lia.
    by rewrite Nat.div_mul by lia.
Qed.

Lemma positionalencoding1d_even d_model length :
  Nat.even d_model = true → 0 < d_model →
  ∃ pe,
    positionalencoding1d' d_model length = Ok pe
    ∧ List.length pe = length
    ∧ ∀ pos row,
        pe !! pos = Some row →
        List.length row = d_model
        ∧ ∀ i, 2 * i + 1 < d_model →
            row !! (2 * i) = Some (fsin (pe_angle' d_model pos i))
            ∧ row !! (2 * i + 1) = Some (fcos (pe_angle' d_model pos i)).
Proof.
  intros [m ->]%Nat.even_spec Hpos.
  destruct (arange2_even_lengths m) as [Le Lo].
  unfold positionalencoding1d', positionalencoding1d.
  replace ((2 * m) `mod` 2 =? 0) with true
    by (symmetry; apply Nat.eqb_eq; rewrite Nat.mul_comm;
        apply Nat.Div0.mod_mul).
  cbn [negb].
  destruct (div_term_lookup (2 * m) 0) as (dt & Hdt & Hdtlen & _); [lia..|].
  rewrite Hdt. cbn [mbind result_bind].
  set (angles := (λ pos, (λ d, fmul (of_nat pos) d) <$> dt) <$> seq 0 length).
  set (pe0 := replicate length (replicate (2 * m) f0)).
  (* the sine columns *)
  destruct (for_enumerate_pointwise
              (λ _ '(row, a), assign_strided 0 (fsin <$> a) row)
              (λ pos _ row',
                 List.length row' = 2 * m
                 ∧ ∀ i d, dt !! i = Some d → 2 * i < 2 * m →
                     row' !! (2 * i) = Some (fsin (fmul (of_nat pos) d)))
              (zip pe0 angles) 0) as (pe1 & -> & Hlen1 & Hpe1).
  { intros k [row a] Hk. cbn [Nat.add].
    apply lookup_zip_with_Some in Hk as (? & ? & [= <- <-] & Hrow & Ha).
    apply lookup_replicate in Hrow as [-> _].
    subst angles. rewrite list_lookup_fmap in Ha.
    destruct (seq 0 length !! k) as [pos|] eqn:Hpos'; [|done].
    apply lookup_seq in Hpos' as [-> _]. injection Ha as <-.
    destruct (assign_strided_ok 0
                (fsin <$> ((λ d, fmul (of_nat (0 + k)) d) <$> dt))
                (replicate (2 * m) f0))
      as (row' & Hrow' & Hl & Hset & _).
    { rewrite !length_fmap, length_replicate. lia. }
    exists row'. split; [done|]. rewrite length_replicate in Hl, Hset.
    split; [done|]. intros i d Hd Hi. apply (Hset i); [lia|lia|].
    by rewrite !list_lookup_fmap, Hd. }
  cbn [mbind result_bind].
  (* the cosine columns *)
  destruct (for_enumerate_pointwise
              (λ _ '(row, a), assign_strided 1 (fcos <$> a) row)
              (λ pos '(row, _) row',
                 List.length row' = List.length row
                 ∧ (∀ i d, dt !! i = Some d → 2 * i + 1 < List.length row →
                      row' !! (2 * i + 1) = Some (fcos (fmul (of_nat pos) d)))
                 ∧ ∀ i, row' !! (2 * i) = row !! (2 * i))
              (zip pe1 angles) 0) as (pe2 & -> & Hlen2 & Hpe2).
  { intros k [row a] Hk. cbn [Nat.add].
    apply lookup_zip_with_Some in Hk as (? & ? & [= <- <-] & Hrow & Ha).
    subst angles. rewrite list_lookup_fmap in Ha.
    destruct (seq 0 length !! k) as [pos|] eqn:Hpos'; [|done].
    apply lookup_seq in Hpos' as [-> Hk]. injection Ha as <-.
    assert (List.length row = 2 * m) as Hrl.
    { assert (zip pe0 ((λ pos, (λ d, fmul (of_nat pos) d) <$> dt)
                         <$> seq 0 length) !! (0 + k)
              = Some (replicate (2 * m) f0,
                      (λ d, fmul (of_nat (0 + k)) d) <$> dt)) as Hz.
      { apply lookup_zip_with_Some. eexists _, _. split; [done|]. split.
        - subst pe0. by apply lookup_replicate_2.
        - by rewrite list_lookup_fmap, lookup_seq_lt. }
      destruct (Hpe1 _ _ Hz) as (row1 & Hrow1 & Hl1 & _).
      cbn [Nat.add] in Hrow1. by simplify_eq. }
    destruct (assign_strided_ok 1
                (fcos <$> ((λ d, fmul (of_nat (0 + k)) d) <$> dt)) row)
      as (row' & Hrow' & Hl & Hset & Hkeep).
    { rewrite !length_fmap, Hrl. lia. }
    exists row'. split; [done|]. split; [done|]. split.
    - intros i d Hd Hi. replace (2 * i + 1) with (1 + 2 * i) by lia.
      apply (Hset i); [lia|lia|]. by rewrite !list_lookup_fmap, Hd.
    - intros i. apply Hkeep. rewrite Nat.mul_comm, Nat.Div0.mod_mul. done. }
  cbn [mbind result_bind].
  exists pe2. split; [done|]. split.
  { rewrite Hlen2, length_zip, Hlen1, length_zip. subst pe0 angles.
    rewrite length_replicate, length_fmap, length_seq. lia. }
  intros pos row2 Hrow2.
  assert (pos < length) as Hposlt.
  { apply lookup_lt_Some in Hrow2.
    rewrite Hlen2, length_zip, Hlen1, length_zip in Hrow2. subst pe0 angles.
    rewrite length_replicate, length_fmap, length_seq in Hrow2. lia. }
  assert (zip pe0 angles !! pos
          = Some (replicate (2 * m) f0, (λ d, fmul (of_nat pos) d) <$> dt))
    as Hz0.
  { apply lookup_zip_with_Some. eexists _, _. split; [done|]. split.
    - subst pe0. by apply lookup_replicate_2.
    - subst angles. by rewrite list_lookup_fmap, lookup_seq_lt. }
  destruct (Hpe1 _ _ Hz0) as (row1 & Hrow1 & Hl1 & Hsin).
  assert (zip pe1 angles !! pos
          = Some (row1, (λ d, fmul (of_nat pos) d) <$> dt)) as Hz1.
  { apply lookup_zip_with_Some. eexists _, _. split; [done|]. split; [done|].
    subst angles. by rewrite list_lookup_fmap, lookup_seq_lt. }
  destruct (Hpe2 _ _ Hz1) as (row2' & Hrow2' & Hl2 & Hcos & Hkeep).
  cbn [Nat.add] in *. simplify_eq. split; [lia|].
  intros i Hi.
  destruct (div_term_lookup (2 * m) i) as (dt' & Hdt' & _ & Hdti); [lia..|].
  assert (dt' = dt) as -> by congruence.
  split.
  - rewrite Hkeep. by apply Hsin; [|lia].
  - apply Hcos; [done|lia].
Qed.

(** C8, as the code has it.  [positionalencoding1d'] raises [ValueError]
    exactly for an odd [d_model]; for an even [d_model] other than 0 and
    any [length] it returns a [length] by [d_model] matrix whose entry
    [pos, 2i] is [sin(pos * exp(2i * -(log(10000) / d_model)))] and whose
    entry [pos, 2i + 1] is the cosine of the same angle. *)
Theorem positionalencoding1d_table d_model length :
  let returned :=
    positionalencoding1d f0 fexp fsin fcos fmul fscale of_nat log_10000 ddiv
      dneg d_model length in
  (returned = Raise ValueError
   ↔ Nat.odd d_model = true)
  ∧ (Nat.even d_model = true → 0 < d_model →
     ∃ pe,
       returned = Ok pe
       ∧ List.length pe = length
       ∧ ∀ pos row,
           pe !! pos = Some row →
           List.length row = d_model
           ∧ ∀ i, 2 * i + 1 < d_model →
               row !! (2 * i) = Some (fsin (pe_angle' d_model pos i))
               ∧ row !! (2 * i + 1) = Some (fcos (pe_angle' d_model pos i))).
Proof.
  intros returned. subst returned.
  split; [|apply positionalencoding1d_even].
  destruct (Nat.Even_or_Odd d_model) as [Hev|Hodd].
  - assert (Nat.odd d_model = false) as ->.
    { apply not_true_is_false. intros Ho%Nat.odd_spec.
      by eapply Nat.Even_Odd_False. }
    split; [|done]. intros Hraise.
    apply Nat.even_spec in Hev.
    destruct (decide (d_model = 0)) as [->|Hnz].
    + by cbv in Hraise.
    + destruct (positionalencoding1d_even d_model length Hev)
        as (pe & Hpe & _); [lia|]. congruence.
  - split; [intros _; by apply Nat.odd_spec|]. intros _.
    unfold positionalencoding1d', positionalencoding1d.
    destruct Hodd as [k ->].
    replace ((2 * k + 1) `mod` 2) with 1; [done|].
    rewrite Nat.add_comm, Nat.mul_comm, Nat.Div0.mod_add. done.
Qed.
End positional_encoding_properties.

(** ** [WavLMKmeansConformer.forward] *)

Section wavlm_kmeans_conformer_properties.
Context {E Tok Loss Ratio : Type} (mask_emb : E).
Context (kmeans : list (list E) → list (list Tok)).
Context (kmeans_embedding : list (list Tok) → list (list E)).
Context (conformer : list (list E) → list nat → list (list E) * list nat).
Context (mse_loss ssim : list (list E) → list (list E) → Loss).
Context (loss_add : Loss → Loss → Loss).
Context (ratio_is_zero : Ratio → bool) (int_mul : nat → Ratio → Z).

Local Abbreviation mask_row' := (mask_row mask_emb).
Local Abbreviation mask_index' := (mask_index ratio_is_zero int_mul).
Local Abbreviation masked_emb' := (masked_emb mask_emb ratio_is_zero int_mul).
Local Abbreviation forward' :=
  (forward mask_emb kmeans kmeans_embedding conformer mse_loss ssim loss_add
     ratio_is_zero int_mul).

Lemma mask_row_cons i idxs row :
  mask_row' (i :: idxs) row = mask_row' idxs (<[i := mask_emb]> row).
Proof. done. Qed.

Lemma mask_row_length idxs : ∀ row, length (mask_row' idxs row) = length row.
Proof.
  induction idxs as [|i idxs IH]; intros row; [done|].
  by rewrite mask_row_cons, IH, length_insert.
Qed.

Lemma mask_row_other idxs t : ∀ row,
  t ∉ idxs → mask_row' idxs row !! t = row !! t.
Proof.
  induction idxs as [|i idxs IH]; intros row Ht; [done|].
  apply not_elem_of_cons in Ht as [Hne Ht]. rewrite mask_row_cons.
  rewrite IH by done. by apply list_lookup_insert_ne.
Qed.

Lemma mask_row_masked idxs t : ∀ row,
  t ∈ idxs → t < length row → mask_row' idxs row !! t = Some mask_emb.
Proof.
  induction idxs as [|i idxs IH]; intros row Ht Hlt.
  { by apply elem_of_nil in Ht. }
  rewrite mask_row_cons. destruct (decide (t ∈ idxs)) as [Hin|Hout].
  - apply IH; [done|]. by rewrite length_insert.
  - apply elem_of_cons in Ht as [->|]; [|done].
    rewrite mask_row_other by done. by apply list_lookup_insert_eq.
Qed.

Lemma py_slice_to_nonneg {A} (n : Z) (l : list A) :
  (0 ≤ n)%Z → py_slice_to n l = take (Z.to_nat n) l.
Proof. intros H. unfold py_slice_to. by rewrite decide_True. Qed.

(** C6, as the code has it.  With a ratio [r] that is neither [None] nor
    [0.0] and [int(T * r) >= 0], [forward'] overwrites with the mask
    embedding the first [int(T * r)] positions of the permutation drawn,
    and all [T] of them when [int(T * r)] exceeds [T]: these are
    [min(int(T * r), T)] distinct time positions, the same ones for every
    example of the batch, every other position being kept.  With
    [mask_ratio] [None] or [0.0] the embedding is quantized as it is.  The
    result is the Conformer applied to the k-means embeddings of the
    k-means tokens of the (masked) embedding. *)
Theorem forward_masks_positions emb perm r :
  let T := size1 emb in
  Forall (λ row, length row = T) emb →
  perm ≡ₚ seq 0 T →
  ratio_is_zero r = false →
  (0 ≤ int_mul T r)%Z →
  let chosen := mask_index' emb (Some r) perm in
  (chosen = take (Z.to_nat (int_mul T r)) perm
   ∧ NoDup chosen
   ∧ length chosen = Z.to_nat (int_mul T r) `min` T
   ∧ Forall (λ t, t < T) chosen)
  ∧ (∀ b row, emb !! b = Some row →
       ∃ row', masked_emb' emb (Some r) perm !! b = Some row'
               ∧ length row' = T
               ∧ (∀ t, t ∈ chosen → row' !! t = Some mask_emb)
               ∧ (∀ t, t ∉ chosen → row' !! t = row !! t))
  ∧ (∀ r0, ratio_is_zero r0 = true → masked_emb' emb (Some r0) perm = emb)
  ∧ masked_emb' emb None perm = emb
  ∧ ∀ mask_ratio,
      let quantized := kmeans (masked_emb' emb mask_ratio perm) in
      let embedding := kmeans_embedding quantized in
      (forward' emb mask_ratio perm).1.1.1.1
      = (conformer embedding
           (replicate (length embedding) (size1 embedding))).1
      ∧ (forward' emb mask_ratio perm).1.1.1.2
        = masked_emb' emb mask_ratio perm.
Proof.
  intros T Hrect Hperm Hnz Hpos chosen.
  assert (chosen = take (Z.to_nat (int_mul T r)) perm) as Hchosen.
  { subst chosen. unfold mask_index', mask_index. rewrite Hnz.
    by apply py_slice_to_nonneg. }
  assert (length perm = T) as Hpl.
  { by rewrite Hperm, length_seq. }
  assert (NoDup perm) as Hnd by (rewrite Hperm; apply NoDup_seq).
  assert (Forall (λ t, t < T) chosen) as Hbound.
  { rewrite Hchosen. apply Forall_take. rewrite Hperm.
    apply list.Forall_forall. intros t Ht%elem_of_seq. lia. }
  split; [|split; [|split; [|split]]].
  - split; [done|]. rewrite Hchosen. split; [|split].
    + eapply sublist_NoDup; [done|apply sublist_take].
    + rewrite length_take. lia.
    + by rewrite <-Hchosen.
  - intros b row Hrow. unfold masked_emb', masked_emb.
    rewrite Hnz, list_lookup_fmap, Hrow. cbn [fmap option_fmap option_map].
    pose proof (Forall_lookup_1 _ _ _ _ Hrect Hrow) as Hlen.
    cbn beta in Hlen. eexists. split; [done|].
    split; [by rewrite mask_row_length|]. split.
    + intros t Ht. apply mask_row_masked; [done|].
      rewrite Hlen. by eapply list.Forall_forall in Hbound.
    + intros t Ht. by apply mask_row_other.
  - intros r0 Hz. unfold masked_emb', masked_emb. by rewrite Hz.
  - done.
  - done.
Qed.
End wavlm_kmeans_conformer_properties.

(** ** [sampling_ids] *)

Lemma for_enumerate_raise {A B} (f : nat → A → result B) l e :
  ∀ i, for_enumerate f i l = Raise e → ∃ k x, f k x = Raise e.
Proof.
  induction l as [|x l IH]; intros i; [done|]. cbn [for_enumerate].
  destruct (f i x) as [y|e'] eqn:Hf; cbn.
  - destruct (for_enumerate f (S i) l) as [ys|e''] eqn:Hrest; cbn; [done|].
    intros [= ->]. by eapply IH.
  - intros [= ->]. eauto.
Qed.

Lemma index_raise {A} (t : list A) i e : index t i = Raise e → e = IndexError.
Proof. unfold index. destruct (t !! i); [done|]. by intros [= <-]. Qed.

Section sampling_facts.
Context {F : Type} (fltb : F → F → bool) (fadd : F → F → F) (f0 : F).
Context (fpos : F → bool) (softmax : list F → list F) (rng : nat → nat).
Context (topk_ties : list F → Z → nat → nat).

Local Abbreviation insert_desc' := (insert_desc fltb).
Local Abbreviation sort_descending' := (sort_descending fltb).
Local Abbreviation insert_topk' := (insert_topk fltb).
Local Abbreviation topk_order' := (topk_order fltb topk_ties).
Local Abbreviation topk' := (topk fltb topk_ties).
Local Abbreviation multinomial' := (multinomial f0 fpos rng).
Local Abbreviation nucleus' := (nucleus fltb fadd).
Local Abbreviation sampling_ids' :=
  (sampling_ids fltb fadd f0 fpos softmax rng topk_ties).

Lemma insert_desc_Permutation x l : insert_desc' x l ≡ₚ x :: l.
Proof.
  induction l as [|y l IH]; [done|]. cbn.
  destruct (fltb x.1 y.1); [|done]. rewrite IH. apply Permutation_swap.
Qed.

Lemma sort_descending_Permutation t :
  sort_descending' t ≡ₚ zip t (seq 0 (length t)).
Proof.
  unfold sort_descending', sort_descending.
  induction (zip t (seq 0 (length t))) as [|x l IH]; [done|].
  cbn [foldr]. by rewrite insert_desc_Permutation, IH.
Qed.

Lemma sort_descending_length t : length (sort_descending' t) = length t.
Proof.
  rewrite sort_descending_Permutation, length_zip, length_seq. lia.
Qed.

(** Every sorted entry is an entry of the tensor, next to its own index. *)
Lemma sort_descending_entry t v i :
  (v, i) ∈ sort_descending' t → t !! i = Some v.
Proof.
  rewrite sort_descending_Permutation.
  intros (k & Hk)%list_elem_of_lookup.
  apply lookup_zip_with_Some in Hk as (x & j & [= <- <-] & Hx & Hj).
  apply lookup_seq in Hj as [-> _]. done.
Qed.

Lemma insert_topk_Permutation rank x l : insert_topk' rank x l ≡ₚ x :: l.
Proof.
  induction l as [|y l IH]; [done|]. cbn.
  destruct (_ || _); [|done]. rewrite IH. apply Permutation_swap.
Qed.

(** Whatever the ranks, the order of [topk'] holds every entry of the
    tensor once, next to its index. *)
Lemma topk_order_Permutation t k :
  topk_order' t k ≡ₚ zip t (seq 0 (length t)).
Proof.
  unfold topk_order', topk_order.
  induction (zip t (seq 0 (length t))) as [|x l IH]; [done|].
  cbn [foldr]. by rewrite insert_topk_Permutation, IH.
Qed.

Lemma topk_order_length t k : length (topk_order' t k) = length t.
Proof.
  rewrite topk_order_Permutation, length_zip, length_seq. lia.
Qed.

Lemma topk_order_entry t k v i :
  (v, i) ∈ topk_order' t k → t !! i = Some v.
Proof.
  rewrite topk_order_Permutation.
  intros (n & Hn)%list_elem_of_lookup.
  apply lookup_zip_with_Some in Hn as (x & j & [= <- <-] & Hx & Hj).
  apply lookup_seq in Hj as [-> _]. done.
Qed.

(** Equal ranks leave equal values in the order of their indices: the
    stable sort. *)
Lemma insert_topk_equal_ranks rank x l :
  (∀ i j, rank i = rank j) → insert_topk' rank x l = insert_desc' x l.
Proof.
  intros Hrank. induction l as [|y l IH]; [done|]. cbn. rewrite IH.
  rewrite (bool_decide_eq_false_2 (rank y.2 < rank x.2))
    by (rewrite (Hrank y.2 x.2); lia).
  by rewrite andb_false_r, orb_false_r.
Qed.

(** Under an order on the floats in which [>=] is transitive and [<] is
    asymmetric, no entry of the sorted list is below a later one. *)
Section sorted.
Hypothesis fltb_asym : ∀ x y, fltb x y = true → fltb y x = false.
Hypothesis fgeb_trans :
  ∀ x y z, fltb x y = false → fltb y z = false → fltb x z = false.

Local Abbreviation geq' := (λ a b : F * nat, fltb a.1 b.1 = false).

Lemma insert_desc_sorted x l :
  StronglySorted geq' l → StronglySorted geq' (insert_desc' x l).
Proof.
  induction 1 as [|y l Hl IH Hy]; cbn.
  { repeat constructor. }
  destruct (fltb x.1 y.1) eqn:Hxy.
  - constructor; [done|].
    rewrite insert_desc_Permutation. constructor; [|done].
    cbn. by apply fltb_asym.
  - constructor; [by constructor|]. constructor; [done|].
    revert Hy. apply Forall_impl. intros z Hz. cbn in *.
    by eapply fgeb_trans.
Qed.

Lemma sort_descending_sorted t : StronglySorted geq' (sort_descending' t).
Proof.
  unfold sort_descending', sort_descending.
  induction (zip t (seq 0 (length t))) as [|x l IH]; cbn [foldr].
  - constructor.
  - by apply insert_desc_sorted.
Qed.

(** The first [n] entries of the stable order are not below any entry
    after them. *)
Lemma sort_descending_dominates t n a b :
  a ∈ take n (sort_descending' t) → b ∈ drop n (sort_descending' t) →
  fltb a.1 b.1 = false.
Proof.
  intros Ha Hb. pose proof (sort_descending_sorted t) as Hs.
  rewrite <-(take_drop n (sort_descending' t)) in Hs.
  by apply (StronglySorted_app_1_elem_of _ _ _ a b) in Hs.
Qed.

Lemma insert_topk_sorted rank x l :
  StronglySorted geq' l → StronglySorted geq' (insert_topk' rank x l).
Proof.
  induction 1 as [|y l Hl IH Hy]; cbn.
  { repeat constructor. }
  destruct (fltb x.1 y.1
            || negb (fltb y.1 x.1) && bool_decide (rank y.2 < rank x.2))
    eqn:Hbehind.
  - constructor; [done|].
    rewrite insert_topk_Permutation. constructor; [|done]. cbn.
    apply orb_true_iff in Hbehind as [Hxy|[Hyx _]%andb_true_iff].
    + by apply fltb_asym.
    + by apply negb_true_iff in Hyx.
  - apply orb_false_iff in Hbehind as [Hxy _].
    constructor; [by constructor|]. constructor; [done|].
    revert Hy. apply Forall_impl. intros z Hz. cbn in *.
    by eapply fgeb_trans.
Qed.

Lemma topk_order_sorted t k : StronglySorted geq' (topk_order' t k).
Proof.
  unfold topk_order', topk_order.
  induction (zip t (seq 0 (length t))) as [|x l IH]; cbn [foldr].
  - constructor.
  - by apply insert_topk_sorted.
Qed.

(** The [k] entries kept by [topk'] are not below any entry left out,
    whatever the ranks. *)
Lemma topk_dominates t k n a b :
  a ∈ take n (topk_order' t k) → b ∈ drop n (topk_order' t k) →
  fltb a.1 b.1 = false.
Proof.
  intros Ha Hb. pose proof (topk_order_sorted t k) as Hs.
  rewrite <-(take_drop n (topk_order' t k)) in Hs.
  by apply (StronglySorted_app_1_elem_of _ _ _ a b) in Hs.
Qed.

(** The first entry of an order that is not empty is not below any
    entry. *)
Lemma sorted_head_dominates (l : list (F * nat)) h rest x :
  StronglySorted geq' l → l = h :: rest → x ∈ l → fltb h.1 x.1 = false.
Proof.
  intros Hs -> [->|Hx]%elem_of_cons.
  - destruct (fltb h.1 h.1) eqn:Hhh; [|done].
    by rewrite (fltb_asym _ _ Hhh) in Hhh.
  - apply StronglySorted_inv in Hs as [_ Hall].
    by eapply list.Forall_forall in Hall.
Qed.

(** A score above all others comes first in the order of [topk'],
    whatever the ranks and [k]. *)
Lemma insert_topk_head rank (t : list F) i v l :
  t !! i = Some v →
  (∀ j w, t !! j = Some w → j ≠ i → fltb w v = true) →
  Forall (λ x, t !! x.2 = Some x.1) l → (v, i) ∈ l →
  ∃ rest, foldr (insert_topk' rank) [] l = (v, i) :: rest.
Proof.
  intros Hv Hbest. induction l as [|[w j] l IH]; intros Hall Hin.
  { by apply elem_of_nil in Hin. }
  apply Forall_cons_1 in Hall as [Hw Hall]. cbn in Hw. cbn [foldr].
  assert (fltb v v = false) as Hvv.
  { destruct (fltb v v) eqn:Hvv; [|done].
    by rewrite (fltb_asym _ _ Hvv) in Hvv. }
  assert ((v, i) ∈ l ↔ i ∈ l.*2) as Hindex.
  { split; [intros Hl; apply list_elem_of_fmap; by exists (v, i)|].
    intros ([w' i'] & -> & Hl)%list_elem_of_fmap.
    pose proof Hl as Hentry.
    eapply list.Forall_forall in Hentry; [|exact Hall]. cbn in *.
    by assert (w' = v) as -> by congruence. }
  destruct (decide (i ∈ l.*2)) as [Hl%Hindex|Hl].
  - destruct (IH Hall Hl) as [rest ->]. cbn.
    destruct (decide (j = i)) as [->|Hne].
    + assert (w = v) as -> by congruence.
      rewrite Hvv. rewrite (bool_decide_eq_false_2 (rank i < rank i)) by lia.
      cbn. eauto.
    + rewrite (Hbest j w Hw Hne). cbn. eauto.
  - apply elem_of_cons in Hin as [[= <- <-]|Hin]; [|by apply Hindex in Hin].
    destruct (foldr _ _ l) as [|[w' j'] sorted] eqn:Hsorted; [cbn; eauto|].
    assert ((w', j') ∈ l) as Hin'.
    { assert ((w', j') ∈ foldr (insert_topk' rank) [] l) as Hs
        by (rewrite Hsorted; left).
      revert Hs. clear. induction l as [|x l IH]; cbn [foldr]; [done|].
      rewrite insert_topk_Permutation.
      intros [->|?]%elem_of_cons; [left|right; by apply IH]. }
    pose proof Hin' as Hentry.
    eapply list.Forall_forall in Hentry; [|exact Hall]. cbn in Hentry.
    assert (j' ≠ i) as Hne.
    { intros ->. apply Hl, list_elem_of_fmap. by exists (w', i). }
    pose proof (Hbest j' w' Hentry Hne) as Hlt. cbn.
    rewrite (fltb_asym _ _ Hlt), Hlt. cbn. eauto.
Qed.

Lemma topk_order_head t k i v :
  t !! i = Some v →
  (∀ j w, t !! j = Some w → j ≠ i → fltb w v = true) →
  ∃ rest, topk_order' t k = (v, i) :: rest.
Proof.
  intros Hv Hbest. unfold topk_order', topk_order.
  apply (insert_topk_head _ t); [done|done| |].
  - apply list.Forall_forall. intros [w j] (n & Hn)%list_elem_of_lookup.
    apply lookup_zip_with_Some in Hn as (x & j' & [= <- <-] & Hx & Hj).
    apply lookup_seq in Hj as [-> _]. done.
  - apply list_elem_of_lookup. exists i.
    apply lookup_zip_with_Some. exists v, i. split; [done|]. split; [done|].
    apply lookup_seq. split; [done|]. by eapply lookup_lt_Some.
Qed.
End sorted.
End sampling_facts.

Section sampling_properties.
Context {F : Type} (fltb : F → F → bool) (fadd : F → F → F) (f0 : F).
Context (fpos : F → bool) (softmax : list F → list F) (rng : nat → nat).
Context (topk_ties : list F → Z → nat → nat).

Local Abbreviation sort_descending' := (sort_descending fltb).
Local Abbreviation topk_order' := (topk_order fltb topk_ties).
Local Abbreviation topk' := (topk fltb topk_ties).
Local Abbreviation multinomial' := (multinomial f0 fpos rng).
Local Abbreviation nucleus' := (nucleus fltb fadd).
Local Abbreviation sampling_ids' :=
  (sampling_ids fltb fadd f0 fpos softmax rng topk_ties).

Lemma multinomial_raise prob n st e :
  multinomial' prob n st = Raise e → e = RuntimeError.
Proof.
  unfold multinomial', multinomial.
  case_decide; [by intros [= <-]|].
  destruct (filter _ _); [by intros [= <-]|done].
Qed.

Lemma multinomial_ok prob n st :
  n ≠ 0 → Exists (λ x, fpos x = true) prob →
  ∃ ids, multinomial' prob n st = Ok (ids, st + n)
         ∧ length ids = n
         ∧ Forall (λ i, i < length prob) ids.
Proof.
  intros Hn Hpos. unfold multinomial', multinomial.
  rewrite decide_False by done.
  set (support := filter _ _).
  assert (∀ i, i ∈ support → i < length prob) as Hsup.
  { intros i [_ Hi%elem_of_seq]%list_elem_of_filter. lia. }
  assert (∃ i, i ∈ support) as [i1 H1].
  { apply list.Exists_exists in Hpos as (x & Hx & Hfx).
    apply list_elem_of_lookup in Hx as [i Hi]. exists i.
    apply list_elem_of_filter. split; [by rewrite Hi|].
    apply elem_of_seq. split; [lia|]. cbn. by eapply lookup_lt_Some. }
  destruct support as [|i0 support'] eqn:Hs; [by apply elem_of_nil in H1|].
  eexists. split; [done|]. split; [by rewrite length_fmap, length_seq|].
  apply Forall_fmap, list.Forall_forall. intros j _. cbn beta.
  unfold compose. apply Hsup.
  destruct (lookup_lt_is_Some_2 (i0 :: support')
              (rng (st + j) `mod` length (i0 :: support'))) as [i Hi].
  { apply Nat.mod_upper_bound. done. }
  rewrite Hi. cbn [default]. by eapply list_elem_of_lookup_2.
Qed.

Lemma topk_raise t k e : topk' t k = Raise e → e = RuntimeError.
Proof.
  unfold topk', topk. case_decide; [done|]. by intros [= <-].
Qed.

Lemma topk_ok t k :
  (0 ≤ k ≤ Z.of_nat (length t))%Z →
  topk' t k = Ok ((take (Z.to_nat k) (topk_order' t k)).*1,
                 (take (Z.to_nat k) (topk_order' t k)).*2).
Proof. intros H. unfold topk', topk. by rewrite decide_True. Qed.

Lemma take_indices_raise indices sids e :
  take_indices indices sids = Raise e → e = IndexError.
Proof.
  unfold take_indices. intros (k & x & H)%for_enumerate_raise.
  by apply index_raise in H.
Qed.

Lemma take_indices_ok (indices sids : list nat) :
  Forall (λ s, s < length indices) sids →
  ∃ ids, take_indices indices sids = Ok ids
         ∧ length ids = length sids
         ∧ Forall (λ i, i ∈ indices) ids.
Proof.
  intros Hs. unfold take_indices.
  destruct (for_enumerate_pointwise (λ _ s, index indices s)
              (λ _ _ y, y ∈ indices) sids 0) as (ids & Hids & Hlen & Hall).
  { intros k s Hk. pose proof (Forall_lookup_1 _ _ _ _ Hs Hk) as Hlt.
    destruct (lookup_lt_is_Some_2 indices s Hlt) as [y Hy].
    exists y. split; [by apply index_ok|]. by eapply list_elem_of_lookup_2. }
  exists ids. split; [done|]. split; [done|].
  apply Forall_lookup_2. intros k y Hy.
  destruct (lookup_lt_is_Some_2 sids k) as [s Hsk].
  { rewrite <-Hlen. by eapply lookup_lt_Some. }
  destruct (Hall k s Hsk) as (y' & Hy' & Hin). by simplify_eq.
Qed.

(** The entries kept by the nucleus' loop are a prefix of the sorted ones,
    the shortest whose accumulated probability is not below [p] (all of
    them when it stays below). *)
Lemma nucleus_prefix p : ∀ sorted cum,
  ∃ n, n ≤ length sorted
       ∧ nucleus' p cum sorted = take n sorted
       ∧ (fltb cum p = true → sorted ≠ [] → 1 ≤ n)
       ∧ (∀ m, m < n → fltb (foldl fadd cum (take m sorted).*1) p = true)
       ∧ (n < length sorted →
          fltb (foldl fadd cum (take n sorted).*1) p = false).
Proof.
  induction sorted as [|[v i] rest IH]; intros cum.
  { exists 0. cbn. split_and!; try done; lia. }
  cbn [nucleus]. destruct (fltb cum p) eqn:Hcum.
  - destruct (IH (fadd cum v)) as (n & Hn & Hk & _ & Hbelow & Hstop).
    exists (S n). cbn [take length]. rewrite Hk.
    split_and!; [lia|done|lia| |].
    + intros [|m] Hm; cbn; [done|]. apply Hbelow. lia.
    + intros Hlt. cbn. apply Hstop. lia.
  - exists 0. cbn. split_and!; try done; lia.
Qed.
End sampling_properties.

Section sampling_ids_claim.
Context {F : Type} (fltb : F → F → bool) (fadd : F → F → F) (f0 : F).
Context (fpos : F → bool) (softmax : list F → list F) (rng : nat → nat).
Context (topk_ties : list F → Z → nat → nat).

Local Abbreviation sort_descending' := (sort_descending fltb).
Local Abbreviation sampling_ids' :=
  (sampling_ids fltb fadd f0 fpos softmax rng topk_ties).

(** The largest of the probabilities is positive when one of them is, and
    it is among the entries kept as soon as one entry is kept. *)
Lemma largest_positive (probs : list F) (sorted : list (F * nat)) n :
  float_order fltb fpos →
  sorted ≡ₚ zip probs (seq 0 (length probs)) →
  StronglySorted (λ a b : F * nat, fltb a.1 b.1 = false) sorted →
  Exists (λ x, fpos x = true) probs → 1 ≤ n →
  Exists (λ x, fpos x = true) (take n sorted).*1.
Proof.
  intros (Hasym & Htrans & Hpos) Hperm Hsorted Hex Hn.
  apply list.Exists_exists in Hex as (x & Hx & Hfx).
  apply list_elem_of_lookup in Hx as [i Hi].
  assert ((x, i) ∈ sorted) as Hin.
  { rewrite Hperm. apply list_elem_of_lookup. exists i.
    apply lookup_zip_with_Some. exists x, i. split; [done|]. split; [done|].
    apply lookup_seq. split; [done|]. by eapply lookup_lt_Some. }
  destruct sorted as [|h rest] eqn:Hs; [by apply elem_of_nil in Hin|].
  destruct n as [|n]; [lia|]. cbn. left.
  apply (Hpos x); [done|].
  by apply (sorted_head_dominates fltb Hasym (h :: rest) h rest (x, i)).
Qed.

Lemma sampling_ids_not_implemented ws sampling beam_size st :
  sampling_ids' ws sampling beam_size st = Raise NotImplementedError
  ↔ sampling = SamplingOther.
Proof.
  split; [|by intros ->].
  unfold sampling_ids', sampling_ids.
  destruct sampling as [[|]|k|p|]; [| | | |done].
  - by intros ?%multinomial_raise.
  - destruct (topk _ _ _) as [[? ?]|e] eqn:Ht; cbn; [done|].
    intros [= ->]. by apply topk_raise in Ht.
  - destruct (topk _ _ _) as [[prob indices]|e] eqn:Ht; cbn.
    2:{ intros [= ->]. by apply topk_raise in Ht. }
    destruct (multinomial _ _ _ _ _ _) as [[sids st']|e] eqn:Hm; cbn.
    2:{ intros [= ->]. by apply multinomial_raise in Hm. }
    destruct (take_indices _ _) as [ids|e] eqn:Hi; cbn; [done|].
    intros [= ->]. by apply take_indices_raise in Hi.
  - cbn zeta.
    destruct (multinomial _ _ _ _ _ _) as [[sids st']|e] eqn:Hm; cbn.
    2:{ intros [= ->]. by apply multinomial_raise in Hm. }
    destruct (take_indices _ _) as [ids|e] eqn:Hi; cbn; [done|].
    intros [= ->]. by apply take_indices_raise in Hi.
Qed.

(** C4, as the code has it.  [sampling_ids'] raises [NotImplementedError]
    exactly when [sampling] is neither a bool, an int nor a float.  On
    scores that are not empty it returns [beam_size] indices: drawn from
    all of them for [True] and [beam_size >= 1], one softmax probability at
    least being positive; the first [beam_size] of the order of [topk] for
    [False] and [beam_size] within the number of scores; and, the floats
    being ordered and one softmax probability positive, drawn from the [k]
    entries of largest softmax probability for an int [1 <= k <= size] and
    [beam_size >= 1], and drawn, for a float [p > 0.0] and
    [beam_size >= 1], from the shortest prefix of the stable descending
    order whose accumulated probability is not below [p] (the whole order
    when it never is).  The order of [topk] holds every entry of the
    tensor once, and its first [n] entries are not below any later one,
    whichever of several equal values the library puts first; so it is with
    the stable order. *)
Theorem sampling_ids_by_type ws sampling beam_size st :
  let returned :=
    sampling_ids fltb fadd f0 fpos softmax rng topk_ties ws sampling
      beam_size st in
  let descending := sort_descending fltb in
  let largest t k := take (Z.to_nat k) (topk_order fltb topk_ties t k) in
  (returned = Raise NotImplementedError
   ↔ sampling = SamplingOther)
  ∧ (ws ≠ [] → length (softmax ws) = length ws →
     match sampling with
     | SamplingBool true =>
         1 ≤ beam_size → Exists (λ x, fpos x = true) (softmax ws) →
         ∃ ids st', returned = Ok (ids, st')
                    ∧ length ids = beam_size
                    ∧ Forall (λ i, i < length ws) ids
     | SamplingBool false =>
         beam_size ≤ length ws →
         returned
         = Ok ((largest ws (Z.of_nat beam_size)).*2, st)
         ∧ length (largest ws (Z.of_nat beam_size)).*2 = beam_size
     | SamplingInt k =>
         1 ≤ beam_size → (1 ≤ k ≤ Z.of_nat (length ws))%Z →
         Exists (λ x, fpos x = true) (softmax ws) → float_order fltb fpos →
         ∃ ids st', returned = Ok (ids, st')
                    ∧ length ids = beam_size
                    ∧ Forall (λ i, i ∈ (largest (softmax ws) k).*2) ids
     | SamplingFloat p =>
         1 ≤ beam_size → fltb f0 p = true →
         Exists (λ x, fpos x = true) (softmax ws) → float_order fltb fpos →
         let sorted := descending (softmax ws) in
         ∃ ids st' n,
           returned = Ok (ids, st')
           ∧ length ids = beam_size
           ∧ 1 ≤ n ≤ length ws
           ∧ Forall (λ i, i ∈ (take n sorted).*2) ids
           ∧ (∀ m, m < n →
                fltb (foldl fadd f0 (take m sorted).*1) p = true)
           ∧ (n < length ws →
              fltb (foldl fadd f0 (take n sorted).*1) p = false)
     | SamplingOther => True
     end)
  ∧ (∀ t k,
       topk_order fltb topk_ties t k ≡ₚ zip t (seq 0 (length t))
       ∧ descending t ≡ₚ zip t (seq 0 (length t)))
  ∧ ((∀ x y, fltb x y = true → fltb y x = false) →
     (∀ x y z, fltb x y = false → fltb y z = false → fltb x z = false) →
     ∀ t k n a b,
       (a ∈ take n (topk_order fltb topk_ties t k) →
        b ∈ drop n (topk_order fltb topk_ties t k) → fltb a.1 b.1 = false)
       ∧ (a ∈ take n (descending t) → b ∈ drop n (descending t) →
          fltb a.1 b.1 = false)).
Proof.
  intros returned descending largest. subst returned descending largest.
  split; [apply sampling_ids_not_implemented|].
  split; [|split].
  2:{ intros t k. split;
        [apply topk_order_Permutation|apply sort_descending_Permutation]. }
  2:{ intros Hasym Htrans t k n a b. split; intros Ha Hb.
      - by eapply topk_dominates.
      - by eapply sort_descending_dominates. }
  intros Hne Hlen.
  assert (softmax ws ≠ []) as Hsne.
  { intros Heq. rewrite Heq in Hlen. by destruct ws. }
  unfold sampling_ids', sampling_ids.
  destruct sampling as [[|]|k|p|]; [| | | |done].
  - intros Hb Hpos.
    destruct (multinomial_ok f0 fpos rng (softmax ws) beam_size st)
      as (ids & Hm & Hl & Hlt); [lia|done|].
    exists ids, (st + beam_size). rewrite Hlen in Hlt. done.
  - intros Hb. rewrite topk_ok by lia. cbn. rewrite Nat2Z.id.
    split; [done|].
    rewrite length_fmap, length_take, topk_order_length. lia.
  - intros Hb Hk Hpos Hord. rewrite topk_ok by lia. cbn [mbind result_bind].
    set (top := take (Z.to_nat k) (topk_order fltb topk_ties (softmax ws) k)).
    assert (length top = Z.to_nat k) as Htop.
    { subst top. rewrite length_take, topk_order_length. lia. }
    destruct (multinomial_ok f0 fpos rng top.*1 beam_size st)
      as (sids & Hm & Hl & Hlt); [lia| |].
    { subst top. apply (largest_positive (softmax ws)); [done| | |done|lia].
      - apply topk_order_Permutation.
      - destruct Hord as (Hasym & Htrans & _). by apply topk_order_sorted. }
    rewrite Hm. cbn [mbind result_bind].
    destruct (take_indices_ok top.*2 sids) as (ids & Hi & Hil & Hin).
    { by rewrite length_fmap, <-(length_fmap fst). }
    rewrite Hi. cbn. exists ids, (st + beam_size).
    split; [done|]. split; [lia|done].
  - intros Hb Hp Hpos Hord. cbn zeta.
    destruct (nucleus_prefix fltb fadd p (sort_descending' (softmax ws)) f0)
      as (n & Hn & Hk & Hn1 & Hbelow & Hstop).
    rewrite sort_descending_length, Hlen in Hn, Hstop.
    assert (1 ≤ n) as Hn1'.
    { apply Hn1; [done|]. intros Heq%(f_equal length).
      rewrite sort_descending_length, Hlen in Heq. by destruct ws. }
    rewrite Hk.
    set (kept := take n (sort_descending' (softmax ws))).
    assert (length kept = n) as Hkept.
    { subst kept. rewrite length_take, sort_descending_length. lia. }
    destruct (multinomial_ok f0 fpos rng kept.*1 beam_size st)
      as (sids & Hm & Hl & Hlt); [lia| |].
    { subst kept. apply (largest_positive (softmax ws)); [done| | |done|lia].
      - apply sort_descending_Permutation.
      - destruct Hord as (Hasym & Htrans & _).
        by apply sort_descending_sorted. }
    rewrite Hm. cbn [mbind result_bind].
    destruct (take_indices_ok kept.*2 sids) as (ids & Hi & Hil & Hin).
    { by rewrite length_fmap, <-(length_fmap fst). }
    rewrite Hi. cbn. exists ids, (st + beam_size), n.
    split_and!; try done; lia.
Qed.
End sampling_ids_claim.

(** ** [decode_codec] *)

(** Case analysis on the computation at the head of a chain of binds; the
    case in which it raises is closed when the goal assumes a result. *)
Ltac case_bind x H :=
  match goal with
  | |- context [mbind _ ?m] =>
      destruct m as [x|] eqn:H; [cbn [mbind result_bind]|done]
  end.

Lemma py_last_ok {A} (l : list A) x : py_last l = Ok x ↔ list.last l = Some x.
Proof.
  unfold py_last. destruct (list.last l); split; intros H; by simplify_eq.
Qed.

Section decode_codec_facts.
Context {E F : Type} (zero_emb : E) (lm_embedding kmeans_emb : Z → E).
Context (codebook_size : Z) (predict_nq : nat).
Context (fltb : F → F → bool) (fadd : F → F → F) (f0 : F) (fpos : F → bool).
Context (softmax : list F → list F) (rng : nat → nat).
Context (topk_ties : list F → Z → nat → nat).
Context (codec_lm_score : list E → list E → list (list F)).

Local Abbreviation eos' := (eos_id codebook_size).
Local Abbreviation sample_group' :=
  (sample_group fltb fadd f0 fpos softmax rng topk_ties).
Local Abbreviation decode_step' :=
  (decode_step zero_emb lm_embedding kmeans_emb codebook_size predict_nq
     fltb fadd f0 fpos softmax rng topk_ties codec_lm_score).
Local Abbreviation decode_loop' :=
  (decode_loop zero_emb lm_embedding kmeans_emb codebook_size predict_nq
     fltb fadd f0 fpos softmax rng topk_ties codec_lm_score).
Local Abbreviation strip_trailing_eos' := (strip_trailing_eos codebook_size).

Lemma sample_group_length pred sampling beam_size n :
  ∀ k st ids st',
    sample_group' pred sampling beam_size k n st = Ok (ids, st') →
    length ids = n.
Proof.
  induction n as [|n IH]; intros k st ids st'; cbn [sample_group].
  { by intros [= <- <-]. }
  destruct (index pred k) as [row|]; [|done]. cbn [mbind result_bind].
  destruct (sampling_ids _ _ _ _ _ _ _ _ _ _) as [[top st1]|]; [|done]. cbn [mbind result_bind].
  destruct (index top 0) as [id0|]; [|done]. cbn [mbind result_bind].
  destruct (sample_group' _ _ _ _ _ _) as [[rest st2]|] eqn:Hrest; [|done].
  cbn. intros [= <- <-]. cbn. f_equal. by eapply IH.
Qed.

Lemma decode_step_appends text text_lengths prompt sampling beam_size
    codec_prompt out_tokens st out' st' :
  decode_step' text text_lengths prompt sampling beam_size codec_prompt
    out_tokens st = Ok (out', st') →
  ∃ group, out' = out_tokens ++ [group] ∧ length group = predict_nq.
Proof.
  unfold decode_step.
  destruct (build_llm_io _ _ _ _ _ _ _ _ _ _) as [io|]; [|done]. cbn [mbind result_bind].
  destruct (index (io_inputs io) 0) as [seq0|]; [|done]. cbn [mbind result_bind].
  destruct (index prompt 0) as [prompt0|]; [|done]. cbn [mbind result_bind].
  destruct (sample_group' _ _ _ _ _ _) as [[ids st1]|] eqn:Hs; [|done]. cbn [mbind result_bind].
  intros [= <- <-]. exists ids. split; [done|].
  by eapply sample_group_length.
Qed.

(** What a run of the loop that completes has done. *)
Lemma decode_loop_run text text_lengths prompt sampling beam_size max_length :
  ∀ out_tokens st out' st',
    decode_loop' max_length text text_lengths prompt sampling beam_size
      out_tokens st = Ok (out', st') →
    ∃ new,
      out' = out_tokens ++ new
      ∧ length new ≤ max_length
      ∧ Forall (λ group, length group = predict_nq) new
      ∧ (∀ j group, length out_tokens ≤ S j → S j < length out' →
           out' !! j = Some group → has_eos eos' group = false)
      ∧ (length new < max_length →
         ∃ group, list.last out' = Some group ∧ has_eos eos' group = true).
Proof.
  induction max_length as [|n IH]; intros out st out' st'; cbn [decode_loop].
  { intros [= <- <-]. exists []. rewrite app_nil_r. cbn.
    split_and!; try done; lia. }
  case_bool_decide as Hlen.
  - destruct (tensor_of_groups out) as [cp|]; [|done]. cbn [mbind result_bind].
    destruct (py_last out) as [lg|] eqn:Hlast; [|done]. cbn [mbind result_bind].
    apply py_last_ok in Hlast.
    destruct (has_eos eos' lg) eqn:Heos.
    + intros [= <- <-]. exists []. rewrite app_nil_r. cbn.
      split_and!; [done|lia|done|lia|eauto].
    + case_bind r Hstep. destruct r as [out1 st1].
      apply decode_step_appends in Hstep as (g & -> & Hg).
      intros (new & -> & Hn & Hall & Hfollowed & Hearly)%IH.
      exists (g :: new). rewrite <-(assoc_L (++)). cbn.
      split_and!; [done|lia|by constructor| |].
      * intros j gr Hj1 Hj2 Hgr.
        destruct (decide (S j = length out)) as [Heq|Hne].
        -- rewrite last_lookup in Hlast.
           rewrite lookup_app_l in Hgr by lia.
           replace (pred (length out)) with j in Hlast by lia. congruence.
        -- apply (Hfollowed j gr).
           ++ rewrite length_app. cbn. lia.
           ++ by rewrite <-(assoc_L (++)).
           ++ by rewrite <-(assoc_L (++)).
      * intros Hlt. rewrite <-(assoc_L (++)) in Hearly. apply Hearly. lia.
  - case_bind r Hstep. destruct r as [out1 st1].
    apply decode_step_appends in Hstep as (g & -> & Hg).
    intros (new & -> & Hn & Hall & Hfollowed & Hearly)%IH.
    exists (g :: new). rewrite <-(assoc_L (++)). cbn.
    split_and!; [done|lia|by constructor| |].
    + intros j gr Hj1 Hj2 Hgr. apply (Hfollowed j gr).
      * rewrite length_app. cbn. lia.
      * by rewrite <-(assoc_L (++)).
      * by rewrite <-(assoc_L (++)).
    + intros Hlt. rewrite <-(assoc_L (++)) in Hearly. apply Hearly. lia.
Qed.

Lemma strip_trailing_eos_clean out_tokens out' :
  (∀ j group, S j < length out_tokens → out_tokens !! j = Some group →
     has_eos eos' group = false) →
  strip_trailing_eos' out_tokens = Ok out' →
  Forall (λ group, has_eos eos' group = false) out'.
Proof.
  intros Hbefore. unfold strip_trailing_eos.
  destruct (py_last out_tokens) as [lg|] eqn:Hlast; [|done]. cbn [mbind result_bind].
  apply py_last_ok in Hlast. rewrite last_lookup in Hlast.
  destruct (has_eos eos' lg) eqn:Heos; intros [= <-].
  - apply Forall_lookup_2. intros j g Hg.
    apply lookup_take_Some in Hg as [Hg Hj]. apply (Hbefore j g); [lia|done].
  - apply Forall_lookup_2. intros j g Hg.
    destruct (decide (S j < length out_tokens)) as [Hlt|Hge].
    + by apply (Hbefore j g).
    + apply lookup_lt_Some in Hg as Hj.
      replace (pred (length out_tokens)) with j in Hlast by lia. congruence.
Qed.
(** A sampler that succeeds on every row of scores the language model
    produces, with a batch of one example, makes every iteration succeed. *)
Lemma tensor_of_groups_single out_tokens :
  out_tokens ≠ [] → Forall (λ group : list Z, length group = 1) out_tokens →
  tensor_of_groups out_tokens = Ok (CodecTensor 1 [out_tokens]).
Proof.
  intros Hne Hall. unfold tensor_of_groups.
  destruct out_tokens as [|g rest]; [done|].
  apply Forall_cons_1 in Hall as Hg. destruct Hg as [Hg _].
  rewrite Hg.
  replace (forallb _ (g :: rest)) with true; [done|].
  symmetry. apply forallb_forall. intros h Hh%list_elem_of_In.
  apply bool_decide_eq_true. by eapply list.Forall_forall in Hall.
Qed.

Lemma decode_step_completes row tl prompt0 prompt sampling beam_size
    out_tokens st :
  predict_nq = 1 → tl ≤ length row →
  Forall (λ group : list Z, length group = 1) out_tokens →
  (∀ seq_input st,
     is_ok (sample_group' (codec_lm_score seq_input prompt0) sampling
              beam_size 0 1 st) = true) →
  ∃ group st',
    decode_step' [row] [tl] (prompt0 :: prompt) sampling beam_size
      (if bool_decide (0 < length out_tokens)
       then Some (CodecTensor 1 [out_tokens]) else None)
      out_tokens st
    = Ok (out_tokens ++ [group], st')
    ∧ length group = 1.
Proof.
  intros Hnq Htl Hall Hsample. unfold decode_step.
  assert (∃ inp lens,
            build_llm_io zero_emb lm_embedding kmeans_emb codebook_size
              predict_nq [row] [tl]
              (if bool_decide (0 < length out_tokens)
               then Some (CodecTensor 1 [out_tokens]) else None)
              (match (if bool_decide (0 < length out_tokens)
                      then Some (CodecTensor 1 [out_tokens]) else None) with
               | Some _ => Some [length out_tokens]
               | None => None
               end) false
            = Ok (LlmInputs inp lens) ∧ length inp = 1)
    as (inp & lens & -> & Hinp).
  { unfold build_llm_io. case_bool_decide.
    - rewrite (build_llm_inputs_some zero_emb lm_embedding kmeans_emb [row]
                 [tl] (CodecTensor 1 [out_tokens]) [length out_tokens] false);
        [|done|by repeat constructor|done|by repeat constructor|done].
      cbn [mbind result_bind negb]. eexists _, _. split; [done|].
      by rewrite length_fmap, length_imap.
    - rewrite (build_llm_inputs_none zero_emb lm_embedding kmeans_emb [row]
                 [tl]); [|done|by repeat constructor].
      cbn [mbind result_bind negb]. eexists _, _. split; [done|].
      by rewrite length_fmap, length_imap. }
  cbn [mbind result_bind io_inputs].
  destruct inp as [|seq0 inp]; [done|]. cbn [index lookup list_lookup].
  cbn [mbind result_bind].
  specialize (Hsample seq0 st). rewrite Hnq.
  destruct (sample_group' _ _ _ _ _ _) as [[ids st1]|] eqn:Hs; [|done].
  cbn [mbind result_bind]. exists ids, st1. split; [done|].
  by eapply sample_group_length.
Qed.

Lemma decode_loop_completes row tl prompt0 prompt sampling beam_size
    max_length :
  predict_nq = 1 → tl ≤ length row →
  (∀ seq_input st,
     is_ok (sample_group' (codec_lm_score seq_input prompt0) sampling
              beam_size 0 1 st) = true) →
  ∀ out_tokens st,
    Forall (λ group : list Z, length group = 1) out_tokens →
    ∃ out' st',
      decode_loop' max_length [row] [tl] (prompt0 :: prompt) sampling
        beam_size out_tokens st = Ok (out', st')
      ∧ Forall (λ group : list Z, length group = 1) out'.
Proof.
  intros Hnq Htl Hsample.
  induction max_length as [|n IH]; intros out st Hall; cbn [decode_loop].
  { eauto. }
  destruct (decode_step_completes row tl prompt0 prompt sampling beam_size
              out st Hnq Htl Hall Hsample) as (g & st1 & Hstep & Hg).
  case_bool_decide as Hlen.
  - rewrite tensor_of_groups_single; [|intros ->; cbn in Hlen; lia|done].
    cbn [mbind result_bind].
    destruct (py_last out) as [lg|] eqn:Hlast.
    2:{ unfold py_last in Hlast.
        destruct out as [|? ? _] using rev_ind; [cbn in Hlen; lia|].
        by rewrite last_snoc in Hlast. }
    cbn [mbind result_bind]. destruct (has_eos eos' lg); [eauto|].
    rewrite Hstep. cbn [mbind result_bind]. apply IH.
    apply Forall_app. split; [done|]. by repeat constructor.
  - rewrite Hstep. cbn [mbind result_bind]. apply IH.
    apply Forall_app. split; [done|]. by repeat constructor.
Qed.

(** With the default lengths, one quantizer and a sampler that succeeds,
    a call reaches its final [return] statement. *)
Lemma decode_codec_reaches_return text aux continual sampling beam_size
    max_length st :
  predict_nq = 1 → 1 ≤ max_length →
  (∀ c, continual = Some c → Forall (λ group : list Z, length group = 1) c) →
  (∀ seq_input prompt st,
     is_ok (sample_group' (codec_lm_score seq_input prompt) sampling
              beam_size 0 1 st) = true) →
  ∃ out_tokens st',
    is_ok (tensor_of_groups out_tokens) = true
    ∧ decode_codec zero_emb lm_embedding kmeans_emb codebook_size predict_nq
        fltb fadd f0 fpos softmax rng topk_ties codec_lm_score text aux None None
        max_length sampling beam_size continual st
      = (res ← decode_return ((λ a, [a]) <$> aux) out_tokens; Ok (res, st')).
Proof.
  intros Hnq Hmax Hcont Hsample. unfold decode_codec, decode_text_lengths.
  assert (Forall (λ group : list Z, length group = 1) (default [] continual))
    as Hall.
  { destruct continual as [c|]; [by apply Hcont|constructor]. }
  set (row := match aux with Some a => a ++ text | None => text end).
  assert (match aux with
          | Some aux0 => (Some [aux0], zip_with app [aux0] [text])
          | None => (None, [text])
          end = ((λ a, [a]) <$> aux, [row])) as -> by by destruct aux.
  cbn [decode_prompt zip_with mbind result_bind size1].
  destruct (decode_loop_completes row (length row)
              ([lm_embedding sos_eos] ++ row ++ [lm_embedding task_id]) []
              sampling beam_size max_length
              Hnq (le_n _) (λ seq_input, Hsample seq_input _)
              (default [] continual) st Hall)
    as (out & st1 & Hrun & Hout).
  rewrite Hrun. cbn [mbind result_bind].
  apply decode_loop_run in Hrun as (new & Heq & _ & _ & _ & Hearly).
  assert (∃ g, list.last out = Some g) as [g Hlast].
  { subst out. destruct new as [|g0 new _] using rev_ind.
    - destruct Hearly as (g & ? & _); [cbn; lia|]. eauto.
    - rewrite (assoc_L (++)), last_snoc. eauto. }
  unfold strip_trailing_eos. apply py_last_ok in Hlast. rewrite Hlast.
  cbn [mbind result_bind].
  set (out2 := if has_eos eos' g then take (length out - 1) out else out).
  assert (Forall (λ group : list Z, length group = 1) out2) as Hout2.
  { subst out2. destruct (has_eos eos' g); [by apply Forall_take|done]. }
  exists out2, st1. split; [|done].
  destruct out2 as [|g2 rest] eqn:Hout2eq; [done|].
  by rewrite tensor_of_groups_single.
Qed.

Lemma decode_codec_completes text aux continual sampling beam_size
    max_length st :
  predict_nq = 1 → 1 ≤ max_length →
  (∀ c, continual = Some c → Forall (λ group : list Z, length group = 1) c) →
  (∀ seq_input prompt st,
     is_ok (sample_group' (codec_lm_score seq_input prompt) sampling
              beam_size 0 1 st) = true) →
  ∃ res st',
    decode_codec zero_emb lm_embedding kmeans_emb codebook_size predict_nq
      fltb fadd f0 fpos softmax rng topk_ties codec_lm_score text (Some aux) None None
      max_length sampling beam_size continual st
    = Ok (res, st').
Proof.
  intros Hnq Hmax Hcont Hsample.
  destruct (decode_codec_reaches_return text (Some aux) continual sampling
              beam_size max_length st Hnq Hmax Hcont Hsample)
    as (out & st' & Hok & ->).
  unfold decode_return. destruct (tensor_of_groups out); [|done].
  cbn. eauto.
Qed.

Lemma decode_codec_attribute_error text continual sampling beam_size
    max_length st :
  predict_nq = 1 → 1 ≤ max_length →
  (∀ c, continual = Some c → Forall (λ group : list Z, length group = 1) c) →
  (∀ seq_input prompt st,
     is_ok (sample_group' (codec_lm_score seq_input prompt) sampling
              beam_size 0 1 st) = true) →
  decode_codec zero_emb lm_embedding kmeans_emb codebook_size predict_nq
    fltb fadd f0 fpos softmax rng topk_ties codec_lm_score text None None None
    max_length sampling beam_size continual st
  = Raise AttributeError.
Proof.
  intros Hnq Hmax Hcont Hsample.
  destruct (decode_codec_reaches_return text None continual sampling
              beam_size max_length st Hnq Hmax Hcont Hsample)
    as (out & st' & Hok & ->).
  unfold decode_return. by destruct (tensor_of_groups out).
Qed.

End decode_codec_facts.

Lemma has_eos_false eos group : has_eos eos group = false ↔ eos ∉ group.
Proof.
  unfold has_eos. rewrite <-not_true_iff_false, existsb_exists.
  split; intros H.
  - intros Hin. apply H. exists eos. rewrite <-list_elem_of_In.
    by rewrite bool_decide_eq_true.
  - intros (t & Ht%list_elem_of_In & Heq%bool_decide_eq_true). by subst.
Qed.

Lemma has_eos_true eos group : has_eos eos group = true ↔ eos ∈ group.
Proof.
  destruct (has_eos eos group) eqn:H.
  - split; [intros _|done]. apply dec_stable. intros Hn.
    apply has_eos_false in Hn. congruence.
  - apply has_eos_false in H. split; [done|]. by intros ?.
Qed.

Section decode_codec_properties.
Context {E F : Type} (zero_emb : E) (lm_embedding kmeans_emb : Z → E).
Context (codebook_size : Z) (predict_nq : nat).
Context (fltb : F → F → bool) (fadd : F → F → F) (f0 : F) (fpos : F → bool).
Context (softmax : list F → list F) (rng : nat → nat).
Context (topk_ties : list F → Z → nat → nat).
Context (codec_lm_score : list E → list E → list (list F)).

Local Abbreviation eos' := (eos_id codebook_size).
Local Abbreviation decode_loop' :=
  (decode_loop zero_emb lm_embedding kmeans_emb codebook_size predict_nq
     fltb fadd f0 fpos softmax rng topk_ties codec_lm_score).
Local Abbreviation decode_codec' :=
  (decode_codec zero_emb lm_embedding kmeans_emb codebook_size predict_nq
     fltb fadd f0 fpos softmax rng topk_ties codec_lm_score).
Local Abbreviation strip_trailing_eos' := (strip_trailing_eos codebook_size).
Local Abbreviation decode_return' := (decode_return (E := E)).
Local Abbreviation decode_prompt' := (decode_prompt lm_embedding).

(** C3, as the code has it.  A run of the loop appends at most [max_length]
    groups, each of [predict_nq] token ids; no group is appended after one
    that holds the end id, and the loop stops before [max_length] only on
    such a group.  The tokens returned hold no end id, provided [continual],
    when given, holds none before its last group.  And tokens are returned:
    with one quantizer, an auxiliary prefix, the default lengths and a
    sampler that succeeds on the scores of the language model, the call
    completes. *)
Theorem decode_codec_stops_at_eos max_length sampling beam_size :
  (∀ text text_lengths prompt out_tokens st out' st',
     decode_loop' max_length text text_lengths prompt sampling beam_size
       out_tokens st = Ok (out', st') →
     ∃ new,
       out' = out_tokens ++ new
       ∧ length new ≤ max_length
       ∧ Forall (λ group, length group = predict_nq) new
       ∧ (∀ j group, length out_tokens ≤ S j → S j < length out' →
            out' !! j = Some group → eos' ∉ group)
       ∧ (length new < max_length →
          ∃ group, list.last out' = Some group ∧ eos' ∈ group))
  ∧ (∀ text aux text_lengths aux_lengths continual st res st',
       (∀ c j group, continual = Some c → S j < length c →
          c !! j = Some group → eos' ∉ group) →
       decode_codec' text aux text_lengths aux_lengths max_length sampling
         beam_size continual st = Ok (res, st') →
       Forall (Forall (λ group, eos' ∉ group)) res)
  ∧ (∀ text aux continual st,
       predict_nq = 1 → 1 ≤ max_length →
       (∀ c, continual = Some c → Forall (λ group, length group = 1) c) →
       (∀ seq_input prompt st,
          is_ok (sample_group fltb fadd f0 fpos softmax rng topk_ties
                   (codec_lm_score seq_input prompt) sampling beam_size 0 1
                   st) = true) →
       ∃ res st',
         decode_codec' text (Some aux) None None max_length sampling
           beam_size continual st = Ok (res, st')).
Proof.
  split; [|split; [|intros; by apply decode_codec_completes]].
  - intros text tls prompt out st out' st' Hrun.
    apply decode_loop_run in Hrun as (new & -> & Hn & Hall & Hfol & Hearly).
    exists new. split_and!; [done..| |].
    + intros j g ? ? ?. apply has_eos_false. by eapply Hfol.
    + intros Hlt. destruct (Hearly Hlt) as (g & ? & ?%has_eos_true). eauto.
  - intros text aux tls als continual st res st' Hcont. unfold decode_codec.
    set (aux_text := match aux with
                     | Some a => (Some [a], zip_with app [a] [text])
                     | None => (None, [text])
                     end).
    destruct aux_text as [aux1 text1].
    case_bind tls' Htl. case_bind r Hrun. destruct r as [out st1].
    case_bind out2 Hstrip. case_bind res' Hret. intros [= <- <-].
    apply decode_loop_run in Hrun as (new & -> & _ & _ & Hfol & _).
    assert (Forall (λ g, has_eos eos' g = false) out2) as Hclean.
    { eapply strip_trailing_eos_clean; [|done]. intros j g Hj Hg.
      destruct (decide (S j < length (default [] continual))) as [Hlt|Hge].
      - destruct continual as [c|]; [|cbn in Hlt; lia]. cbn in *.
        rewrite lookup_app_l in Hg by lia.
        apply has_eos_false. by eapply (Hcont c j g).
      - apply (Hfol j g); [lia|done..]. }
    unfold decode_return in Hret.
    destruct (tensor_of_groups out2); [|done]. cbn in Hret.
    destruct aux1 as [aux0|]; [|done]. injection Hret as <-.
    constructor; [|done]. apply Forall_drop.
    revert Hclean. apply Forall_impl. intros g. apply has_eos_false.
Qed.

(** C9, as the code has it.  Without [aux] no call of [decode_codec]
    returns, whatever [max_length] and the other arguments are, and the
    final [return] statement fails on every list of tokens; with
    [max_length >= 1], once the lengths are computed and the
    loop has completed, the trailing-group removal succeeds and the call
    fails in its final [return] statement, where [aux.size(1)] is evaluated
    on [None] whatever the tokens are.  This is what happens with the
    default lengths, one quantizer and a sampler that succeeds: the call
    ends in [AttributeError]. *)
Theorem decode_codec_without_aux_fails text text_lengths aux_lengths
    max_length sampling beam_size continual st :
  (∃ e, decode_codec' text None text_lengths aux_lengths max_length sampling
          beam_size continual st = Raise e)
  ∧ (∀ out_tokens,
       ∃ e, decode_return' None out_tokens = Raise e
            ∧ (is_ok (tensor_of_groups out_tokens) = true
               → e = AttributeError))
  ∧ (1 ≤ max_length →
     ∀ lengths out_tokens st',
       decode_text_lengths [text] text_lengths aux_lengths = Ok lengths →
       decode_loop' max_length [text] lengths (decode_prompt' [text])
         sampling beam_size (default [] continual) st
       = Ok (out_tokens, st') →
       ∃ out' e,
         strip_trailing_eos' out_tokens = Ok out'
         ∧ decode_return' None out' = Raise e
         ∧ decode_codec' text None text_lengths aux_lengths max_length
             sampling beam_size continual st = Raise e)
  ∧ (1 ≤ max_length → predict_nq = 1 →
     (∀ c, continual = Some c → Forall (λ group, length group = 1) c) →
     (∀ seq_input prompt st,
        is_ok (sample_group fltb fadd f0 fpos softmax rng topk_ties
                 (codec_lm_score seq_input prompt) sampling beam_size 0 1
                 st) = true) →
     decode_codec' text None None None max_length sampling beam_size
       continual st = Raise AttributeError).
Proof.
  rewrite (assoc (∧)), (assoc (∧)).
  split; [rewrite <-!(assoc (∧))|intros; by apply decode_codec_attribute_error].
  assert (∀ out_tokens,
            ∃ e, decode_return' None out_tokens = Raise e
                 ∧ (is_ok (tensor_of_groups out_tokens) = true
                    → e = AttributeError)) as Hreturn.
  { intros out. unfold decode_return.
    destruct (tensor_of_groups out); cbn; eauto. by eexists. }
  split; [|split; [done|]].
  - unfold decode_codec.
    destruct (decode_text_lengths _ _ _) as [tls|]; cbn; [|eauto].
    destruct (decode_loop' _ _ _ _ _ _ _ _) as [[out st1]|]; cbn; [|eauto].
    destruct (strip_trailing_eos' out) as [out2|]; cbn; [|eauto].
    destruct (Hreturn out2) as (e & -> & _). cbn. eauto.
  - intros Hmax tls out st' Htl Hrun. unfold decode_codec.
    rewrite Htl. cbn [mbind result_bind]. rewrite Hrun.
    cbn [mbind result_bind].
    apply decode_loop_run in Hrun as (new & -> & _ & _ & _ & Hearly).
    assert (∃ g, list.last (default [] continual ++ new) = Some g)
      as [g Hlast].
    { destruct new as [|g0 new] using rev_ind.
      - destruct Hearly as (g & ? & _); [cbn; lia|]. eauto.
      - rewrite (assoc_L (++)), last_snoc. eauto. }
    unfold strip_trailing_eos at 2.
    apply py_last_ok in Hlast as Hpl. rewrite Hpl. cbn [mbind result_bind].
    destruct (Hreturn (if has_eos eos' g
                       then take (length (default [] continual ++ new) - 1)
                              (default [] continual ++ new)
                       else default [] continual ++ new)) as (e & He & _).
    eexists _, e. split; [|split; [exact He|]].
    + unfold strip_trailing_eos. rewrite Hpl. done.
    + rewrite He. done.
Qed.
End decode_codec_properties.

(** ** [nll] *)

Section flat_tensors.
Context {A : Type}.

Lemma length_join_uniform n (ls : list (list A)) :
  Forall (λ l, length l = n) ls → length (mjoin ls) = length ls * n.
Proof. intros H. rewrite length_join. by apply sum_list_fmap_same. Qed.

Lemma reshape2_ok rows cols (flat : list A) :
  length flat = rows * cols →
  reshape2 rows cols flat = Ok (reshape (replicate rows cols) flat).
Proof. intros H. unfold reshape2. by rewrite decide_True. Qed.

Lemma reshape_lookup rows cols (flat : list A) i :
  0 < cols → length flat = rows * cols → i < rows →
  reshape (replicate rows cols) flat !! i
  = Some (take cols (drop (i * cols) flat)).
Proof.
  intros Hc Hl Hi. rewrite sublist_lookup_reshape by done.
  unfold sublist_lookup. rewrite option_guard_True; [done|].
  rewrite Hl. replace (i * cols + cols) with (S i * cols) by lia.
  apply Nat.mul_le_mono_r. lia.
Qed.

Lemma reshape_uniform rows cols (flat : list A) :
  length flat = rows * cols →
  Forall (λ l, length l = cols) (reshape (replicate rows cols) flat).
Proof.
  revert flat. induction rows as [|rows IH]; intros flat Hl; cbn.
  { constructor. }
  constructor.
  - rewrite length_take. lia.
  - apply IH. rewrite length_drop. lia.
Qed.

Lemma fmap_take_uniform n (ls : list (list A)) :
  Forall (λ l, length l = n) ls → take n <$> ls = ls.
Proof.
  induction 1 as [|l ls Hl _ IH]; [done|]. cbn. rewrite IH.
  by rewrite take_ge by lia.
Qed.

Lemma size1_uniform n (ls : list (list A)) :
  ls ≠ [] → Forall (λ l, length l = n) ls → size1 ls = n.
Proof. intros Hne H. destruct H; [done|]. done. Qed.
End flat_tensors.

Lemma max_list_fmap_succ (ls : list nat) :
  ls ≠ [] → max_list ((λ l, l + 1) <$> ls) = max_list ls + 1.
Proof.
  induction ls as [|l ls IH]; [done|]. intros _. cbn.
  destruct ls as [|l' ls]; [cbn; lia|]. rewrite IH by done. lia.
Qed.

Lemma max_list_fmap_mul n (ls : list nat) :
  max_list ((λ l, l * n) <$> ls) = max_list ls * n.
Proof.
  induction ls as [|l ls IH]; [done|]. cbn. rewrite IH.
  by rewrite Nat.mul_max_distr_r.
Qed.

Lemma make_pad_mask_ok (lengths : list nat) :
  lengths ≠ [] →
  make_pad_mask lengths
  = Ok ((λ l, (λ j, bool_decide (l ≤ j)) <$> seq 0 (max_list lengths))
        <$> lengths).
Proof. by destruct lengths. Qed.

Lemma tensor_max_ok (a : list nat) : a ≠ [] → tensor_max a = Ok (max_list a).
Proof. by destruct a. Qed.

Lemma valid_lengths_take {A} (lens : list nat) (t : list (list A)) :
  Forall2 (λ l r, l ≤ length r) lens t →
  Forall2 (λ l r, l ≤ length r) lens (take (max_list lens) <$> t).
Proof.
  intros V. apply Forall2_fmap_r, Forall2_same_length_lookup_2.
  { by eapply Forall2_length. }
  intros i l r Hl Hr. cbn.
  pose proof (Forall2_lookup_lr _ _ _ _ _ _ V Hl Hr) as Hle. cbn beta in Hle.
  assert (l ≤ max_list lens).
  { apply max_list_elem_of_le, list_elem_of_lookup. eauto. }
  rewrite length_take. lia.
Qed.

Section nll_forward_facts.
Context {E L : Type} (zero_emb : E) (lm_embedding kmeans_emb : Z → E).
Context (codebook_size : Z) (predict_nq : nat).
Context (codec_lm : list (list E) → list nat → list nat → list (list (list L))).

Local Abbreviation nll_forward' :=
  (nll_forward zero_emb lm_embedding kmeans_emb codebook_size predict_nq
     codec_lm).

Lemma target_row_groups crow l tt :
  Forall (λ g : list Z, length g = predict_nq)
    (target_row codebook_size predict_nq crow l tt).
Proof.
  unfold target_row. apply Forall_insert; [|by rewrite length_replicate].
  apply Forall_app. split.
  - apply Forall_fmap, Forall_true. intros g. cbn. by rewrite length_replicate.
  - apply Forall_replicate. by rewrite length_replicate.
Qed.

Lemma nll_forward_ok text text_lengths c cl :
  text_lengths ≠ [] →
  Forall2 (λ l r, l ≤ length r) text_lengths text →
  nq c = 1 →
  Forall (Forall (λ g, length g = 1)) (tokens c) →
  Forall2 (λ l r, l ≤ length r) cl (tokens c) →
  length cl = length text_lengths →
  let lens := zip_with (λ tl l, tl + 2 + l) text_lengths cl in
  ∃ sequence target,
    nll_forward' text text_lengths c cl
    = Ok (codec_lm sequence lens ((λ l, l + 1) <$> text_lengths), target,
          (λ l, l + 1) <$> cl)
    ∧ length sequence = length text_lengths
    ∧ Forall (λ r, length r = max_list lens) sequence
    ∧ (∀ i tl, text_lengths !! i = Some tl →
         ∃ srow, sequence !! i = Some srow
                 ∧ srow !! (tl + 1) = Some (lm_embedding task_id))
    ∧ length target = length text_lengths
    ∧ Forall (λ trow, length trow = max_list cl + 1
                      ∧ Forall (λ g, length g = predict_nq) trow) target.
Proof.
  intros Hne V Hnq Hg Vc Hlen lens.
  assert (cl ≠ []) as Hcne by (destruct cl, text_lengths; done).
  pose proof (Forall2_length V) as LV.
  unfold nll_forward. rewrite !tensor_max_ok by done.
  cbn [mbind result_bind].
  set (text' := take (max_list text_lengths) <$> text).
  set (c' := CodecTensor (nq c) (take (max_list cl) <$> tokens c)).
  assert (Forall2 (λ l r, l ≤ length r) text_lengths text') as V'
    by by apply valid_lengths_take.
  assert (Forall2 (λ l r, l ≤ length r) cl (tokens c')) as Vc'
    by by apply valid_lengths_take.
  assert (Forall (Forall (λ g, length g = 1)) (tokens c')) as Hg'.
  { cbn. apply Forall_fmap. revert Hg. apply Forall_impl.
    intros r Hr. cbn. by apply Forall_take. }
  destruct (build_llm_targets_ok codebook_size predict_nq (length text') c' cl)
    as (tg & Htg & Htlen & Hrows); [done|done| |done|done|].
  { subst text'. rewrite length_fmap. lia. }
  unfold build_llm_io.
  rewrite (build_llm_inputs_some zero_emb lm_embedding kmeans_emb text'
             text_lengths c' cl true) by done.
  rewrite Htg. cbn [mbind result_bind negb].
  rewrite zip_with_fmap_l.
  change (zip_with (λ z : nat, Nat.add (z + 2)) text_lengths cl) with lens.
  assert (lens ≠ []) as Hlne.
  { intros Heq%(f_equal length). subst lens.
    rewrite length_zip_with in Heq. destruct text_lengths, cl; done. }
  rewrite (tensor_max_ok lens) by done.
  rewrite (tensor_max_ok ((λ l, l + 1) <$> cl)).
  2:{ intros Heq%fmap_nil_inv. done. }
  cbn [mbind result_bind].
  rewrite max_list_fmap_succ by done.
  set (inp := resize (max_list lens) zero_emb <$> _).
  assert (Forall (λ r, length r = max_list lens) inp) as Hinp.
  { subst inp. apply Forall_fmap, Forall_true. intros r. cbn.
    by rewrite length_resize. }
  assert (Forall (λ trow, length trow = max_list cl + 1
                          ∧ Forall (λ g, length g = predict_nq) trow) tg)
    as Htgrows.
  { apply Forall_lookup_2. intros i trow Hi.
    destruct (lookup_lt_is_Some_2 cl i) as [l Hl].
    { apply lookup_lt_Some in Hi. subst text'.
      rewrite length_fmap in Htlen. lia. }
    destruct (Forall2_lookup_l _ _ _ _ _ Vc' Hl) as (crow & Hcrow & Hle).
    cbn beta in Hle. rewrite (Hrows i l crow Hl Hcrow) in Hi.
    injection Hi as <-. split; [|apply target_row_groups].
    assert (l ≤ max_list cl).
    { apply max_list_elem_of_le, list_elem_of_lookup. eauto. }
    apply target_row_length; lia. }
  rewrite (fmap_take_uniform _ inp) by done.
  rewrite (fmap_take_uniform (max_list cl + 1) tg).
  2:{ revert Htgrows. apply Forall_impl. by intros ? [? _]. }
  exists inp, tg. split; [done|]. split.
  { subst inp. by rewrite length_fmap, length_imap. }
  split; [done|]. split.
  - intros i tl Htl. subst inp.
    rewrite list_lookup_fmap, list_lookup_imap, Htl. cbn.
    eexists. split; [done|].
    destruct (Forall2_lookup_l _ _ _ _ _ V' Htl) as (row & Hrow & Hle).
    cbn beta in Hle.
    assert (tl + 2 ≤ max_list lens) as Hmax.
    { destruct (lookup_lt_is_Some_2 cl i) as [l Hl].
      { apply lookup_lt_Some in Htl. lia. }
      assert (tl + 2 + l ≤ max_list lens); [|lia].
      apply max_list_elem_of_le, list_elem_of_lookup. exists i.
      subst lens. rewrite lookup_zip_with, Htl. cbn. by rewrite Hl. }
    unfold llm_sequence. rewrite Hrow. cbn [default].
    rewrite lookup_resize.
    + replace (tl + 1) with (S tl) by lia. change (id row) with row.
      rewrite lookup_cons_ne_0 by lia. cbn [pred].
      rewrite lookup_app_r by (rewrite length_take; lia).
      rewrite length_take.
      by replace (tl - tl `min` length row) with 0 by lia.
    + lia.
    + cbn. rewrite !length_app, length_take. cbn. lia.
  - split; [|done]. subst text'. rewrite length_fmap in Htlen. lia.
Qed.
End nll_forward_facts.

Section nll_logits_facts.
Context {L : Type} (predict_nq : nat) (zero_logits : L).

Local Abbreviation nll_logits' := (nll_logits predict_nq zero_logits).

Lemma nll_logits_ok y text_lengths cl :
  cl ≠ [] →
  length cl = length text_lengths →
  length y = length text_lengths →
  (∀ i tl l yrow,
     text_lengths !! i = Some tl → cl !! i = Some l → y !! i = Some yrow →
     tl + 2 + l ≤ length yrow) →
  Forall (Forall (λ g, length g = predict_nq)) y →
  ∃ logits,
    nll_logits' y text_lengths cl = Ok logits
    ∧ length logits = length text_lengths
    ∧ Forall (λ r, length r = max_list cl + 1
                   ∧ Forall (λ g, length g = predict_nq) r) logits
    ∧ ∀ i tl l yrow,
        text_lengths !! i = Some tl → cl !! i = Some l → y !! i = Some yrow →
        logits !! i
        = Some (take (l + 1) (drop (tl + 1) yrow)
                ++ replicate (max_list cl - l)
                     (replicate predict_nq zero_logits)).
Proof.
  intros Hcne Hlen Hy Hlong Hgroups. unfold nll_logits.
  rewrite (for_enumerate_ok_0 _ (kept_logits y)).
  2:{ intros k [tl l] Hk. cbn.
      apply lookup_zip_with_Some in Hk as (? & ? & [= <- <-] & Htl & Hl).
      destruct (lookup_lt_is_Some_2 y k) as [yrow Hyrow].
      { apply lookup_lt_Some in Htl. lia. }
      rewrite (index_ok _ _ _ Hyrow). cbn. unfold kept_logits.
      by rewrite Hyrow. }
  cbn [mbind result_bind].
  assert (length <$> imap (kept_logits y) (zip text_lengths cl)
          = (λ l, l + 1) <$> cl) as Hlens.
  { apply list_eq. intros i.
    rewrite !list_lookup_fmap, list_lookup_imap, lookup_zip_with.
    destruct (text_lengths !! i) as [tl|] eqn:Htl; cbn.
    2:{ apply lookup_ge_None in Htl.
        by rewrite (proj2 (lookup_ge_None cl i)) by lia. }
    destruct (cl !! i) as [l|] eqn:Hl; [|done]. cbn.
    destruct (lookup_lt_is_Some_2 y i) as [yrow Hyrow].
    { apply lookup_lt_Some in Htl. lia. }
    pose proof (Hlong i tl l yrow Htl Hl Hyrow).
    unfold kept_logits, slice. rewrite Hyrow. cbn.
    rewrite length_take, length_drop. f_equal. lia. }
  rewrite pad_list_ok.
  2:{ apply imap_nonempty. intros Heq%(f_equal length).
      rewrite length_zip in Heq. destruct text_lengths, cl; done. }
  rewrite Hlens, max_list_fmap_succ by done.
  eexists. split; [done|]. split.
  { rewrite length_fmap, length_imap, length_zip. lia. }
  split.
  - apply Forall_fmap, Forall_lookup_2. intros i r Hr. cbn.
    rewrite length_resize. split; [done|].
    apply Forall_resize; [apply length_replicate|].
    rewrite list_lookup_imap in Hr.
    destruct (zip text_lengths cl !! i) as [[tl l]|]; [|done].
    injection Hr as <-. unfold kept_logits, slice.
    apply Forall_take, Forall_drop.
    destruct (y !! i) as [yrow|] eqn:Hyrow; [|by constructor]. cbn.
    by eapply Forall_lookup_1 in Hgroups.
  - intros i tl l yrow Htl Hl Hyrow.
    rewrite list_lookup_fmap, list_lookup_imap, lookup_zip_with, Htl. cbn.
    rewrite Hl. cbn. unfold kept_logits, slice. rewrite Hyrow. cbn.
    pose proof (Hlong i tl l yrow Htl Hl Hyrow).
    assert (l ≤ max_list cl).
    { apply max_list_elem_of_le, list_elem_of_lookup. eauto. }
    replace (tl + 2 + l - (tl + 1)) with (l + 1) by lia.
    rewrite resize_ge by (rewrite length_take, length_drop; lia).
    rewrite length_take, length_drop. do 3 f_equal. lia.
Qed.
End nll_logits_facts.

Section nll_mask_padding_facts.
Context {F : Type} (predict_nq : nat) (fzero : F).

Local Abbreviation nll_mask_padding' := (nll_mask_padding predict_nq fzero).

Lemma flat_length {A} (x : list (list (list A))) bb tt :
  length x = bb →
  Forall (λ r, length r = tt ∧ Forall (λ g, length g = predict_nq) r) x →
  length (mjoin (mjoin x)) = bb * (tt * predict_nq).
Proof.
  intros Hb Hx. rewrite (length_join_uniform predict_nq).
  - rewrite (length_join_uniform tt), Hb; [lia|].
    revert Hx. apply Forall_impl. by intros r [? _].
  - apply Forall_join. revert Hx. apply Forall_impl. by intros r [_ ?].
Qed.

(** The masked loss has the shape [(batch_size, tt, n_q)] and is [0.0] from
    position [y_lengths[i]] on. *)
Lemma nll_mask_padding_zero batch_size tt y_lengths nll :
  0 < predict_nq → y_lengths ≠ [] →
  length y_lengths = batch_size → max_list y_lengths = tt →
  length nll = batch_size * (tt * predict_nq) →
  ∃ res,
    nll_mask_padding' batch_size tt y_lengths nll = Ok res
    ∧ length res = batch_size
    ∧ ∀ i l t q,
        y_lengths !! i = Some l → l ≤ t → t < tt → q < predict_nq →
        ∃ row group,
          res !! i = Some row ∧ row !! t = Some group
          ∧ group !! q = Some fzero.
Proof.
  intros Hnq Hne Hb Htt Hlen. unfold nll_mask_padding.
  rewrite make_pad_mask_ok by (by intros ?%fmap_nil_inv).
  cbn [mbind result_bind]. rewrite max_list_fmap_mul, Htt.
  set (mask := (λ l, (λ j, bool_decide (l ≤ j)) <$> seq 0 (tt * predict_nq))
               <$> ((λ l, l * predict_nq) <$> y_lengths)).
  assert (Forall (λ r, length r = tt * predict_nq) mask) as Hmask.
  { subst mask. apply Forall_fmap, Forall_true. intros l. cbn.
    by rewrite length_fmap, length_seq. }
  assert (length (mjoin mask) = batch_size * (tt * predict_nq)) as Hml.
  { rewrite (length_join_uniform _ _ Hmask). subst mask.
    by rewrite !length_fmap, Hb. }
  unfold masked_fill_. rewrite broadcast_to_same by lia.
  cbn [mbind result_bind].
  set (masked := zip_with _ nll (mjoin mask)).
  assert (length masked = batch_size * (tt * predict_nq)) as Hmasked.
  { subst masked. rewrite length_zip_with. lia. }
  rewrite reshape2_ok by done. cbn [mbind result_bind].
  rewrite (for_enumerate_ok_0 _
             (λ _ row, reshape (replicate tt predict_nq) row)).
  2:{ intros k row Hrow. apply reshape2_ok.
      pose proof (reshape_uniform batch_size (tt * predict_nq) masked Hmasked)
        as Hu.
      by eapply Forall_lookup_1 in Hu. }
  eexists. split; [done|]. split.
  { by rewrite length_imap, length_reshape, length_replicate. }
  intros i l t q Hl Hlt Ht Hq.
  assert (i < batch_size) as Hi.
  { rewrite <-Hb. by eapply lookup_lt_Some. }
  assert (0 < tt * predict_nq) as Hpos by nia.
  assert (t * predict_nq + q < tt * predict_nq) as Hcol by nia.
  rewrite list_lookup_imap, reshape_lookup by done. cbn.
  set (row := take (tt * predict_nq) (drop (i * (tt * predict_nq)) masked)).
  assert (length row = tt * predict_nq) as Hrow.
  { subst row. rewrite length_take, length_drop. nia. }
  eexists _, _. split; [done|]. split; [by apply reshape_lookup|].
  rewrite lookup_take_lt, lookup_drop by done. subst row.
  rewrite lookup_take_lt, lookup_drop by done. subst masked.
  rewrite lookup_zip_with.
  destruct (lookup_lt_is_Some_2 nll
              (i * (tt * predict_nq) + (t * predict_nq + q)))
    as [v ->]; [nia|]. cbn.
  assert (mjoin mask !! (i * (tt * predict_nq) + (t * predict_nq + q))
          = Some true) as ->.
  { apply (join_lookup_Some_same_length' (tt * predict_nq)); [done..|].
    subst mask. rewrite !list_lookup_fmap, Hl. cbn. eexists. split; [done|].
    rewrite list_lookup_fmap, lookup_seq_lt by done. cbn.
    f_equal. apply bool_decide_eq_true. nia. }
  done.
Qed.
End nll_mask_padding_facts.

Section nll_properties.
Context {E L F : Type} (zero_emb : E) (lm_embedding kmeans_emb : Z → E).
Context (codebook_size : Z) (predict_nq : nat).
Context (zero_logits : L) (fzero : F).
Context (codec_lm : list (list E) → list nat → list nat → list (list (list L))).
Context (criterion_ce : L → Z → F).

Local Abbreviation nll_forward' :=
  (nll_forward zero_emb lm_embedding kmeans_emb codebook_size predict_nq
     codec_lm).
Local Abbreviation nll' :=
  (nll zero_emb lm_embedding kmeans_emb codebook_size predict_nq zero_logits
     fzero codec_lm criterion_ce).

(** C5.  In [nll] the logits kept for example [i] are the outputs of the
    language model at the positions [text_lengths[i] + 1] to
    [text_lengths[i] + 1 + codec_lengths[i]], that is
    [codec_lengths[i] + 1] positions starting where the input holds the
    task-id embedding, filled up with zeros; and the loss returned is [0.0]
    at every position at or past [codec_lengths[i] + 1]. *)
Theorem nll_span_and_padding text text_lengths c cl :
  1 ≤ predict_nq →
  lm_keeps_shape predict_nq codec_lm →
  text_lengths ≠ [] →
  Forall2 (λ l r, l ≤ length r) text_lengths text →
  nq c = 1 →
  Forall (Forall (λ g, length g = 1)) (tokens c) →
  Forall2 (λ l r, l ≤ length r) cl (tokens c) →
  length cl = length text_lengths →
  ∃ sequence x_lengths target nll_values logits,
    let y := codec_lm sequence x_lengths ((λ l, l + 1) <$> text_lengths) in
    nll_forward' text text_lengths c cl = Ok (y, target, (λ l, l + 1) <$> cl)
    ∧ nll' text text_lengths c cl
      = Ok (nll_values, logits, target, (λ l, l + 1) <$> cl)
    ∧ (∀ i tl l,
         text_lengths !! i = Some tl → cl !! i = Some l →
         ∃ srow yrow,
           sequence !! i = Some srow
           ∧ srow !! (tl + 1) = Some (lm_embedding task_id)
           ∧ y !! i = Some yrow
           ∧ let kept := take (l + 1) (drop (tl + 1) yrow) in
             length kept = l + 1
             ∧ (∀ k, k ≤ l → kept !! k = yrow !! (tl + 1 + k))
             ∧ logits !! i
               = Some (kept ++ replicate (max_list cl - l)
                                 (replicate predict_nq zero_logits)))
    ∧ (∀ i l t q,
         cl !! i = Some l → l + 1 ≤ t → t < max_list cl + 1 →
         q < predict_nq →
         ∃ row group,
           nll_values !! i = Some row ∧ row !! t = Some group
           ∧ group !! q = Some fzero).
Proof.
  intros Hnq Hshape Hne V Hc1 Hg Vc Hlen.
  assert (cl ≠ []) as Hcne by (destruct cl, text_lengths; done).
  pose proof (Forall2_length V) as LV.
  destruct (nll_forward_ok zero_emb lm_embedding kmeans_emb codebook_size
              predict_nq codec_lm text text_lengths c cl)
    as (sequence & target & Hfw & Hslen & Hsrows & Htask & Htlen & Htrows);
    [done..|].
  set (lens := zip_with (λ tl l, tl + 2 + l) text_lengths cl) in *.
  set (y := codec_lm sequence lens ((λ l, l + 1) <$> text_lengths)) in *.
  destruct (Hshape sequence lens ((λ l, l + 1) <$> text_lengths))
    as [Hylen Hyrows]. fold y in Hylen, Hyrows.
  assert (sequence ≠ []) as Hsne.
  { intros ->. cbn in Hslen. by destruct text_lengths. }
  rewrite (size1_uniform (max_list lens)) in Hyrows by done.
  assert (∀ i tl l yrow,
            text_lengths !! i = Some tl → cl !! i = Some l →
            y !! i = Some yrow → tl + 2 + l ≤ length yrow) as Hlong.
  { intros i tl l yrow Htl Hl Hyrow.
    eapply Forall_lookup_1 in Hyrows as [-> _]; [|done].
    apply max_list_elem_of_le, list_elem_of_lookup. exists i. subst lens.
    rewrite lookup_zip_with, Htl. cbn. by rewrite Hl. }
  destruct (nll_logits_ok predict_nq zero_logits y text_lengths cl)
    as (logits & Hlogits & Hllen & Hlrows & Hlrow); [done|done|lia|done| |].
  { revert Hyrows. apply Forall_impl. by intros ? [_ ?]. }
  assert (logits ≠ []) as Hlne.
  { intros ->. cbn in Hllen. by destruct text_lengths. }
  destruct (nll_mask_padding_zero predict_nq fzero (length text)
              (max_list cl + 1) ((λ l, l + 1) <$> cl)
              (zip_with criterion_ce (mjoin (mjoin logits))
                 (mjoin (mjoin target))))
    as (res & Hres & Hreslen & Hzero).
  { lia. }
  { by intros ?%fmap_nil_inv. }
  { rewrite length_fmap. lia. }
  { by apply max_list_fmap_succ. }
  { rewrite length_zip_with.
    rewrite (flat_length predict_nq logits (length text) (max_list cl + 1))
      by (done || lia).
    rewrite (flat_length predict_nq target (length text) (max_list cl + 1))
      by (done || lia).
    lia. }
  exists sequence, lens, target, res, logits. cbn zeta. fold y.
  split; [done|]. split; [|split].
  - unfold nll. rewrite Hfw. cbn [mbind result_bind]. rewrite Hlogits.
    cbn [mbind result_bind].
    rewrite (size1_uniform (max_list cl + 1)); [|done|].
    2:{ revert Hlrows. apply Forall_impl. by intros ? [? _]. }
    rewrite !reshape2_ok.
    2:{ apply flat_length; [lia|done]. }
    2:{ apply flat_length; [lia|done]. }
    cbn [mbind result_bind].
    rewrite !join_reshape.
    2:{ rewrite sum_list_replicate. symmetry. apply flat_length; [lia|done]. }
    2:{ rewrite sum_list_replicate. symmetry. apply flat_length; [lia|done]. }
    rewrite Hres. done.
  - intros i tl l Htl Hl.
    destruct (Htask i tl Htl) as (srow & Hsrow & Hst).
    destruct (lookup_lt_is_Some_2 y i) as [yrow Hyrow].
    { apply lookup_lt_Some in Htl. lia. }
    pose proof (Hlong i tl l yrow Htl Hl Hyrow) as Hle.
    exists srow, yrow. split_and!; [done..| | |].
    + rewrite length_take, length_drop. lia.
    + intros k Hk. by rewrite lookup_take_lt, lookup_drop by lia.
    + by apply (Hlrow i tl l yrow).
  - intros i l t q Hl Ht1 Ht2 Hq. apply (Hzero i (l + 1) t q); [|done..].
    by rewrite list_lookup_fmap, Hl.
Qed.
End nll_properties.

(** ** Concrete inputs *)

(** Two examples of lengths 3 and 2 with codecs of lengths 2 and 1: the
    second input is [sos, 5, 6, task, emb(2)] followed by two zeros. *)
Lemma build_llm_io_inputs_layout_witness :
  Example.text_lengths ≠ []
  ∧ Forall2 (λ l r, l ≤ length r) Example.text_lengths Example.text
  ∧ ∃ llm_inputs,
      Example.build_llm_io Example.text Example.text_lengths
        (Some Example.codec) (Some Example.codec_lengths) false
      = Ok (LlmInputs llm_inputs [7; 5])
      ∧ llm_inputs !! 1 = Some [100; 5; 6; 101; 20; 0; 0]%Z.
Proof.
  assert (Example.text_lengths ≠ []) as H1 by done.
  assert (Forall2 (λ l r, l ≤ length r) Example.text_lengths Example.text)
    as H2 by (repeat constructor; simpl; lia).
  split; [exact H1|]. split; [exact H2|].
  destruct (build_llm_io_inputs_layout 0%Z Example.lm_embedding
              Example.kmeans_emb Example.codebook_size 1
              Example.text Example.text_lengths H1 H2) as [_ Hcodec].
  destruct (Hcodec Example.codec Example.codec_lengths)
    as (llm_inputs & Hio & _ & _ & Hrow).
  - reflexivity.
  - repeat constructor; simpl; lia.
  - reflexivity.
  - exists llm_inputs. split; [exact Hio|].
    exact (Hrow 1 _ _ _ _ eq_refl eq_refl eq_refl eq_refl).
Defined.

(** The same batch with targets: the second target row is the codec token 2,
    the end id 3, and a zero. *)
Lemma build_llm_io_targets_layout_witness :
  ∃ llm_inputs llm_targets llm_lengths,
    Example.build_llm_io Example.text Example.text_lengths
      (Some Example.codec) (Some Example.codec_lengths) true
    = Ok (LlmInputsTargets llm_inputs llm_targets llm_lengths [3; 2])
    ∧ ∃ trow, llm_targets !! 1 = Some trow
              ∧ length trow = 3
              ∧ take 1 trow = [[2]]%Z
              ∧ trow !! 1 = Some [3]%Z.
Proof.
  destruct (build_llm_io_targets_layout 0%Z Example.lm_embedding
              Example.kmeans_emb Example.codebook_size 1
              Example.text Example.text_lengths Example.codec
              Example.codec_lengths)
    as (_ & llm_inputs & llm_targets & llm_lengths & Hio & _ & Hrows).
  - done.
  - repeat constructor; simpl; lia.
  - reflexivity.
  - repeat constructor.
  - repeat constructor; simpl; lia.
  - reflexivity.
  - exists llm_inputs, llm_targets, llm_lengths. split; [exact Hio|].
    destruct (Hrows 1 1 [[2]; [0]]%Z eq_refl eq_refl)
      as (trow & Hrow & Hlen & _ & Htake & Heos).
    exists trow. split; [exact Hrow|]. split; [exact Hlen|].
    split; [exact (Htake eq_refl)|exact Heos].
Defined.

(** A run that emits three times the token 1, then the end id: the end
    group is removed, and so is the group of the one auxiliary frame. *)
(** The greedy sampler succeeds on every score of the example language
    model, whatever the input and the state of the random stream. *)
Lemma example_sampler_succeeds seq_input prompt st :
  is_ok (sample_group Z.ltb Z.add 0%Z (Z.ltb 0) id Example.rng Example.topk_ties
           (Example.codec_lm_score seq_input prompt) (SamplingBool false) 1
           0 1 st) = true.
Proof.
  unfold Example.codec_lm_score.
  destruct (length seq_input <? 8); vm_compute; reflexivity.
Qed.

Lemma decode_codec_stops_at_eos_witness :
  Example.decode_codec [7; 8]%Z (Some [4]%Z) None None 6 (SamplingBool false)
    1 None 0
  = Ok ([[[1]; [1]]]%Z, 0)
  ∧ Forall (Forall (λ group, eos_id Example.codebook_size ∉ group))
      [[[1]; [1]]]%Z.
Proof.
  assert (Example.decode_codec [7; 8]%Z (Some [4]%Z) None None 6
            (SamplingBool false) 1 None 0 = Ok ([[[1]; [1]]]%Z, 0)) as Hrun
    by (vm_compute; reflexivity).
  split; [exact Hrun|].
  destruct (decode_codec_stops_at_eos 0%Z Example.lm_embedding
              Example.kmeans_emb Example.codebook_size 1 Z.ltb Z.add 0%Z
              (Z.ltb 0) id Example.rng Example.topk_ties Example.codec_lm_score 6
              (SamplingBool false) 1) as [_ Hclean].
  eapply Hclean; [|exact Hrun]. intros c j group Hc. discriminate Hc.
Defined.

(** The end id 3 given in the middle of [continual] comes back in the
    tokens returned. *)
Lemma decode_codec_returns_continual_eos :
  ∃ res st',
    Example.decode_codec [7; 8]%Z (Some [4]%Z) None None 0
      (SamplingBool false) 1 (Some [[1]; [3]; [2]]%Z) 0
    = Ok (res, st')
    ∧ ¬ Forall (Forall (λ group, eos_id Example.codebook_size ∉ group)) res.
Proof.
  exists [[[3]; [2]]]%Z, 0. split; [vm_compute; reflexivity|].
  intros H. apply Forall_cons_1 in H as [H _].
  apply Forall_cons_1 in H as [H _]. apply H. by left.
Qed.

(** Without [aux] the same run fails, in the final [return]; with
    [max_length = 0] the call fails as well, before it. *)
Lemma decode_codec_without_aux_fails_witness :
  Example.decode_codec [7; 8]%Z None None None 6 (SamplingBool false) 1
    None 0
  = Raise AttributeError
  ∧ ∃ e, Example.decode_codec [7; 8]%Z None None None 0 (SamplingBool false)
           1 None 0
         = Raise e.
Proof.
  split.
  - destruct (decode_codec_without_aux_fails 0%Z Example.lm_embedding
                Example.kmeans_emb Example.codebook_size 1 Z.ltb Z.add 0%Z
                (Z.ltb 0) id Example.rng Example.topk_ties
                Example.codec_lm_score [7; 8]%Z None None 6
                (SamplingBool false) 1 None 0) as (_ & _ & _ & Hattr).
    apply Hattr; [lia|reflexivity|intros c Hc; discriminate Hc|].
    intros seq_input prompt st. apply example_sampler_succeeds.
  - destruct (decode_codec_without_aux_fails 0%Z Example.lm_embedding
                Example.kmeans_emb Example.codebook_size 1 Z.ltb Z.add 0%Z
                (Z.ltb 0) id Example.rng Example.topk_ties
                Example.codec_lm_score [7; 8]%Z None None 0
                (SamplingBool false) 1 None 0) as (He & _).
    exact He.
Defined.

(** Three scores, [sampling = 2]: both indices returned are among the two
    of largest probability, 1 and 2. *)
Lemma sampling_ids_by_type_witness :
  ∃ ids st',
    Example.sampling_ids [200; 500; 300]%Z (SamplingInt 2) 2 0 = Ok (ids, st')
    ∧ length ids = 2
    ∧ Forall (λ i, i ∈ [1; 2]) ids.
Proof.
  destruct (sampling_ids_by_type Z.ltb Z.add 0%Z (Z.ltb 0) id Example.rng
              Example.topk_ties [200; 500; 300]%Z (SamplingInt 2) 2 0)
    as (_ & Hreturn & _).
  apply Hreturn.
  - done.
  - reflexivity.
  - lia.
  - simpl. lia.
  - repeat constructor.
  - unfold float_order. split_and!; intros *;
      rewrite ?Z.ltb_lt, ?Z.ltb_ge; lia.
Defined.

(** Two equal scores at the top: which of their indices [topk] returns
    first is the library's choice, here by the index and against it. *)
Lemma topk_equal_scores_either_order :
  topk Z.ltb Example.topk_ties [5; 5; 0; 0]%Z 2 = Ok ([5; 5]%Z, [0; 1])
  ∧ topk Z.ltb (λ _ _ i, 4 - i) [5; 5; 0; 0]%Z 2 = Ok ([5; 5]%Z, [1; 0]).
Proof. split; reflexivity. Qed.

(** [sampling = 0] and [sampling = 0.0] select no entry at all, and the
    multinomial draw fails. *)
Lemma sampling_ids_zero_raises :
  Example.sampling_ids [200; 500; 300]%Z (SamplingInt 0) 1 0
  = Raise RuntimeError
  ∧ Example.sampling_ids [200; 500; 300]%Z (SamplingFloat 0%Z) 1 0
    = Raise RuntimeError.
Proof. split; reflexivity. Qed.

Lemma example_codec_lm_keeps_shape : lm_keeps_shape 1 Example.codec_lm.
Proof.
  intros sequence x_lengths text_lengths. unfold Example.codec_lm. split.
  - by rewrite length_fmap.
  - apply Forall_fmap, Forall_true. intros row. cbn.
    rewrite length_resize. split; [done|].
    apply Forall_resize; [done|]. by apply Forall_fmap, Forall_true.
Qed.

(** The second example has a codec of length 1 in a batch of maximum 2: its
    loss at position 2 is zero. *)
Lemma nll_span_and_padding_witness :
  ∃ nll_values logits target,
    Example.nll Example.text Example.text_lengths Example.codec
      Example.codec_lengths
    = Ok (nll_values, logits, target, [3; 2])
    ∧ logits !! 1 = Some [[101]; [20]; [0]]%Z
    ∧ ∃ row group, nll_values !! 1 = Some row ∧ row !! 2 = Some group
                   ∧ group !! 0 = Some 0%Z.
Proof.
  destruct (nll_span_and_padding 0%Z Example.lm_embedding Example.kmeans_emb
              Example.codebook_size 1 0%Z 0%Z Example.codec_lm
              (λ logit target, (1 + logit + target)%Z)
              Example.text Example.text_lengths Example.codec
              Example.codec_lengths)
    as (sequence & x_lengths & target & nll_values & logits
        & Hfw & Hnll & Hspan & Hzero).
  - lia.
  - apply example_codec_lm_keeps_shape.
  - done.
  - repeat constructor; simpl; lia.
  - reflexivity.
  - repeat constructor.
  - repeat constructor; simpl; lia.
  - reflexivity.
  - exists nll_values, logits, target. split; [exact Hnll|]. split.
    + assert (Example.nll Example.text Example.text_lengths Example.codec
                Example.codec_lengths
              = Ok ([[[103]; [13]; [24]]; [[104]; [24]; [0]]]%Z,
                    [[[101]; [10]; [20]]; [[101]; [20]; [0]]]%Z,
                    [[[1]; [2]; [3]]; [[2]; [3]; [0]]]%Z, [3; 2])) as Hrun
        by (vm_compute; reflexivity).
      unfold Example.nll in Hrun. rewrite Hrun in Hnll.
      injection Hnll as _ <- _. reflexivity.
    + apply (Hzero 1 1 2 0); [reflexivity|lia|simpl; lia|lia].
Defined.

(** Half of four positions: the first two of the permutation drawn, 2 and
    0, are masked in both examples. *)
Lemma forward_masks_positions_witness :
  Example.mask_index [[1; 2; 3; 4]; [5; 6; 7; 8]]%Z (Some (1, 2)%Z)
    [2; 0; 3; 1] = [2; 0]
  ∧ Example.masked_emb [[1; 2; 3; 4]; [5; 6; 7; 8]]%Z (Some (1, 2)%Z)
      [2; 0; 3; 1] = [[-1; 2; -1; 4]; [-1; 6; -1; 8]]%Z
  ∧ length (Example.mask_index [[1; 2; 3; 4]; [5; 6; 7; 8]]%Z
              (Some (1, 2)%Z) [2; 0; 3; 1])
    = Z.to_nat (Example.int_mul 4 (1, 2)%Z) `min` 4.
Proof.
  destruct (forward_masks_positions (-1)%Z id id (λ emb lens, (emb, lens))
              (λ _ _, ()) (λ _ _, ()) (λ _ _, ())
              Example.ratio_is_zero Example.int_mul
              [[1; 2; 3; 4]; [5; 6; 7; 8]]%Z [2; 0; 3; 1] (1, 2)%Z)
    as ((Hchosen & _ & Hlen & _) & _).
  - repeat constructor.
  - simpl. rewrite (Permutation_swap 0 2 [3; 1]).
    apply Permutation_skip. rewrite (Permutation_swap 1 3 []).
    rewrite (Permutation_swap 1 2 [3]). done.
  - reflexivity.
  - vm_compute. discriminate.
  - split; [exact Hchosen|]. split; [reflexivity|exact Hlen].
Defined.

(** A ratio of 2 on four positions: [int(T * r)] is 8, and the four
    positions there are get masked. *)
Lemma forward_masks_at_most_all :
  Example.int_mul 4 (2, 1)%Z = 8%Z
  ∧ Example.mask_index [[1; 2; 3; 4]; [5; 6; 7; 8]]%Z (Some (2, 1)%Z)
      [2; 0; 3; 1] = [2; 0; 3; 1]
  ∧ Example.masked_emb [[1; 2; 3; 4]; [5; 6; 7; 8]]%Z (Some (2, 1)%Z)
      [2; 0; 3; 1] = [[-1; -1; -1; -1]; [-1; -1; -1; -1]]%Z.
Proof. repeat split. Qed.

(** [d_model = 2], two positions. *)
Lemma positionalencoding1d_table_witness :
  ∃ pe,
    Example.positionalencoding1d 2 2 = Ok pe
    ∧ length pe = 2
    ∧ ∃ row, pe !! 1 = Some row
             ∧ row !! 0
               = Some (Example.FSin
                         (Example.FMul (Example.FOfNat 1)
                            (Example.FExp
                               (Example.FScale (Example.FOfNat 0)
                                  (Example.DNeg
                                     (Example.DDiv Example.DLog10000 2)))))).
Proof.
  destruct (positionalencoding1d_table Example.FZero Example.FExp
              Example.FSin Example.FCos Example.FMul Example.FScale
              Example.FOfNat Example.DLog10000 Example.DDiv Example.DNeg 2 2)
    as [_ Heven].
  destruct Heven as (pe & Hpe & Hlen & Hrows); [reflexivity|lia|].
  exists pe. split; [exact Hpe|]. split; [exact Hlen|].
  destruct (lookup_lt_is_Some_2 pe 1) as [row Hrow]; [rewrite Hlen; lia|].
  exists row. split; [exact Hrow|].
  destruct (Hrows 1 row Hrow) as [_ Hcols].
  destruct (Hcols 0) as [Hsin _]; [lia|]. exact Hsin.
Defined.

(** [d_model = 0] is even and passes the test on the parity, but the
    division by [d_model] fails. *)
Lemma positionalencoding1d_zero_dim :
  Nat.even 0 = true
  ∧ Example.positionalencoding1d 0 3 = Raise ZeroDivisionError.
Proof. split; reflexivity. Qed.

(** With [text_lengths] given and neither [aux] nor [aux_lengths], the call
    fails before the loop, on [text_lengths + aux_lengths]. *)
Lemma decode_codec_without_aux_fails_early :
  Example.decode_codec [7; 8]%Z None (Some [2]) None 6 (SamplingBool false) 1
    None 0
  = Raise TypeError.
Proof. reflexivity. Qed.

(** * Properties of the helpers, the construction, the training pass and inference *)

(** ** [strip_ddp_state_dict] *)

Section odict_facts.
Context {V : Type}.
Implicit Types d : odict V.

Lemma odict_set_fresh k (v : V) d :
  k ∉ d.*1 → odict_set k v d = d ++ [(k, v)].
Proof.
  induction d as [|[k' v'] d IH]; [done|]. cbn.
  intros Hk. apply not_elem_of_cons in Hk as [Hne Hk].
  rewrite decide_False by done. by rewrite IH.
Qed.

Lemma odict_set_keys k (v : V) d :
  (odict_set k v d).*1 = if decide (k ∈ d.*1) then d.*1 else d.*1 ++ [k].
Proof.
  induction d as [|[k' v'] d IH]; [done|]. cbn.
  destruct (decide (k' = k)) as [->|Hne]; cbn.
  - rewrite decide_True by left. done.
  - rewrite IH. destruct (decide (k ∈ d.*1)) as [Hin|Hnin].
    + rewrite decide_True by by right. done.
    + rewrite decide_False; [done|].
      intros [?|?]%elem_of_cons; congruence.
Qed.

Lemma odict_set_length k (v : V) d :
  length (odict_set k v d) ≤ S (length d).
Proof.
  induction d as [|[k' v'] d IH]; cbn; [lia|].
  destruct (decide (k' = k)); cbn; lia.
Qed.

Lemma odict_set_NoDup k (v : V) d :
  NoDup d.*1 → NoDup (odict_set k v d).*1.
Proof.
  intros Hd. rewrite odict_set_keys.
  destruct (decide (k ∈ d.*1)); [done|].
  apply list.NoDup_app. split_and!; [done| |apply NoDup_singleton].
  intros x Hx ->%list_elem_of_singleton. done.
Qed.

Lemma odict_get_set k k' (v : V) d :
  odict_get k' (odict_set k v d)
  = if decide (k = k') then Some v else odict_get k' d.
Proof.
  induction d as [|[k0 v0] d IH]; cbn.
  - destruct (decide (k = k')); done.
  - destruct (decide (k0 = k)) as [->|Hne]; cbn.
    + destruct (decide (k = k')); done.
    + rewrite IH. destruct (decide (k0 = k')) as [->|?]; [|done].
      by rewrite decide_False.
Qed.

Lemma odict_get_app k d1 d2 :
  odict_get k (d1 ++ d2)
  = match odict_get k d1 with
    | Some v => Some v
    | None => odict_get k d2
    end.
Proof.
  induction d1 as [|[k0 v0] d1 IH]; cbn; [done|].
  destruct (decide (k0 = k)); done.
Qed.
End odict_facts.

Lemma startswith_app prefix s : startswith (prefix +:+ s) prefix = true.
Proof.
  induction prefix as [|a p IH]; [done|].
  change (String a p +:+ s) with (String a (p +:+ s)). cbn.
  by rewrite bool_decide_eq_true_2.
Qed.

Lemma str_from_app prefix s :
  str_from (String.length prefix) (prefix +:+ s) = s.
Proof. induction prefix as [|a p IH]; [by destruct s|exact IH]. Qed.

Section strip_ddp_state_dict_facts.
Context {V : Type}.
Implicit Types d : odict V.

Local Abbreviation step' :=
  (λ (new_state_dict : odict V) '(k, v),
     if startswith k "module."
     then odict_set (str_from 7 k) v new_state_dict
     else odict_set k v new_state_dict).

Local Abbreviation rename' := (λ kv : string * V, (ddp_key kv.1, kv.2)).

Lemma strip_step_rename acc kv :
  step' acc kv = odict_set (ddp_key kv.1) kv.2 acc.
Proof.
  destruct kv as [k v]. unfold ddp_key. cbv beta iota.
  change ((k, v).1) with k. change ((k, v).2) with v.
  by destruct (startswith k "module.").
Qed.

Lemma strip_foldl_distinct rest : ∀ acc,
  NoDup (acc.*1 ++ (ddp_key <$> rest.*1)) →
  foldl step' acc rest = acc ++ (rename' <$> rest).
Proof.
  induction rest as [|kv rest IH]; intros acc Hnd.
  { cbn. by rewrite app_nil_r. }
  cbn [foldl]. rewrite strip_step_rename.
  cbn in Hnd. apply list.NoDup_app in Hnd as (Hacc & Hdisj & Hrest).
  apply list.NoDup_cons in Hrest as [Hk Hrest].
  rewrite odict_set_fresh.
  2:{ intros Hin. apply (Hdisj _ Hin). left. }
  rewrite IH.
  - cbn. by rewrite <-(assoc_L (++)).
  - rewrite fmap_app. cbn. rewrite <-(assoc_L (++)). cbn.
    apply list.NoDup_app. split_and!; [done| |].
    + intros x Hx [->|Hx']%elem_of_cons.
      * apply (Hdisj _ Hx). left.
      * apply (Hdisj _ Hx). by right.
    + by apply list.NoDup_cons.
Qed.

Lemma strip_foldl_keys rest : ∀ acc,
  NoDup acc.*1 → NoDup (foldl step' acc rest).*1.
Proof.
  induction rest as [|kv rest IH]; intros acc Hnd; [done|].
  cbn [foldl]. apply IH. rewrite strip_step_rename.
  by apply odict_set_NoDup.
Qed.

Lemma strip_foldl_length rest : ∀ acc,
  length (foldl step' acc rest) ≤ length acc + length rest.
Proof.
  induction rest as [|kv rest IH]; intros acc; cbn [foldl]; [cbn; lia|].
  etrans; [apply IH|]. rewrite strip_step_rename.
  pose proof (odict_set_length (ddp_key kv.1) kv.2 acc). cbn. lia.
Qed.

Lemma strip_foldl_get k rest : ∀ acc,
  odict_get k (foldl step' acc rest)
  = match odict_get k (reverse (rename' <$> rest)) with
    | Some v => Some v
    | None => odict_get k acc
    end.
Proof.
  induction rest as [|kv rest IH]; intros acc; [done|].
  cbn [foldl]. rewrite IH, strip_step_rename, odict_get_set.
  rewrite fmap_cons, reverse_cons, odict_get_app. cbn.
  destruct (odict_get k (reverse _)); [done|].
  destruct (decide (ddp_key kv.1 = k)); done.
Qed.
End strip_ddp_state_dict_facts.

Lemma str_from_module k : str_from 7 ("module." +:+ k) = k.
Proof. exact (str_from_app "module." k). Qed.

Lemma ddp_key_prefixed k : ddp_key ("module." +:+ k) = k.
Proof.
  unfold ddp_key. rewrite (startswith_app "module." k).
  exact (str_from_app "module." k).
Qed.

Lemma ddp_key_plain k : startswith k "module." = false → ddp_key k = k.
Proof. intros H. unfold ddp_key. by rewrite H. Qed.

(** X1.
    The state dict of a model wrapped for distributed training, every key
    of which carries the prefix ["module."], is given back as it was before
    the wrapping: same keys, same values, same order. *)
Theorem strip_ddp_state_dict_unwraps {V} (state_dict : odict V) :
  NoDup state_dict.*1 →
  strip_ddp_state_dict ((λ '(k, v), ("module." +:+ k, v)) <$> state_dict)
  = state_dict.
Proof.
  intros Hnd. unfold strip_ddp_state_dict.
  rewrite strip_foldl_distinct.
  - rewrite app_nil_l, <-list_fmap_compose.
    rewrite <-(list_fmap_id state_dict) at 2.
    apply list_fmap_ext. intros i [k v] _.
    cbv [compose fst snd id]. by rewrite ddp_key_prefixed.
  - rewrite fmap_nil, app_nil_l, <-!list_fmap_compose.
    erewrite list_fmap_ext; [exact Hnd|].
    intros i [k v] _. cbv [compose fst snd]. by rewrite ddp_key_prefixed.
Qed.

(** X2.
    A state dict none of whose keys starts with ["module."] is returned
    unchanged. *)
Theorem strip_ddp_state_dict_plain {V} (state_dict : odict V) :
  NoDup state_dict.*1 →
  Forall (λ k, startswith k "module." = false) state_dict.*1 →
  strip_ddp_state_dict state_dict = state_dict.
Proof.
  intros Hnd Hplain. unfold strip_ddp_state_dict.
  rewrite list.Forall_forall in Hplain.
  assert (ddp_key <$> state_dict.*1 = state_dict.*1) as Hkeys.
  { rewrite <-(list_fmap_id state_dict.*1) at 2.
    apply list_fmap_ext. intros i k Hk. apply ddp_key_plain, Hplain.
    by eapply list_elem_of_lookup_2. }
  rewrite strip_foldl_distinct by by rewrite fmap_nil, app_nil_l, Hkeys.
  rewrite app_nil_l. rewrite <-(list_fmap_id state_dict) at 2.
  apply list_fmap_ext. intros i [k v] Hkv. cbv [fst snd id]. f_equal.
  apply ddp_key_plain, Hplain.
  apply list_elem_of_fmap. exists (k, v). split; [done|].
  by eapply list_elem_of_lookup_2.
Qed.

(** X3.
    In general no key occurs twice in the result, which is never longer
    than the input, and a key is mapped to the value of the last item
    stored under it: when ["module." + k] and [k] are both keys, one of the
    two values is lost. *)
Theorem strip_ddp_state_dict_last_wins {V} (state_dict : odict V) :
  NoDup (strip_ddp_state_dict state_dict).*1
  ∧ length (strip_ddp_state_dict state_dict) ≤ length state_dict
  ∧ (∀ k, odict_get k (strip_ddp_state_dict state_dict)
          = odict_get k
              (reverse ((λ kv, (ddp_key kv.1, kv.2)) <$> state_dict)))
  ∧ (∀ k (v1 v2 : V),
       startswith k "module." = false →
       strip_ddp_state_dict [("module." +:+ k, v1); (k, v2)] = [(k, v2)]
       ∧ strip_ddp_state_dict [(k, v1); ("module." +:+ k, v2)] = [(k, v2)]).
Proof.
  unfold strip_ddp_state_dict. split_and!.
  - apply strip_foldl_keys. constructor.
  - etrans; [apply strip_foldl_length|]. done.
  - intros k. rewrite strip_foldl_get. by destruct (odict_get _ _).
  - intros k v1 v2 Hk.
    split; cbn [foldl]; rewrite (startswith_app "module." k), Hk;
      rewrite str_from_module; cbn [odict_set]; by rewrite decide_True.
Qed.

Lemma strip_ddp_state_dict_unwraps_witness :
  strip_ddp_state_dict
    [("module.encoder.weight", 1); ("module.module.bias", 2)]
  = [("encoder.weight", 1); ("module.bias", 2)].
Proof.
  apply (strip_ddp_state_dict_unwraps
           [("encoder.weight", 1); ("module.bias", 2)]).
  apply (bool_decide_unpack _). vm_compute. reflexivity.
Defined.

Lemma strip_ddp_state_dict_plain_witness :
  strip_ddp_state_dict [("encoder.weight", 1); ("modules.bias", 2)]
  = [("encoder.weight", 1); ("modules.bias", 2)].
Proof.
  apply strip_ddp_state_dict_plain.
  - apply (bool_decide_unpack _). vm_compute. reflexivity.
  - apply (bool_decide_unpack _). vm_compute. reflexivity.
Defined.

(** ** [init] and [_init] *)

Lemma split_nonempty sep s : split sep s ≠ [].
Proof.
  destruct s as [|c s]; [done|]. cbn.
  destruct (decide (c = sep)); [done|]. by destruct (split sep s).
Qed.

Lemma split_no_sep sep s : str_has sep s = false → split sep s = [s].
Proof.
  induction s as [|c s IH]; [done|]. cbn.
  intros [Hc Hs]%orb_false_elim. apply bool_decide_eq_false in Hc.
  rewrite decide_False by done. by rewrite IH.
Qed.

Lemma split_app sep a b :
  split sep (a +:+ String sep b) = split sep a ++ split sep b.
Proof.
  induction a as [|c a IH].
  - change ("" +:+ String sep b) with (String sep b). cbn.
    by rewrite decide_True.
  - change (String c a +:+ String sep b) with (String c (a +:+ String sep b)).
    cbn. destruct (decide (c = sep)); [by rewrite IH|].
    rewrite IH. pose proof (split_nonempty sep a).
    by destruct (split sep a).
Qed.

Lemma join_split sep s : join (String sep "") (split sep s) = s.
Proof.
  induction s as [|c s IH]; [done|]. cbn [split].
  pose proof (split_nonempty sep s) as Hne.
  destruct (decide (c = sep)) as [->|Hc].
  - destruct (split sep s) as [|w ws] eqn:Hs; [done|].
    change (join (String sep "") ("" :: w :: ws))
      with ("" +:+ String sep "" +:+ join (String sep "") (w :: ws)).
    by rewrite IH.
  - destruct (split sep s) as [|w ws] eqn:Hs; [done|].
    rewrite <-IH. by destruct ws.
Qed.

Lemma py_slice_to_last {A} (l : list A) x :
  py_slice_to (-1) (l ++ [x]) = l.
Proof.
  unfold py_slice_to. rewrite decide_False by lia.
  replace (length (l ++ [x]) - Z.to_nat (- -1)) with (length l)
    by (rewrite length_app; cbn; lia).
  by rewrite take_app_length.
Qed.

Lemma py_last_snoc {A} (l : list A) x : py_last (l ++ [x]) = Ok x.
Proof. unfold py_last. by rewrite last_snoc. Qed.

Section init_facts.
Context {Mod Callable Obj V : Type}.
Context (import_module : string → result Mod).
Context (getattr : Mod → string → result Callable).
Context (call : Callable → list V → list (string * V) → result Obj).

Lemma _init_dotted package name config args kwargs :
  str_has "." name = false →
  _init import_module getattr call (ConfigStr (package +:+ "." +:+ name))
    (ConfigDict config) args kwargs
  = (m ← import_module package;
     f ← getattr m name;
     kw ← merge_kwargs kwargs config;
     call f args kw).
Proof.
  intros Hname. unfold _init.
  change (package +:+ "." +:+ name) with (package +:+ String "." name).
  rewrite split_app, (split_no_sep _ name Hname).
  rewrite py_slice_to_last, py_last_snoc.
  change "."%string with (String "." "").
  by rewrite join_split.
Qed.
End init_facts.

(** X4.
    [_init] cuts [path] at its last dot: what stands before it is imported
    as a module, what stands after it is looked up in that module and
    called with [config] as further keyword arguments.  A path without a
    dot makes it import the module of empty name. *)
Theorem _init_splits_at_last_dot {Mod Callable Obj V : Type}
    (import_module : string → result Mod)
    (getattr : Mod → string → result Callable)
    (call : Callable → list V → list (string * V) → result Obj)
    package name config args kwargs :
  str_has "." name = false →
  _init import_module getattr call (ConfigStr (package +:+ "." +:+ name))
    (ConfigDict config) args kwargs
  = (m ← import_module package;
     f ← getattr m name;
     kw ← merge_kwargs kwargs config;
     call f args kw)
  ∧ _init import_module getattr call (ConfigStr name) (ConfigDict config)
      args kwargs
    = (m ← import_module "";
       f ← getattr m name;
       kw ← merge_kwargs kwargs config;
       call f args kw).
Proof.
  intros Hname. split; [by apply _init_dotted|].
  unfold _init. rewrite (split_no_sep _ name Hname).
  change [name] with ([] ++ [name]).
  by rewrite py_slice_to_last, py_last_snoc.
Qed.


(** ** [_MultiHeadAttention]: the causal mask *)

Section causal_mask_facts.
Context {F : Type} (f0 f1 neg_inf : F) (feqb : F → F → bool).

Local Abbreviation causal_attn_mask' := (causal_attn_mask f0 f1 neg_inf feqb).

Lemma causal_attn_mask_entry seq_length i j :
  feqb f1 f0 = false → feqb f0 f0 = true →
  i < seq_length → j < seq_length →
  causal_attn_mask' seq_length !! i
  ≫= (λ row, row !! j) = Some (if decide (j ≤ i + 1) then f1 else neg_inf).
Proof.
  intros H1 H0 Hi Hj. unfold causal_attn_mask, masked_fill_zeros, tril, ones.
  rewrite list_lookup_fmap, list_lookup_imap.
  rewrite lookup_replicate_2 by done. cbn.
  rewrite list_lookup_fmap, list_lookup_imap.
  rewrite lookup_replicate_2 by done. cbn.
  destruct (decide (j ≤ i + 1)).
  - rewrite decide_True by lia. by rewrite H1.
  - rewrite decide_False by lia. by rewrite H0.
Qed.
End causal_mask_facts.

(** X6.
    The mask of a causal attention layer has [seq_length] rows of
    [seq_length] entries; the entry of query position [i] and key position
    [j] is [1.0] for [j <= i + 1] and [-inf] otherwise.  So the mask hides
    the positions from [i + 2] on and leaves the next position, [i + 1],
    open, and the open entries hold [1.0], not [0.0]. *)
Theorem causal_mask_opens_next_position {F X W : Type}
    (f0 f1 neg_inf : F) (feqb : F → F → bool) (size_1 : X → nat)
    (multi_head : X → X → X → option (list (list F)) → X * W)
    (query key value : X) :
  feqb f1 f0 = false → feqb f0 f0 = true →
  let mask := causal_attn_mask f0 f1 neg_inf feqb (size_1 key) in
  _MultiHeadAttention_forward f0 f1 neg_inf feqb size_1 multi_head true
    query key value
  = (multi_head query key value (Some mask)).1
  ∧ length mask = size_1 key
  ∧ Forall (λ row, length row = size_1 key) mask
  ∧ (∀ i j, i < size_1 key → j < size_1 key →
       mask !! i ≫= (λ row, row !! j)
       = Some (if decide (j ≤ i + 1) then f1 else neg_inf))
  ∧ (∀ i, i + 1 < size_1 key →
       mask !! i ≫= (λ row, row !! (i + 1)) = Some f1).
Proof.
  intros H1 H0 mask. subst mask. split; [done|]. split_and!.
  - unfold causal_attn_mask, masked_fill_zeros, tril, ones.
    by rewrite length_fmap, length_imap, length_replicate.
  - unfold causal_attn_mask, masked_fill_zeros, tril, ones.
    apply list.Forall_forall. intros row Hrow.
    apply list_elem_of_fmap in Hrow as (row' & -> & Hrow').
    apply list_elem_of_lookup in Hrow' as [i Hi].
    rewrite list_lookup_imap in Hi.
    destruct (replicate _ _ !! i) as [r|] eqn:Hr; [|done].
    apply lookup_replicate in Hr as [-> _]. cbn in Hi.
    injection Hi as <-.
    by rewrite length_fmap, length_imap, length_replicate.
  - intros i j Hi Hj. by apply causal_attn_mask_entry.
  - intros i Hi. rewrite causal_attn_mask_entry by (done || lia).
    by rewrite decide_True by lia.
Qed.

(** ** [SinuPosEncoding] *)

Section SinuPosEncoding_facts.
Context {F D : Type} (f0 : F) (fexp fsin fcos : F → F) (fmul : F → F → F).
Context (fscale : F → D → F) (of_nat : nat → F).
Context (log_10000 : D) (ddiv : D → nat → D) (dneg : D → D).
Context (fadd : F → F → F).

Local Abbreviation positionalencoding1d' :=
  (positionalencoding1d f0 fexp fsin fcos fmul fscale of_nat log_10000 ddiv
     dneg).
Local Abbreviation pe_angle' :=
  (pe_angle fexp fmul fscale of_nat log_10000 ddiv dneg).

Lemma positionalencoding1d_odd d_model length :
  Nat.odd d_model = true →
  positionalencoding1d' d_model length = Raise ValueError.
Proof.
  intros [k ->]%Nat.odd_spec. unfold positionalencoding1d.
  replace ((2 * k + 1) `mod` 2) with 1; [done|].
  rewrite Nat.add_comm, Nat.mul_comm, Nat.Div0.mod_add. done.
Qed.

Lemma positionalencoding1d_zero length :
  positionalencoding1d' 0 length = Raise ZeroDivisionError.
Proof. done. Qed.

Lemma entry3_zip_with (x : list (list (list F))) pe b t e v row p :
  entry3 x b t e = Some v → pe !! t = Some row → row !! e = Some p →
  entry3 ((λ example, zip_with (zip_with fadd) example pe) <$> x) b t e
  = Some (fadd v p).
Proof.
  unfold entry3. intros Hv Hrow Hp. rewrite list_lookup_fmap.
  destruct (x !! b) as [example|]; [|done]. cbn in *.
  rewrite lookup_zip_with.
  destruct (example !! t) as [xrow|]; [|done]. cbn in *.
  rewrite Hrow. cbn. rewrite lookup_zip_with, Hv. cbn. by rewrite Hp.
Qed.
End SinuPosEncoding_facts.

(** X7.
    [SinuPosEncoding.forward] fails with [ValueError] on an odd embedding
    size and with [ZeroDivisionError] on the size 0; on an even size other
    than 0 it returns a tensor of the shape of [x] in which the sine of the
    angle of position [t] and pair [i] is added to the entry [2i] of
    position [t], and its cosine to the entry [2i + 1], in every example of
    the batch alike. *)
Theorem SinuPosEncoding_forward_adds_table {F D : Type} (f0 : F)
    (fexp fsin fcos : F → F) (fmul : F → F → F) (fscale : F → D → F)
    (of_nat : nat → F) (log_10000 : D) (ddiv : D → nat → D) (dneg : D → D)
    (fadd : F → F → F) (x : tensor3 F) :
  let returned :=
    SinuPosEncoding_forward f0 fexp fsin fcos fmul fscale of_nat log_10000
      ddiv dneg fadd x in
  let angle := pe_angle fexp fmul fscale of_nat log_10000 ddiv dneg in
  (Nat.odd (size_E x) = true → returned = Raise ValueError)
  ∧ (size_E x = 0 → returned = Raise ZeroDivisionError)
  ∧ (Nat.even (size_E x) = true → 0 < size_E x → tensor3_wf x →
     ∃ y,
       returned = Ok y
       ∧ size_T y = size_T x ∧ size_E y = size_E x
       ∧ length (entries y) = length (entries x)
       ∧ tensor3_wf y
       ∧ ∀ b t i v w,
           entry3 (entries x) b t (2 * i) = Some v →
           entry3 (entries x) b t (2 * i + 1) = Some w →
           entry3 (entries y) b t (2 * i)
           = Some (fadd v (fsin (angle (size_E x) t i)))
           ∧ entry3 (entries y) b t (2 * i + 1)
             = Some (fadd w (fcos (angle (size_E x) t i)))).
Proof.
  intros returned angle. subst returned angle.
  unfold SinuPosEncoding_forward. split_and!.
  - intros Hodd. by rewrite positionalencoding1d_odd.
  - intros ->. by rewrite positionalencoding1d_zero.
  - intros Hev Hpos Hwf.
    destruct (positionalencoding1d_even f0 fexp fsin fcos fmul fscale of_nat
                log_10000 ddiv dneg (size_E x) (size_T x) Hev Hpos)
      as (pe & -> & Hlen & Hrows).
    eexists. split; [done|]. cbn [size_T size_E entries].
    split_and!; [done|done|by rewrite length_fmap| |].
    + unfold tensor3_wf. cbn [size_T size_E entries].
      apply Forall_fmap. revert Hwf. apply Forall_impl.
      intros example [HT HE]. cbn. split.
      * rewrite length_zip_with. lia.
      * apply list.Forall_forall. intros row Hrow.
        apply list_elem_of_lookup in Hrow as [t Ht].
        apply lookup_zip_with_Some in Ht as (xr & pr & -> & Hxr & Hpr).
        rewrite length_zip_with.
        destruct (Hrows t pr Hpr) as [Hl _].
        rewrite list.Forall_forall in HE.
        rewrite (HE xr) by by eapply list_elem_of_lookup_2. lia.
    + intros b t i v w Hv Hw.
      assert (∃ example, entries x !! b = Some example
                         ∧ ∃ xrow, example !! t = Some xrow
                                   ∧ xrow !! (2 * i + 1) = Some w)
        as (example & Hex & xrow & Hxrow & Hwi).
      { unfold entry3 in Hw. destruct (entries x !! b) as [ex|]; [|done].
        cbn in Hw. destruct (ex !! t) as [xr|] eqn:Hxr; [|done]. eauto. }
      unfold tensor3_wf in Hwf. rewrite list.Forall_forall in Hwf.
      destruct (Hwf example) as [HT HE];
        [by eapply list_elem_of_lookup_2|].
      rewrite list.Forall_forall in HE.
      assert (length xrow = size_E x) as Hxl
        by (apply HE; by eapply list_elem_of_lookup_2).
      assert (t < size_T x) as Ht
        by (rewrite <-HT; by eapply lookup_lt_Some).
      assert (2 * i + 1 < size_E x) as Hi
        by (rewrite <-Hxl; by eapply lookup_lt_Some).
      destruct (lookup_lt_is_Some_2 pe t) as [prow Hprow]; [lia|].
      destruct (Hrows t prow Hprow) as [_ Hsc].
      destruct (Hsc i Hi) as [Hs Hc].
      split; by eapply entry3_zip_with.
Qed.

(** ** [LanguageModel] *)

Section LanguageModel_facts.
Context {Ids X : Type} (audio_embedding regi_embedding : Ids → X).
Context (classifier transpose_1_2 : X → X).
Context (positional_encoding : X → result X).
Context (decoder_layer_forward : nat → layer_module → X → X).
Context (cross_forward : nat → nat * nat * bool → X → X → X).

Local Abbreviation blocks_forward' :=
  (blocks_forward decoder_layer_forward cross_forward).

Lemma block_forward_default i d_model nheads is_causal first hidden_dim x r :
  block_forward (decoder_layer_forward i) (cross_forward i)
    (CrossAttentionDecoderBlock_init d_model 1 1 nheads is_causal first
       hidden_dim) (x, r)
  = (cross_forward i (d_model, nheads, is_causal) x r, r).
Proof. unfold block_forward. by destruct first. Qed.

Lemma blocks_forward_default d_model nheads is_causal first hidden_dim r
    num : ∀ start y,
  foldl (λ args '(i, block),
           block_forward (decoder_layer_forward i) (cross_forward i) block
             args)
    (y, r)
    (imap (λ i, pair (start + i))
       (replicate num
          (CrossAttentionDecoderBlock_init d_model 1 1 nheads is_causal
             first hidden_dim)))
  = (foldl (λ y i, cross_forward i (d_model, nheads, is_causal) y r) y
       (seq start num), r).
Proof.
  induction num as [|num IH]; intros start y; [done|].
  cbn [replicate imap foldl seq]. rewrite Nat.add_0_r.
  rewrite block_forward_default.
  rewrite <-(IH (S start)). f_equal.
  apply imap_ext. intros k b _. cbn. f_equal. lia.
Qed.

Lemma fmap_const_seq {A} (a : A) start num :
  (λ _, a) <$> seq start num = replicate num a.
Proof.
  revert start. induction num as [|num IH]; intros start; [done|].
  cbn. by rewrite IH.
Qed.

Lemma LanguageModel_forward_default emb_num emb_dim nheads hidden_dim num
    is_causal first x register :
  LanguageModel_forward audio_embedding regi_embedding classifier
    transpose_1_2 positional_encoding decoder_layer_forward cross_forward
    (LanguageModel_init emb_num emb_dim nheads hidden_dim num is_causal first)
    x register
  = (y ← positional_encoding (audio_embedding x);
     r ← positional_encoding (regi_embedding register);
     Ok (transpose_1_2
           (classifier
              (foldl (λ y i, cross_forward i (emb_dim, nheads, is_causal) y r)
                 y (seq 0 num))))).
Proof.
  unfold LanguageModel_forward, LanguageModel_init. cbn [lm_layers].
  destruct (positional_encoding (audio_embedding x)) as [y|]; [|done].
  cbn [mbind result_bind].
  destruct (positional_encoding (regi_embedding register)) as [r|]; [|done].
  cbn [mbind result_bind]. unfold blocks_forward.
  rewrite fmap_const_seq.
  rewrite (imap_ext _ (λ i, pair (0 + i))) by done.
  by rewrite blocks_forward_default.
Qed.
End LanguageModel_facts.

(** X8.
    A [LanguageModel] is a stack of [num] cross-attention layers and holds
    no [SelmTransformerDecoderLayer] at all, the blocks being built with
    one layer each, of which none is left.  Its forward pass applies the
    cross-attention layers in turn to the encoded audio embedding, every
    one of them attending to the same encoded register embedding, and is
    the same whatever [hidden_dim] and [cross_first] are. *)
Theorem LanguageModel_is_cross_attention_only {Ids X : Type}
    (audio_embedding regi_embedding : Ids → X)
    (classifier transpose_1_2 : X → X)
    (positional_encoding : X → result X)
    (decoder_layer_forward : nat → layer_module → X → X)
    (cross_forward : nat → nat * nat * bool → X → X → X)
    emb_num emb_dim nheads hidden_dim num is_causal first x register :
  let forward :=
    LanguageModel_forward audio_embedding regi_embedding classifier
      transpose_1_2 positional_encoding decoder_layer_forward cross_forward in
  let self :=
    LanguageModel_init emb_num emb_dim nheads hidden_dim num is_causal first in
  length (lm_layers self) = num
  ∧ Forall (λ block, layers block = [] ∧ layers_regi block = []
                     ∧ cross block = (emb_dim, nheads, is_causal))
      (lm_layers self)
  ∧ forward self x register
    = (y ← positional_encoding (audio_embedding x);
       r ← positional_encoding (regi_embedding register);
       Ok (transpose_1_2
             (classifier
                (foldl
                   (λ y i, cross_forward i (emb_dim, nheads, is_causal) y r)
                   y (seq 0 num)))))
  ∧ ∀ hidden_dim' first',
      forward
        (LanguageModel_init emb_num emb_dim nheads hidden_dim' num is_causal
           first') x register
      = forward self x register.
Proof.
  intros forward self. subst forward self. split_and!.
  - cbn. by rewrite length_fmap, length_seq.
  - cbn. apply Forall_fmap, Forall_true. done.
  - apply LanguageModel_forward_default.
  - intros hidden_dim' first'. by rewrite !LanguageModel_forward_default.
Qed.

(** ** [WavLMKmeansConformer.forward]: a negative number of positions *)

Section wavlm_negative_ratio.
Context {E Ratio : Type} (mask_emb : E).
Context (ratio_is_zero : Ratio → bool) (int_mul : nat → Ratio → Z).

Local Abbreviation mask_row' := (mask_row mask_emb).
Local Abbreviation mask_index' := (mask_index ratio_is_zero int_mul).
Local Abbreviation masked_emb' := (masked_emb mask_emb ratio_is_zero int_mul).

Lemma masked_row_lookup idxs (row : list E) t :
  Forall (λ i, i < length row) idxs →
  mask_row' idxs row !! t
  = if decide (t ∈ idxs) then Some mask_emb else row !! t.
Proof.
  intros Hb. destruct (decide (t ∈ idxs)) as [Hin|Hout].
  - apply mask_row_masked; [done|]. by eapply list.Forall_forall in Hb.
  - by apply mask_row_other.
Qed.
End wavlm_negative_ratio.

(** X9.
    When [int(T * mask_ratio)] is negative, [-n] say, the slice
    [randperm(T)[:-n]] leaves out the last [n] positions of the permutation
    only: [T - n] distinct positions are overwritten with the mask
    embedding (none when [n >= T]), in every example alike, so a ratio
    slightly below zero masks almost every position. *)
Theorem forward_negative_ratio_masks_most {E Ratio : Type} (mask_emb : E)
    (ratio_is_zero : Ratio → bool) (int_mul : nat → Ratio → Z)
    (emb : list (list E)) (perm : list nat) (r : Ratio) :
  let T := size1 emb in
  Forall (λ row, length row = T) emb →
  perm ≡ₚ seq 0 T →
  ratio_is_zero r = false →
  (int_mul T r < 0)%Z →
  let n := Z.to_nat (- int_mul T r) in
  let chosen := mask_index ratio_is_zero int_mul emb (Some r) perm in
  chosen = take (T - n) perm
  ∧ NoDup chosen
  ∧ length chosen = T - n
  ∧ ∀ b row, emb !! b = Some row →
      ∃ row', masked_emb mask_emb ratio_is_zero int_mul emb (Some r) perm !! b
              = Some row'
              ∧ length row' = T
              ∧ ∀ t, row' !! t
                     = if decide (t ∈ chosen) then Some mask_emb
                       else row !! t.
Proof.
  intros T Hrect Hperm Hnz Hneg n chosen.
  assert (length perm = T) as Hpl by by rewrite Hperm, length_seq.
  assert (chosen = take (T - n) perm) as Hchosen.
  { subst chosen n. unfold mask_index. rewrite Hnz. unfold py_slice_to.
    fold T. rewrite decide_False by lia. by rewrite Hpl. }
  assert (NoDup perm) as Hnd by (rewrite Hperm; apply NoDup_seq).
  assert (Forall (λ t, t < T) chosen) as Hbound.
  { rewrite Hchosen. apply Forall_take. rewrite Hperm.
    apply list.Forall_forall. intros t Ht%elem_of_seq. lia. }
  split; [done|]. split_and!.
  - rewrite Hchosen. eapply sublist_NoDup; [done|apply sublist_take].
  - rewrite Hchosen, length_take. lia.
  - intros b row Hrow. unfold masked_emb.
    rewrite Hnz, list_lookup_fmap, Hrow. cbn [fmap option_fmap option_map].
    pose proof (Forall_lookup_1 _ _ _ _ Hrect Hrow) as Hlen.
    cbn beta in Hlen. eexists. split; [done|].
    split; [by rewrite mask_row_length|].
    intros t. apply masked_row_lookup. by rewrite Hlen.
Qed.

(** ** [decode_codec]: what is returned *)

Section decode_codec_returned.
Context {E F : Type} (zero_emb : E) (lm_embedding kmeans_emb : Z → E).
Context (codebook_size : Z) (predict_nq : nat).
Context (fltb : F → F → bool) (fadd : F → F → F) (f0 : F) (fpos : F → bool).
Context (softmax : list F → list F) (rng : nat → nat).
Context (codec_lm_score : list E → list E → list (list F)).

Local Abbreviation sampling_ids' :=
  (sampling_ids fltb fadd f0 fpos softmax rng).
Local Abbreviation sample_group' :=
  (sample_group fltb fadd f0 fpos softmax rng).
Local Abbreviation decode_step' topk_ties :=
  (decode_step zero_emb lm_embedding kmeans_emb codebook_size predict_nq
     fltb fadd f0 fpos softmax rng topk_ties codec_lm_score).
Local Abbreviation decode_loop' topk_ties :=
  (decode_loop zero_emb lm_embedding kmeans_emb codebook_size predict_nq
     fltb fadd f0 fpos softmax rng topk_ties codec_lm_score).
Local Abbreviation decode_codec' topk_ties :=
  (decode_codec zero_emb lm_embedding kmeans_emb codebook_size predict_nq
     fltb fadd f0 fpos softmax rng topk_ties codec_lm_score).


(** The best of the scores is the first index that [topk] returns,
    whatever [k] and the ranks of equal scores. *)
Lemma sampling_ids_best topk_ties ws beam_size st i v :
  (∀ x y, fltb x y = true → fltb y x = false) →
  ws !! i = Some v →
  (∀ j w, ws !! j = Some w → j ≠ i → fltb w v = true) →
  1 ≤ beam_size ≤ length ws →
  ∃ ids, sampling_ids' topk_ties ws (SamplingBool false) beam_size st
         = Ok (i :: ids, st).
Proof.
  intros Hasym Hv Hbest Hb. unfold sampling_ids.
  rewrite topk_ok by lia. cbn [mbind result_bind]. rewrite Nat2Z.id.
  destruct (topk_order_head fltb topk_ties Hasym ws (Z.of_nat beam_size) i v
              Hv Hbest) as [rest ->].
  destruct beam_size as [|b]; [lia|]. cbn. eauto.
Qed.

Lemma sample_group_greedy topk_ties topk_ties' pred beam_size n :
  (∀ x y, fltb x y = true → fltb y x = false) →
  1 ≤ beam_size →
  Forall (λ row, beam_size ≤ length row ∧ single_best fltb row) pred →
  ∀ k st,
    sample_group' topk_ties pred (SamplingBool false) beam_size k n st
    = sample_group' topk_ties' pred (SamplingBool false) 1 k n st.
Proof.
  intros Hasym Hb Hrows. induction n as [|n IH]; intros k st; [done|].
  cbn [sample_group].
  destruct (index pred k) as [row|] eqn:Hrow; [|done].
  cbn [mbind result_bind].
  assert (beam_size ≤ length row ∧ single_best fltb row)
    as (Hlen & i & v & Hv & Hbest).
  { unfold index in Hrow. destruct (pred !! k) as [row'|] eqn:Hk; [|done].
    injection Hrow as ->. by apply (Forall_lookup_1 _ _ _ _ Hrows Hk). }
  destruct (sampling_ids_best topk_ties row beam_size st i v Hasym Hv Hbest)
    as [ids ->]; [lia|].
  destruct (sampling_ids_best topk_ties' row 1 st i v Hasym Hv Hbest)
    as [ids' ->]; [lia|].
  cbn [mbind result_bind index lookup list_lookup]. by rewrite IH.
Qed.

Lemma decode_step_greedy topk_ties topk_ties' text text_lengths prompt
    beam_size codec_prompt out_tokens st :
  (∀ x y, fltb x y = true → fltb y x = false) →
  1 ≤ beam_size →
  (∀ seq_input prompt0,
     Forall (λ row, beam_size ≤ length row ∧ single_best fltb row)
       (codec_lm_score seq_input prompt0)) →
  decode_step' topk_ties text text_lengths prompt (SamplingBool false)
    beam_size codec_prompt out_tokens st
  = decode_step' topk_ties' text text_lengths prompt (SamplingBool false) 1
      codec_prompt out_tokens st.
Proof.
  intros Hasym Hb Hrows. unfold decode_step.
  destruct (build_llm_io _ _ _ _ _ _ _ _ _ _) as [io|]; [|done].
  cbn [mbind result_bind].
  destruct (index (io_inputs io) 0) as [seq0|]; [|done].
  cbn [mbind result_bind].
  destruct (index prompt 0) as [prompt0|]; [|done]. cbn [mbind result_bind].
  by rewrite (sample_group_greedy topk_ties topk_ties').
Qed.

Lemma decode_loop_greedy topk_ties topk_ties' text text_lengths prompt
    beam_size max_length :
  (∀ x y, fltb x y = true → fltb y x = false) →
  1 ≤ beam_size →
  (∀ seq_input prompt0,
     Forall (λ row, beam_size ≤ length row ∧ single_best fltb row)
       (codec_lm_score seq_input prompt0)) →
  ∀ out_tokens st,
    decode_loop' topk_ties max_length text text_lengths prompt
      (SamplingBool false) beam_size out_tokens st
    = decode_loop' topk_ties' max_length text text_lengths prompt
        (SamplingBool false) 1 out_tokens st.
Proof.
  intros Hasym Hb Hrows.
  induction max_length as [|n IH]; intros out st; [done|].
  cbn [decode_loop]. case_bool_decide.
  - destruct (tensor_of_groups out) as [cp|]; [|done].
    cbn [mbind result_bind].
    destruct (py_last out) as [lg|]; [|done]. cbn [mbind result_bind].
    destruct (has_eos _ lg); [done|].
    rewrite (decode_step_greedy topk_ties topk_ties') by done.
    destruct (decode_step' _ _ _ _ _ _ _ _ _) as [[out1 st1]|]; [|done].
    cbn [mbind result_bind]. apply IH.
  - rewrite (decode_step_greedy topk_ties topk_ties') by done.
    destruct (decode_step' _ _ _ _ _ _ _ _ _) as [[out1 st1]|]; [|done].
    cbn [mbind result_bind]. apply IH.
Qed.
End decode_codec_returned.


(** X11.
    With [sampling=False] the token of a quantizer is the first of the
    [beam_size] best ones.  When every row of scores has one score above
    all the others, that is the index of this score, whatever [beam_size]
    is and in whichever order the library returns equal scores: decoding
    returns the same for every [beam_size] from 1 up to the number of
    scores.  (With several best scores the first index of [torch.topk] may
    change with [beam_size].) *)
Theorem greedy_decoding_ignores_beam_size {E F : Type} (zero_emb : E)
    (lm_embedding kmeans_emb : Z → E) (codebook_size : Z) (predict_nq : nat)
    (fltb : F → F → bool) (fadd : F → F → F) (f0 : F) (fpos : F → bool)
    (softmax : list F → list F) (rng : nat → nat)
    (topk_ties topk_ties' : list F → Z → nat → nat)
    (codec_lm_score : list E → list E → list (list F))
    text aux text_lengths aux_lengths max_length beam_size continual st :
  (∀ x y, fltb x y = true → fltb y x = false) →
  1 ≤ beam_size →
  (∀ seq_input prompt,
     Forall (λ row, beam_size ≤ length row ∧ single_best fltb row)
       (codec_lm_score seq_input prompt)) →
  decode_codec zero_emb lm_embedding kmeans_emb codebook_size predict_nq
    fltb fadd f0 fpos softmax rng topk_ties codec_lm_score text aux
    text_lengths aux_lengths max_length (SamplingBool false) beam_size
    continual st
  = decode_codec zero_emb lm_embedding kmeans_emb codebook_size predict_nq
      fltb fadd f0 fpos softmax rng topk_ties' codec_lm_score text aux
      text_lengths aux_lengths max_length (SamplingBool false) 1 continual
      st.
Proof.
  intros Hasym Hb Hrows. unfold decode_codec.
  destruct (match aux with
            | Some aux0 => (Some [aux0], zip_with app [aux0] [text])
            | None => (None, [text])
            end) as [aux1 text1].
  destruct (decode_text_lengths _ _ _) as [tls|]; [|done].
  cbn [mbind result_bind].
  by rewrite (decode_loop_greedy zero_emb lm_embedding kmeans_emb
                codebook_size predict_nq fltb fadd f0 fpos softmax rng
                codec_lm_score topk_ties topk_ties' _ _ _ _ _ Hasym Hb Hrows).
Qed.

(** ** [build_llm_io]: lengths that do not fit the tensors *)

Lemma for_enumerate_Ok_inv {A B} (f : nat → A → result B) l :
  ∀ i ys, for_enumerate f i l = Ok ys →
          ∀ k x, l !! k = Some x → is_ok (f (i + k) x) = true.
Proof.
  induction l as [|x l IH]; intros i ys; [done|]. cbn [for_enumerate].
  destruct (f i x) as [y|] eqn:Hf; [|done]. cbn [mbind result_bind].
  destruct (for_enumerate f (S i) l) as [ys'|] eqn:Hrest; [|done].
  intros _ [|k] z Hk.
  - injection Hk as <-. by rewrite Nat.add_0_r, Hf.
  - replace (i + S k) with (S i + k) by lia. by eapply IH.
Qed.

Section build_llm_io_lengths.
Context {E : Type} (zero_emb : E) (lm_embedding kmeans_emb : Z → E).
Context (codebook_size : Z) (predict_nq : nat).

Local Abbreviation build_llm_inputs' :=
  (build_llm_inputs zero_emb lm_embedding kmeans_emb).
Local Abbreviation build_llm_io' :=
  (build_llm_io zero_emb lm_embedding kmeans_emb codebook_size predict_nq).
Local Abbreviation llm_sequence' := (llm_sequence lm_embedding).

Lemma llm_one_input_raise text codec_emb i text_len e :
  llm_one_input lm_embedding text codec_emb i text_len = Raise e →
  e = IndexError.
Proof.
  unfold llm_one_input.
  destruct (index text i) as [row|e1] eqn:Hrow; cbn [mbind result_bind].
  2:{ intros [= <-]. by eapply index_raise. }
  destruct codec_emb as [[em cl]|]; [|done].
  destruct (index cl i) as [l|e1] eqn:Hl; cbn [mbind result_bind].
  2:{ intros [= <-]. by eapply index_raise. }
  destruct (index em i) as [crow|e1] eqn:Hc; cbn [mbind result_bind]; [done|].
  intros [= <-]. by eapply index_raise.
Qed.

Lemma llm_inputs_list_beyond text text_lengths codec_emb :
  length text < length text_lengths →
  for_enumerate (llm_one_input lm_embedding text codec_emb) 0 text_lengths
  = Raise IndexError.
Proof.
  intros Hlt.
  destruct (for_enumerate _ 0 text_lengths) as [ys|e] eqn:Hfor.
  - destruct (lookup_lt_is_Some_2 text_lengths (length text) Hlt) as [l Hl].
    pose proof (for_enumerate_Ok_inv _ _ _ _ Hfor _ _ Hl) as Hok.
    cbn in Hok. unfold llm_one_input, index in Hok.
    by rewrite (lookup_ge_None_2 text (length text)) in Hok.
  - apply for_enumerate_raise in Hfor as (k & x & Hk).
    by apply llm_one_input_raise in Hk as ->.
Qed.

Lemma build_llm_inputs_beyond text text_lengths codec codec_lengths
    need_targets :
  length text < length text_lengths →
  (need_targets = true → is_Some codec ∧ is_Some codec_lengths) →
  (∀ c, codec = Some c → is_Some codec_lengths → nq c = 1) →
  build_llm_inputs' text text_lengths codec codec_lengths need_targets
  = Raise IndexError.
Proof.
  intros Hlt Hneed Hnq. unfold build_llm_inputs.
  assert ((if need_targets
           then py_assert (bool_decide (is_Some codec)
                           && bool_decide (is_Some codec_lengths))
           else Ok ()) = Ok ()) as ->.
  { destruct need_targets; [|done]. destruct Hneed as [??]; [done|].
    by rewrite !bool_decide_eq_true_2. }
  cbn [mbind result_bind].
  destruct codec as [c|], codec_lengths as [cl|]; cbn [mbind result_bind];
    try by rewrite llm_inputs_list_beyond.
  unfold calc_dense_vector. rewrite (Hnq c) by eauto.
  rewrite bool_decide_eq_true_2 by done.
  cbn [py_assert mbind result_bind]. by rewrite llm_inputs_list_beyond.
Qed.

Lemma llm_sequence_take text text_lengths :
  imap (llm_sequence' (take (length text_lengths) text) None) text_lengths
  = imap (llm_sequence' text None) text_lengths.
Proof.
  apply imap_ext. intros i l Hl. unfold llm_sequence.
  apply lookup_lt_Some in Hl. by rewrite lookup_take_lt.
Qed.

Lemma llm_sequence_lengths_clipped text text_lengths T :
  length text_lengths ≤ length text →
  Forall (λ row, length row = T) text →
  length <$> imap (llm_sequence' text None) text_lengths
  = (λ l, l `min` T + 2) <$> text_lengths.
Proof.
  intros Hlen Hrect. apply list_eq. intros i.
  rewrite !list_lookup_fmap, list_lookup_imap.
  destruct (text_lengths !! i) as [l|] eqn:Hl; [|done]. cbn.
  destruct (lookup_lt_is_Some_2 text i) as [row Hrow].
  { apply lookup_lt_Some in Hl. lia. }
  pose proof (Forall_lookup_1 _ _ _ _ Hrect Hrow) as Hr. cbn beta in Hr.
  unfold llm_sequence. rewrite Hrow. cbn.
  rewrite length_app, length_take. cbn. f_equal. lia.
Qed.

Lemma max_list_clipped (ls : list nat) T :
  ls ≠ [] →
  max_list ((λ l, l `min` T + 2) <$> ls) = max_list ls `min` T + 2.
Proof.
  induction ls as [|l ls IH]; [done|]. intros _.
  destruct ls as [|l' ls].
  { cbn [fmap list_fmap max_list]. unfold id. lia. }
  rewrite fmap_cons. cbn [max_list] in *. rewrite IH by done.
  unfold id. lia.
Qed.

Lemma build_llm_inputs_clipped text text_lengths T :
  text_lengths ≠ [] →
  length text_lengths ≤ length text →
  Forall (λ row, length row = T) text →
  build_llm_inputs' text text_lengths None None false
  = Ok (resize (max_list text_lengths `min` T + 2) zero_emb
          <$> imap (llm_sequence' text None) text_lengths,
        (λ l, l + 2) <$> text_lengths).
Proof.
  intros Hne Hlen Hrect. unfold build_llm_inputs. cbn [mbind result_bind].
  rewrite (llm_inputs_list lm_embedding text text_lengths None) by done.
  cbn [mbind result_bind].
  rewrite pad_list_ok by by apply imap_nonempty. cbn [mbind result_bind].
  rewrite (llm_sequence_lengths_clipped _ _ T) by done.
  by rewrite max_list_clipped.
Qed.
End build_llm_io_lengths.

(** X12.
    The batch is the one [text_lengths] describes.  With more lengths than
    examples in [text], [build_llm_io] fails with [IndexError] (provided its
    assertions hold); with fewer, the examples that have no length are
    left out of the inputs without a word. *)
Theorem build_llm_io_batch_of_text_lengths {E : Type} (zero_emb : E)
    (lm_embedding kmeans_emb : Z → E) (codebook_size : Z) (predict_nq : nat)
    (text : list (list E)) (text_lengths : list nat) :
  (length text < length text_lengths →
   ∀ codec codec_lengths need_targets,
     (need_targets = true → is_Some codec ∧ is_Some codec_lengths) →
     (∀ c, codec = Some c → is_Some codec_lengths → nq c = 1) →
     build_llm_io zero_emb lm_embedding kmeans_emb codebook_size predict_nq
       text text_lengths codec codec_lengths need_targets
     = Raise IndexError)
  ∧ (length text_lengths ≤ length text →
     build_llm_io zero_emb lm_embedding kmeans_emb codebook_size predict_nq
       text text_lengths None None false
     = build_llm_io zero_emb lm_embedding kmeans_emb codebook_size
         predict_nq (take (length text_lengths) text) text_lengths None None
         false
     ∧ ∀ io,
         build_llm_io zero_emb lm_embedding kmeans_emb codebook_size
           predict_nq text text_lengths None None false = Ok io →
         length (io_inputs io) = length text_lengths).
Proof.
  split.
  - intros Hlt codec cl need_targets Hneed Hnq. unfold build_llm_io.
    by rewrite build_llm_inputs_beyond.
  - intros Hlen. split.
    + unfold build_llm_io, build_llm_inputs. cbn [mbind result_bind].
      rewrite (llm_inputs_list lm_embedding text text_lengths None) by done.
      rewrite (llm_inputs_list lm_embedding (take _ text) text_lengths None)
        by (done || rewrite length_take; lia).
      by rewrite llm_sequence_take.
    + intros io. unfold build_llm_io, build_llm_inputs.
      cbn [mbind result_bind].
      rewrite (llm_inputs_list lm_embedding _ text_lengths None) by done.
      cbn [mbind result_bind].
      destruct (decide (text_lengths = [])) as [->|Hne]; [done|].
      rewrite pad_list_ok by by apply imap_nonempty.
      cbn. intros [= <-]. cbn. by rewrite length_fmap, length_imap.
Qed.

(** X13.
    The lengths are not checked against the width [T] of [text]: a length
    beyond [T] takes the [T] frames there are, so the inputs are
    [min(max(text_lengths), T) + 2] wide, while the length returned for the
    example is still [text_lengths[i] + 2], more than the inputs have. *)
Theorem build_llm_io_lengths_unchecked {E : Type} (zero_emb : E)
    (lm_embedding kmeans_emb : Z → E) (codebook_size : Z) (predict_nq : nat)
    (text : list (list E)) (text_lengths : list nat) (T : nat) :
  text_lengths ≠ [] →
  length text_lengths ≤ length text →
  Forall (λ row, length row = T) text →
  ∃ llm_inputs,
    build_llm_io zero_emb lm_embedding kmeans_emb codebook_size predict_nq
      text text_lengths None None false
    = Ok (LlmInputs llm_inputs ((λ l, l + 2) <$> text_lengths))
    ∧ length llm_inputs = length text_lengths
    ∧ Forall (λ row, length row = max_list text_lengths `min` T + 2)
        llm_inputs
    ∧ ∀ i l, text_lengths !! i = Some l → T < l →
        ∃ row, llm_inputs !! i = Some row
               ∧ length row < l + 2
               ∧ ((λ l, l + 2) <$> text_lengths) !! i = Some (l + 2).
Proof.
  intros Hne Hlen Hrect. eexists. split.
  { unfold build_llm_io. rewrite (build_llm_inputs_clipped _ _ _ _ _ T); done. }
  split; [by rewrite length_fmap, length_imap|].
  assert (Forall (λ row, length row = max_list text_lengths `min` T + 2)
            (resize (max_list text_lengths `min` T + 2) zero_emb
             <$> imap (llm_sequence lm_embedding text None) text_lengths))
    as Hwidth.
  { apply Forall_fmap, Forall_true. intros row. cbn. apply length_resize. }
  split; [done|].
  intros i l Hl Hbig.
  destruct (lookup_lt_is_Some_2
              (resize (max_list text_lengths `min` T + 2) zero_emb
               <$> imap (llm_sequence lm_embedding text None) text_lengths) i)
    as [row Hrow].
  { rewrite length_fmap, length_imap. by eapply lookup_lt_Some. }
  exists row. split; [done|].
  pose proof (Forall_lookup_1 _ _ _ _ Hwidth Hrow) as Hr. cbn beta in Hr.
  split; [lia|]. by rewrite list_lookup_fmap, Hl.
Qed.

(** ** [LauraGenModel]: construction *)

Lemma is_str_true {V} (v : config_value V) s :
  is_str v s = true ↔ v = ConfigStr s.
Proof.
  destruct v; cbn; try (split; [done|by intros [=]]).
  rewrite bool_decide_eq_true. split; [by intros ->|by intros [= ->]].
Qed.

Section build_codec_lm_facts.
Context {Mod V : Type}.
Context (TransformerEmbedLM : gmap string (config_value V) → outcome Mod).

Local Abbreviation build_codec_lm' := (build_codec_lm TransformerEmbedLM).

Lemma build_codec_lm_returns voc (conf : gmap string (config_value V)) lm
    conf' :
  build_codec_lm' voc conf = (Returns lm, conf') →
  conf' = conf
  ∧ conf !! "name" = Some (ConfigStr "transformer")
  ∧ conf !! "vocab_size" = None
  ∧ TransformerEmbedLM
      (<["vocab_size" := ConfigInt voc]>
         (<["text_vocab_size" :=
              default (ConfigInt voc) (conf !! "text_vocab_size")]>
            (delete "name" conf)))
    = Returns lm.
Proof.
  unfold build_codec_lm.
  destruct (conf !! "name") as [name|] eqn:Hname; [|done].
  destruct (is_str name "transformer") eqn:Hstr; [|done].
  apply is_str_true in Hstr as ->.
  destruct (decide (is_Some (delete "name" conf !! "vocab_size")))
    as [Hv|Hv]; [done|].
  rewrite lookup_delete_ne in Hv by done.
  set (kwargs := if decide _ then _ else _).
  destruct (TransformerEmbedLM _) as [lm'|] eqn:Hlm; [|done].
  intros [= -> <-]. split_and!.
  - rewrite insert_delete_eq. by apply insert_id.
  - done.
  - by apply eq_None_not_Some.
  - rewrite <-Hlm. f_equal. f_equal. subst kwargs.
    assert (delete "name" conf !! "text_vocab_size"
            = conf !! "text_vocab_size") as Hl by by apply lookup_delete_ne.
    destruct (decide (is_Some (delete "name" conf !! "text_vocab_size")))
      as [[t Ht]|Hn].
    + rewrite <-Hl, Ht. cbn. by apply insert_id.
    + apply eq_None_not_Some in Hn. rewrite <-Hl, Hn. done.
Qed.

Lemma build_codec_lm_conf voc (conf : gmap string (config_value V)) :
  (build_codec_lm' voc conf).2 = conf
  ∨ (build_codec_lm' voc conf).2 = delete "name" conf.
Proof.
  unfold build_codec_lm.
  destruct (conf !! "name") as [name|] eqn:Hname; [|by left].
  destruct (is_str name "transformer"); [|by right].
  destruct (decide _); [by right|].
  destruct (TransformerEmbedLM _); [|by right].
  left. cbn. rewrite insert_delete_eq. by apply insert_id.
Qed.
End build_codec_lm_facts.

(** X14.
    [build_codec_lm] takes ["name"] out of [conf] and puts it back only
    when the language model has been built: a call that returns leaves
    [conf] as it found it, having built the model from the other entries
    with [vocab_size] (and [text_vocab_size], unless [conf] has one) set to
    [lm_out_voc_size]; a [conf] without ["name"] is a [KeyError] and is
    left alone; any other failure, an unknown name or a [conf] that holds
    [vocab_size] among them, leaves the caller's [conf] without its
    ["name"]. *)
Theorem build_codec_lm_restores_conf {Mod V : Type}
    (TransformerEmbedLM : gmap string (config_value V) → outcome Mod)
    (lm_out_voc_size : Z) (conf : gmap string (config_value V)) :
  let returned := build_codec_lm TransformerEmbedLM lm_out_voc_size conf in
  (conf !! "name" = None → returned = (Raises KeyError, conf))
  ∧ (∀ lm_model,
       returned.1 = Returns lm_model →
       returned.2 = conf
       ∧ conf !! "name" = Some (ConfigStr "transformer")
       ∧ conf !! "vocab_size" = None
       ∧ TransformerEmbedLM
           (<["vocab_size" := ConfigInt lm_out_voc_size]>
              (<["text_vocab_size" :=
                   default (ConfigInt lm_out_voc_size)
                     (conf !! "text_vocab_size")]>
                 (delete "name" conf)))
         = Returns lm_model)
  ∧ (∀ name e,
       conf !! "name" = Some name → returned.1 = Raises e →
       returned.2 = delete "name" conf ∧ returned.2 !! "name" = None)
  ∧ (∀ name,
       conf !! "name" = Some name →
       name ≠ ConfigStr "transformer" ∨ is_Some (conf !! "vocab_size") →
       returned = (Raises (Builtin TypeError), delete "name" conf)).
Proof.
  intros returned. subst returned. split_and!.
  - intros Hname. unfold build_codec_lm. by rewrite Hname.
  - intros lm Hlm.
    destruct (build_codec_lm _ _ _) as [r conf'] eqn:Hb. cbn in Hlm.
    subst r. by apply build_codec_lm_returns in Hb.
  - intros name e Hname. unfold build_codec_lm. rewrite Hname.
    destruct (is_str name "transformer");
      [|intros _; split; [done|apply lookup_delete_eq]].
    destruct (decide _); [intros _; split; [done|apply lookup_delete_eq]|].
    destruct (TransformerEmbedLM _); [done|].
    intros _; split; [done|apply lookup_delete_eq].
  - intros name Hname Hbad. unfold build_codec_lm. rewrite Hname.
    destruct (is_str name "transformer") eqn:Hstr; [|done].
    apply is_str_true in Hstr as ->.
    destruct Hbad as [Hbad|Hbad]; [done|].
    rewrite decide_True; [done|]. by rewrite lookup_delete_ne.
Qed.

Section LauraGenModel_init_facts.
Context {Mod Float V : Type}.
Context (PositionalEncoding ScaledPositionalEncoding : Z → outcome Mod).
Context (Sequential : Mod).
Context (KMeansQuantizer : string → outcome Mod).
Context (Embedding : Z → Z → outcome Mod).
Context (TransformerEmbedLM : gmap string (config_value V) → outcome Mod).
Context (LabelSmoothingLoss : Z → Z → Float → bool → outcome Mod).

Local Abbreviation LauraGenModel_init' :=
  (LauraGenModel_init PositionalEncoding ScaledPositionalEncoding Sequential
     KMeansQuantizer Embedding TransformerEmbedLM LabelSmoothingLoss).

Lemma LauraGenModel_init_returns kmeans_ckpt pos_enc codec_conf ignore_id
    length_normalized_loss lsm_weight codec_lm_conf codec_sampling_ratio
    predict_nq pos_emb_type self conf' :
  LauraGenModel_init' kmeans_ckpt pos_enc codec_conf ignore_id
    length_normalized_loss lsm_weight codec_lm_conf codec_sampling_ratio
    predict_nq pos_emb_type = (Returns self, conf') →
  conf' = codec_lm_conf
  ∧ is_Some codec_lm_conf
  ∧ predict_nq ≠ 0
  ∧ pos_emb_type ∈ ["split"; "uni"]
  ∧ (∃ conf, codec_conf = Some conf
             ∧ self_codebook_size self
               = default 1000%Z (conf !! "codebook_size")
             ∧ self_codebook_dim self
               = default 1024%Z (conf !! "codebook_dim"))
  ∧ self_predict_nq self = predict_nq
  ∧ self_lm_out_voc_size self
    = ((self_codebook_size self + 1) * Z.of_nat predict_nq)%Z
  ∧ LabelSmoothingLoss (self_codebook_size self + 1)%Z ignore_id lsm_weight
      length_normalized_loss
    = Returns (self_criterion_ce self)
  ∧ self_text_encoder self = None
  ∧ self_text_enc_out_layer self = None
  ∧ self_quantizer_codebook self = None
  ∧ self_codec_encoder self = None
  ∧ self_codec_encoder_out_layer self = None.
Proof.
  unfold LauraGenModel_init.
  set (pec := match pos_enc with Some _ => _ | None => _ end).
  destruct pec as [pos_enc_class|]; [|done]. cbn [mbind outcome_bind].
  case_bool_decide as Htype; [|done]. cbn [mbind outcome_bind lift py_assert].
  destruct codec_conf as [conf|]; [|done]. cbn [mbind outcome_bind].
  destruct (pos_enc_class _) as [pef|]; [|done]. cbn [mbind outcome_bind].
  destruct (KMeansQuantizer _) as [km|]; [|done]. cbn [mbind outcome_bind].
  destruct (Embedding _ _) as [emb|]; [|done]. cbn [mbind outcome_bind].
  destruct codec_lm_conf as [lmconf|]; [|done].
  destruct (build_codec_lm _ _ _) as [[lm|] conf2] eqn:Hb; [|done].
  cbn [mbind outcome_bind].
  apply build_codec_lm_returns in Hb as (-> & _).
  unfold py_floordiv. case_decide as Hz; [done|].
  cbn [mbind outcome_bind lift].
  rewrite Z.div_mul by done.
  destruct (LabelSmoothingLoss _ _ _ _) as [crit|] eqn:Hcrit; [|done].
  cbn [mbind outcome_bind]. intros [= <- <-]. cbn.
  split_and!; try done; [lia|eauto].
Qed.
End LauraGenModel_init_facts.

(** X15.
    [LauraGenModel.__init__].  An unknown [pos_enc] is a [ValueError] and
    a [pos_emb_type] other than ["split"] and ["uni"] an [AssertionError],
    whatever the other arguments; the default [codec_conf=None] and
    [codec_lm_conf=None] make the call fail, and so does [predict_nq = 0].
    A call that returns has left [codec_lm_conf] as it was, has taken the
    codebook size and dimension from [codec_conf] (1000 and 1024 when
    absent), has set [lm_out_voc_size] to
    [(codebook_size + 1) * predict_nq] and built the loss for
    [codebook_size + 1] classes; the text encoder is [None], and
    [text_enc_out_layer], [quantizer_codebook], [codec_encoder] and
    [codec_encoder_out_layer] are not set. *)
Theorem LauraGenModel_init_checks {Mod Float V : Type}
    (PositionalEncoding ScaledPositionalEncoding : Z → outcome Mod)
    (Sequential : Mod) (KMeansQuantizer : string → outcome Mod)
    (Embedding : Z → Z → outcome Mod)
    (TransformerEmbedLM : gmap string (config_value V) → outcome Mod)
    (LabelSmoothingLoss : Z → Z → Float → bool → outcome Mod)
    kmeans_ckpt pos_enc codec_conf ignore_id length_normalized_loss
    lsm_weight codec_lm_conf codec_sampling_ratio predict_nq pos_emb_type :
  let returned :=
    LauraGenModel_init PositionalEncoding ScaledPositionalEncoding
      Sequential KMeansQuantizer Embedding TransformerEmbedLM
      LabelSmoothingLoss kmeans_ckpt pos_enc codec_conf ignore_id
      length_normalized_loss lsm_weight codec_lm_conf codec_sampling_ratio
      predict_nq pos_emb_type in
  (∀ s, pos_enc = Some s →
        s ∉ ["sinusoidal"; "abs_pos"; "scaled_abs_pos"] →
        returned = (Raises (Builtin ValueError), codec_lm_conf))
  ∧ ((∀ s, pos_enc = Some s →
           s ∈ ["sinusoidal"; "abs_pos"; "scaled_abs_pos"]) →
     pos_emb_type ∉ ["split"; "uni"] →
     returned = (Raises (Builtin AssertionError), codec_lm_conf))
  ∧ (codec_conf = None ∨ codec_lm_conf = None ∨ predict_nq = 0 →
     ∃ e, returned.1 = Raises e)
  ∧ (∀ self,
       returned.1 = Returns self →
       returned.2 = codec_lm_conf
       ∧ (∃ conf, codec_conf = Some conf
                  ∧ self_codebook_size self
                    = default 1000%Z (conf !! "codebook_size")
                  ∧ self_codebook_dim self
                    = default 1024%Z (conf !! "codebook_dim"))
       ∧ self_predict_nq self = predict_nq
       ∧ self_lm_out_voc_size self
         = ((self_codebook_size self + 1) * Z.of_nat predict_nq)%Z
       ∧ LabelSmoothingLoss (self_codebook_size self + 1)%Z ignore_id
           lsm_weight length_normalized_loss
         = Returns (self_criterion_ce self)
       ∧ self_text_encoder self = None
       ∧ self_text_enc_out_layer self = None
       ∧ self_quantizer_codebook self = None
       ∧ self_codec_encoder self = None
       ∧ self_codec_encoder_out_layer self = None).
Proof.
  intros returned. subst returned. split_and!.
  - intros s -> Hs. unfold LauraGenModel_init.
    apply not_elem_of_cons in Hs as [H1 Hs].
    apply not_elem_of_cons in Hs as [H2 Hs].
    apply not_elem_of_cons in Hs as [H3 _].
    rewrite (bool_decide_eq_false_2 (s ∈ ["sinusoidal"; "abs_pos"])).
    2:{ intros [?|[?|?%elem_of_nil]%elem_of_cons]%elem_of_cons; done. }
    by rewrite (bool_decide_eq_false_2 (s = "scaled_abs_pos")).
  - intros Hknown Htype. unfold LauraGenModel_init.
    set (pec := match pos_enc with Some _ => _ | None => _ end).
    assert (∃ c, pec = Returns c) as [c ->].
    { subst pec. destruct pos_enc as [s|]; [|eauto].
      specialize (Hknown s eq_refl).
      case_bool_decide as Ha; [eauto|]. case_bool_decide as Hb; [eauto|].
      exfalso. apply elem_of_cons in Hknown as [->|Hknown].
      { apply Ha. left. }
      apply elem_of_cons in Hknown as [->|Hknown].
      { apply Ha. right. left. }
      apply elem_of_cons in Hknown as [->|Hknown]; [done|].
      by apply elem_of_nil in Hknown. }
    cbn [mbind outcome_bind].
    by rewrite (bool_decide_eq_false_2 (pos_emb_type ∈ ["split"; "uni"])).
  - intros Hbad.
    destruct (LauraGenModel_init _ _ _ _ _ _ _ _ _ _ _ _ _ _ _ _ _)
      as [[self|e] conf'] eqn:Hinit; [|cbn; eauto].
    apply LauraGenModel_init_returns in Hinit
      as (_ & [c Hc] & Hnq & _ & (conf & Hconf & _) & _).
    destruct Hbad as [-> | [-> | ->]]; done.
  - intros self Hself.
    destruct (LauraGenModel_init _ _ _ _ _ _ _ _ _ _ _ _ _ _ _ _ _)
      as [r conf'] eqn:Hinit. cbn in Hself. subst r.
    apply LauraGenModel_init_returns in Hinit. cbn [snd]. tauto.
Qed.

(** X16.
    On a model that [__init__] has built, [encode] returns [text] and
    [text_lengths] as they are when the last axis of [text] has
    [codebook_dim] entries, and fails with [AttributeError] otherwise: the
    projection it would apply, [text_enc_out_layer], does not exist. *)
Theorem encode_after_init {Mod Float V X : Type}
    (PositionalEncoding ScaledPositionalEncoding : Z → outcome Mod)
    (Sequential : Mod) (KMeansQuantizer : string → outcome Mod)
    (Embedding : Z → Z → outcome Mod)
    (TransformerEmbedLM : gmap string (config_value V) → outcome Mod)
    (LabelSmoothingLoss : Z → Z → Float → bool → outcome Mod)
    (shape_last : X → Z)
    (call_encoder : Mod → X → list nat → result (X * list nat))
    (call_layer : Mod → X → result X)
    kmeans_ckpt pos_enc codec_conf ignore_id length_normalized_loss
    lsm_weight codec_lm_conf codec_sampling_ratio predict_nq pos_emb_type
    (self : LauraGenModel Mod Float) (text : X) (text_lengths : list nat) :
  (LauraGenModel_init PositionalEncoding ScaledPositionalEncoding
     Sequential KMeansQuantizer Embedding TransformerEmbedLM
     LabelSmoothingLoss kmeans_ckpt pos_enc codec_conf ignore_id
     length_normalized_loss lsm_weight codec_lm_conf codec_sampling_ratio
     predict_nq pos_emb_type).1 = Returns self →
  encode shape_last call_encoder call_layer self text text_lengths
  = if decide (shape_last text = self_codebook_dim self)
    then Ok (text, text_lengths)
    else Raise AttributeError.
Proof.
  intros Hself.
  destruct (LauraGenModel_init _ _ _ _ _ _ _ _ _ _ _ _ _ _ _ _ _)
    as [r conf'] eqn:Hinit. cbn in Hself. subst r.
  apply LauraGenModel_init_returns in Hinit
    as (_ & _ & _ & _ & _ & _ & _ & _ & Henc & Hlayer & _).
  unfold encode. rewrite Henc, Hlayer. by destruct (decide _).
Qed.

(** ** [LauraGenModel.forward] *)

Lemma pad_two_ok {A} (zero : A) t1 t1_lens t2 t2_lens :
  t1_lens ≠ [] →
  length t2_lens = length t1_lens →
  Forall2 (λ l r, l ≤ length r) t1_lens t1 →
  Forall2 (λ l r, l ≤ length r) t2_lens t2 →
  _pad_two zero t1 t1_lens t2 t2_lens
  = Ok (resize (max_list (zip_with Nat.add t1_lens t2_lens)) zero
          <$> imap (joined t1 t2) (zip t1_lens t2_lens),
        zip_with Nat.add t1_lens t2_lens).
Proof.
  intros Hne Hlen V1 V2.
  pose proof (Forall2_length V1) as L1.
  pose proof (Forall2_length V2) as L2.
  unfold _pad_two.
  rewrite pad_two_inputs_list by lia. cbn [mbind result_bind].
  rewrite pad_list_ok.
  2:{ intros Hnil. apply (f_equal length) in Hnil.
      rewrite length_imap, length_zip, Hlen, Nat.min_id in Hnil.
      by destruct t1_lens. }
  cbn [mbind result_bind].
  rewrite tensor_add_same_length by lia. cbn [mbind result_bind].
  by rewrite joined_lengths.
Qed.

Lemma pad_two_row {A} (zero : A) t1 t1_lens t2 t2_lens i r1 r2 l1 l2 :
  Forall2 (λ l r, l ≤ length r) t1_lens t1 →
  Forall2 (λ l r, l ≤ length r) t2_lens t2 →
  t1 !! i = Some r1 → t2 !! i = Some r2 →
  t1_lens !! i = Some l1 → t2_lens !! i = Some l2 →
  (resize (max_list (zip_with Nat.add t1_lens t2_lens)) zero
     <$> imap (joined t1 t2) (zip t1_lens t2_lens)) !! i
  = Some (take l1 r1 ++ take l2 r2
          ++ replicate
               (max_list (zip_with Nat.add t1_lens t2_lens) - (l1 + l2))
               zero).
Proof.
  intros V1 V2 Hr1 Hr2 Hl1 Hl2.
  rewrite list_lookup_fmap, list_lookup_imap.
  rewrite lookup_zip_with, Hl1. cbn. rewrite Hl2. cbn.
  unfold joined. rewrite Hr1, Hr2. cbn.
  pose proof (Forall2_lookup_lr _ _ _ _ _ _ V1 Hl1 Hr1) as B1.
  pose proof (Forall2_lookup_lr _ _ _ _ _ _ V2 Hl2 Hr2) as B2.
  cbn beta in B1, B2.
  assert (l1 + l2 ≤ max_list (zip_with Nat.add t1_lens t2_lens)) as Hmax.
  { apply max_list_elem_of_le, list_elem_of_lookup. exists i.
    rewrite lookup_zip_with, Hl1. cbn. by rewrite Hl2. }
  rewrite resize_ge by (rewrite length_app, !length_take; lia).
  rewrite length_app, !length_take, <-(assoc_L (++)).
  do 4 f_equal. lia.
Qed.

Section nll_forward_targets.
Context {E L : Type} (zero_emb : E) (lm_embedding kmeans_emb : Z → E).
Context (codebook_size : Z) (predict_nq : nat).
Context (codec_lm : list (list E) → list nat → list nat → list (list (list L))).

Local Abbreviation nll_forward' :=
  (nll_forward zero_emb lm_embedding kmeans_emb codebook_size predict_nq
     codec_lm).

Lemma nll_forward_target_rows text text_lengths c cl y target y_lengths :
  text_lengths ≠ [] →
  Forall2 (λ l r, l ≤ length r) text_lengths text →
  nq c = 1 →
  Forall (Forall (λ g, length g = 1)) (tokens c) →
  Forall2 (λ l r, l ≤ length r) cl (tokens c) →
  length cl = length text_lengths →
  nll_forward' text text_lengths c cl = Ok (y, target, y_lengths) →
  ∀ i l crow, cl !! i = Some l → tokens c !! i = Some crow →
    target !! i
    = Some (target_row codebook_size predict_nq
              (take (max_list cl) crow) l (max_list cl + 1)).
Proof.
  intros Hne V Hnq Hg Vc Hlen.
  assert (cl ≠ []) as Hcne by (destruct cl, text_lengths; done).
  pose proof (Forall2_length V) as LV.
  unfold nll_forward. rewrite !tensor_max_ok by done.
  cbn [mbind result_bind].
  set (text' := take (max_list text_lengths) <$> text).
  set (c' := CodecTensor (nq c) (take (max_list cl) <$> tokens c)).
  assert (Forall2 (λ l r, l ≤ length r) text_lengths text') as V'
    by by apply valid_lengths_take.
  assert (Forall2 (λ l r, l ≤ length r) cl (tokens c')) as Vc'
    by by apply valid_lengths_take.
  assert (Forall (Forall (λ g, length g = 1)) (tokens c')) as Hg'.
  { cbn. apply Forall_fmap. revert Hg. apply Forall_impl.
    intros r Hr. cbn. by apply Forall_take. }
  destruct (build_llm_targets_ok codebook_size predict_nq (length text') c' cl)
    as (tg & Htg & Htlen & Hrows); [done|done| |done|done|].
  { subst text'. rewrite length_fmap. lia. }
  unfold build_llm_io.
  rewrite (build_llm_inputs_some zero_emb lm_embedding kmeans_emb text'
             text_lengths c' cl true) by done.
  rewrite Htg. cbn [mbind result_bind negb].
  rewrite zip_with_fmap_l.
  set (lens := zip_with (λ z : nat, Nat.add (z + 2)) text_lengths cl).
  assert (lens ≠ []) as Hlne.
  { intros Heq%(f_equal length). subst lens.
    rewrite length_zip_with in Heq. destruct text_lengths, cl; done. }
  rewrite (tensor_max_ok lens) by done.
  rewrite (tensor_max_ok ((λ l, l + 1) <$> cl)).
  2:{ intros Heq%fmap_nil_inv. done. }
  cbn [mbind result_bind].
  rewrite max_list_fmap_succ by done.
  intros [= _ <- _] i l crow Hl Hcrow.
  assert (tokens c' !! i = Some (take (max_list cl) crow)) as Hcrow'.
  { subst c'. cbn. by rewrite list_lookup_fmap, Hcrow. }
  pose proof (Hrows i l _ Hl Hcrow') as Hrow.
  rewrite list_lookup_fmap, Hrow. cbn. f_equal.
  apply take_ge. rewrite target_row_length; [done| |].
  - destruct (Forall2_lookup_l _ _ _ _ _ Vc' Hl) as (crow2 & Hc2 & Hle).
    rewrite Hcrow' in Hc2. injection Hc2 as <-. done.
  - assert (l ≤ max_list cl); [|lia].
    apply max_list_elem_of_le, list_elem_of_lookup. eauto.
Qed.
End nll_forward_targets.

Lemma padded_rows_valid {A} (zero : A) (lens : list nat) (rows : list (list A)) :
  length rows = length lens →
  Forall2 (λ l r, l ≤ length r) lens
    (resize (max_list lens) zero <$> rows).
Proof.
  intros Hlen. apply Forall2_same_length_lookup_2.
  { by rewrite length_fmap. }
  intros i l r Hl Hr. rewrite list_lookup_fmap in Hr.
  destruct (rows !! i) as [row|]; [|done]. injection Hr as <-.
  rewrite length_resize.
  apply max_list_elem_of_le, list_elem_of_lookup. eauto.
Qed.

Lemma take_joined {A} (r1 r2 : list A) l1 l2 (pad : list A) :
  l1 ≤ length r1 → l2 ≤ length r2 →
  take (l1 + l2) (take l1 r1 ++ take l2 r2 ++ pad) = take l1 r1 ++ take l2 r2.
Proof.
  intros H1 H2. rewrite (assoc_L (++)).
  apply take_app_length'. rewrite length_app, !length_take. lia.
Qed.

Section forward_facts.
Context {Mod Float E L F : Type}.
Context (zero_emb : E) (lm_embedding kmeans_emb : Z → E).
Context (kmeans : list (list E) → list (list Z)).
Context (codec_lm : list (list E) → list nat → list nat → list (list (list L))).
Context (shape_last : list (list E) → Z).
Context (call_encoder :
  Mod → list (list E) → list nat → result (list (list E) * list nat)).
Context (call_layer : Mod → list (list E) → result (list (list E))).

Local Abbreviation forward_nll_inputs' :=
  (forward_nll_inputs (Float := Float) zero_emb kmeans shape_last
     call_encoder call_layer).

Lemma forward_nll_inputs_aux (self : LauraGenModel Mod Float)
    (quantize : E → Z) text text_lengths codec codec_lengths aux
    aux_lengths :
  text_lengths ≠ [] →
  length codec_lengths = length text_lengths →
  length aux_lengths = length text_lengths →
  Forall2 (λ l r, l ≤ length r) text_lengths text →
  Forall2 (λ l r, l ≤ length r) codec_lengths codec →
  Forall2 (λ l r, l ≤ length r) aux_lengths aux →
  (∀ t, kmeans t = fmap (M := list) (fmap (M := list) quantize) t) →
  self_text_encoder self = None →
  (∀ t, shape_last t = self_codebook_dim self) →
  let aux1 := take (max_list aux_lengths) <$> aux in
  let text1 := take (max_list text_lengths) <$> text in
  let codec1 := take (max_list codec_lengths) <$> codec in
  let tl := zip_with Nat.add aux_lengths text_lengths in
  let cl := zip_with Nat.add aux_lengths codec_lengths in
  forward_nll_inputs' self text text_lengths codec codec_lengths (Some aux)
    (Some aux_lengths)
  = Ok (resize (max_list tl) zero_emb
          <$> imap (joined aux1 text1) (zip aux_lengths text_lengths),
        tl,
        CodecTensor 1
          (fmap (M := list) (fmap (M := list) (λ f, [quantize f]))
             (resize (max_list cl) zero_emb
                <$> imap (joined aux1 codec1) (zip aux_lengths codec_lengths))),
        cl).
Proof.
  intros Hne Hcl Hal V Vc Va Hkmeans Henc Hdim aux1 text1 codec1 tl cl.
  assert (codec_lengths ≠ []) as Hcne by (destruct codec_lengths, text_lengths; done).
  assert (aux_lengths ≠ []) as Hane by (destruct aux_lengths, text_lengths; done).
  unfold forward_nll_inputs.
  rewrite (tensor_max_ok text_lengths), (tensor_max_ok codec_lengths) by done.
  cbn [mbind result_bind]. rewrite (tensor_max_ok aux_lengths) by done.
  cbn [mbind result_bind]. fold aux1 text1 codec1.
  rewrite (pad_two_ok zero_emb aux1 aux_lengths text1 text_lengths);
    [|done|lia|by apply valid_lengths_take..].
  cbn [mbind result_bind].
  rewrite (pad_two_ok zero_emb aux1 aux_lengths codec1 codec_lengths);
    [|done|lia|by apply valid_lengths_take..].
  cbn [mbind result_bind]. unfold encode. rewrite Henc.
  rewrite decide_True by apply Hdim. cbn [mbind result_bind].
  rewrite Hkmeans. do 3 f_equal.
  rewrite <-list_fmap_compose. f_equal.
  apply list_fmap_ext. intros i row _. cbn.
  by rewrite <-list_fmap_compose.
Qed.
End forward_facts.

(** X17.
    With an auxiliary prefix, [forward] asserts that its lengths are given
    and trains the language model to regenerate it: row [i] of the text
    handed to [nll] is [aux[i, :aux_lengths[i]]] followed by
    [text[i, :text_lengths[i]]], and row [i] of the targets holds the
    tokens of [aux[i, :aux_lengths[i]]], then those of
    [codec[i, :codec_lengths[i]]], then the end id; the lengths are
    [aux_lengths + text_lengths] and [aux_lengths + codec_lengths].  (The
    quantizer maps every frame on its own, and the text has [codebook_dim]
    entries per frame, so that [encode] leaves it alone.) *)
Theorem forward_trains_on_aux_then_codec {Mod Float E L : Type}
    (zero_emb : E) (lm_embedding kmeans_emb : Z → E)
    (kmeans : list (list E) → list (list Z))
    (codec_lm : list (list E) → list nat → list nat → list (list (list L)))
    (shape_last : list (list E) → Z)
    (call_encoder :
       Mod → list (list E) → list nat → result (list (list E) * list nat))
    (call_layer : Mod → list (list E) → result (list (list E)))
    (self : LauraGenModel Mod Float) (quantize : E → Z)
    text text_lengths codec codec_lengths aux aux_lengths :
  text_lengths ≠ [] →
  length codec_lengths = length text_lengths →
  length aux_lengths = length text_lengths →
  Forall2 (λ l r, l ≤ length r) text_lengths text →
  Forall2 (λ l r, l ≤ length r) codec_lengths codec →
  Forall2 (λ l r, l ≤ length r) aux_lengths aux →
  (∀ t, kmeans t = fmap (M := list) (fmap (M := list) quantize) t) →
  self_text_encoder self = None →
  (∀ t, shape_last t = self_codebook_dim self) →
  1 ≤ self_predict_nq self →
  let inputs :=
    forward_nll_inputs (Float := Float) zero_emb kmeans shape_last
      call_encoder call_layer self text text_lengths codec codec_lengths
      (Some aux) in
  let tl := zip_with Nat.add aux_lengths text_lengths in
  let cl := zip_with Nat.add aux_lengths codec_lengths in
  inputs None = Raise AssertionError
  ∧ ∃ text' codec',
      inputs (Some aux_lengths) = Ok (text', tl, codec', cl)
      ∧ (∀ i a t arow trow,
           aux_lengths !! i = Some a → text_lengths !! i = Some t →
           aux !! i = Some arow → text !! i = Some trow →
           ∃ row, text' !! i = Some row
                  ∧ take (a + t) row = take a arow ++ take t trow)
      ∧ ∃ y target,
          nll_forward zero_emb lm_embedding kmeans_emb
            (self_codebook_size self) (self_predict_nq self) codec_lm
            text' tl (take_quantizers (self_predict_nq self) codec') cl
          = Ok (y, target, (λ l, l + 1) <$> cl)
          ∧ ∀ i a c arow crow,
              aux_lengths !! i = Some a → codec_lengths !! i = Some c →
              aux !! i = Some arow → codec !! i = Some crow →
              ∃ row,
                target !! i = Some row
                ∧ take (a + c) row
                  = (λ f, replicate (self_predict_nq self) (quantize f))
                      <$> (take a arow ++ take c crow)
                ∧ row !! (a + c)
                  = Some (replicate (self_predict_nq self)
                            (eos_id (self_codebook_size self))).
Proof.
  intros Hne Hcl Hal V Vc Va Hkmeans Henc Hdim Hnq inputs tl cl.
  subst inputs. split.
  { unfold forward_nll_inputs.
    assert (codec_lengths ≠ []) by (destruct codec_lengths, text_lengths; done).
    by rewrite (tensor_max_ok text_lengths), (tensor_max_ok codec_lengths). }
  rewrite (forward_nll_inputs_aux zero_emb kmeans shape_last call_encoder
             call_layer self quantize) by done.
  fold tl cl.
  set (aux1 := take (max_list aux_lengths) <$> aux).
  set (text1 := take (max_list text_lengths) <$> text).
  set (codec1 := take (max_list codec_lengths) <$> codec).
  assert (Forall2 (λ l r, l ≤ length r) aux_lengths aux1) as Va1
    by by apply valid_lengths_take.
  assert (Forall2 (λ l r, l ≤ length r) text_lengths text1) as V1
    by by apply valid_lengths_take.
  assert (Forall2 (λ l r, l ≤ length r) codec_lengths codec1) as Vc1
    by by apply valid_lengths_take.
  pose proof (Forall2_length V) as LV.
  pose proof (Forall2_length Vc) as LVc.
  pose proof (Forall2_length Va) as LVa.
  set (text' := resize (max_list tl) zero_emb <$> _).
  set (padded := resize (max_list cl) zero_emb <$> _).
  eexists text', _. split; [reflexivity|].
  assert (∀ i a arow, aux_lengths !! i = Some a → aux !! i = Some arow →
            aux1 !! i = Some (take (max_list aux_lengths) arow)
            ∧ take a (take (max_list aux_lengths) arow) = take a arow) as Haux.
  { intros i a arow Ha Harow. subst aux1.
    rewrite list_lookup_fmap, Harow. split; [done|].
    rewrite take_take. f_equal.
    assert (a ≤ max_list aux_lengths); [|lia].
    apply max_list_elem_of_le, list_elem_of_lookup. eauto. }
  split.
  { intros i a t arow trow Ha Ht Harow Htrow.
    destruct (Haux i a arow Ha Harow) as [Ha1 Hta].
    assert (text1 !! i = Some (take (max_list text_lengths) trow)) as Ht1.
    { subst text1. by rewrite list_lookup_fmap, Htrow. }
    eexists. split.
    { subst text'. by apply pad_two_row. }
    pose proof (Forall2_lookup_lr _ _ _ _ _ _ Va1 Ha Ha1) as Ba.
    pose proof (Forall2_lookup_lr _ _ _ _ _ _ V1 Ht Ht1) as Bt.
    cbn beta in Ba, Bt. rewrite take_joined by done.
    rewrite Hta, take_take. do 2 f_equal.
    assert (t ≤ max_list text_lengths); [|lia].
    apply max_list_elem_of_le, list_elem_of_lookup. eauto. }
  set (c' := take_quantizers _ _).
  assert (length tl = length text_lengths) as Ltl.
  { subst tl. rewrite length_zip_with. lia. }
  assert (length cl = length text_lengths) as Lcl.
  { subst cl. rewrite length_zip_with. lia. }
  assert (tl ≠ []) as Htlne.
  { intros Heq. rewrite Heq in Ltl. by destruct text_lengths. }
  assert (Forall2 (λ l r, l ≤ length r) tl text') as Vt'.
  { subst text'. apply padded_rows_valid.
    rewrite length_imap, length_zip. lia. }
  assert (nq c' = 1) as Hnq1
    by (subst c'; unfold take_quantizers; cbn [nq]; lia).
  assert (tokens c'
          = fmap (M := list)
              (fmap (M := list) (λ f, [quantize f])) padded) as Htok.
  { subst c'. cbn. rewrite <-list_fmap_compose.
    apply list_fmap_ext. intros i row _. cbn.
    rewrite <-list_fmap_compose. apply list_fmap_ext. intros j f _. cbn.
    apply take_ge. cbn. lia. }
  assert (Forall (Forall (λ g, length g = 1)) (tokens c')) as Hg.
  { rewrite Htok. apply Forall_fmap, Forall_true. intros row. cbn.
    apply Forall_fmap, Forall_true. done. }
  assert (Forall2 (λ l r, l ≤ length r) cl (tokens c')) as Vc'.
  { assert (Forall2 (λ l r, l ≤ length r) cl padded) as Vp.
    { subst padded. apply padded_rows_valid.
      rewrite length_imap, length_zip. lia. }
    rewrite Htok. apply Forall2_fmap_r. revert Vp. apply Forall2_impl.
    intros l r. cbn. by rewrite length_fmap. }
  destruct (nll_forward_ok zero_emb lm_embedding kmeans_emb
              (self_codebook_size self) (self_predict_nq self) codec_lm
              text' tl c' cl Htlne Vt' Hnq1 Hg Vc')
    as (sequence & target & Hfw & _); [lia|].
  eexists _, target. split; [exact Hfw|].
  intros i a c arow crow Ha Hc Harow Hcrow.
  destruct (Haux i a arow Ha Harow) as [Ha1 Hta].
  assert (codec1 !! i = Some (take (max_list codec_lengths) crow)) as Hc1.
  { subst codec1. by rewrite list_lookup_fmap, Hcrow. }
  pose proof (Forall2_lookup_lr _ _ _ _ _ _ Va1 Ha Ha1) as Ba.
  pose proof (Forall2_lookup_lr _ _ _ _ _ _ Vc1 Hc Hc1) as Bc.
  cbn beta in Ba, Bc.
  assert (cl !! i = Some (a + c)) as Hl.
  { subst cl. rewrite lookup_zip_with, Ha. cbn. by rewrite Hc. }
  assert (a + c ≤ max_list cl) as Hmax.
  { apply max_list_elem_of_le, list_elem_of_lookup. eauto. }
  pose proof (pad_two_row zero_emb aux1 aux_lengths codec1 codec_lengths i
                _ _ a c Va1 Vc1 Ha1 Hc1 Ha Hc) as Hprow.
  fold cl in Hprow. fold padded in Hprow.
  set (prow := take a _ ++ take c _ ++ _) in Hprow.
  assert (tokens c' !! i = Some ((λ f, [quantize f]) <$> prow)) as Hcrow'.
  { by rewrite Htok, list_lookup_fmap, Hprow. }
  assert (length prow = max_list cl) as Hplen.
  { pose proof Ba as Ba'. pose proof Bc as Bc'.
    rewrite length_take in Ba', Bc'. subst prow.
    rewrite !length_app, !length_take, length_replicate. lia. }
  pose proof (nll_forward_target_rows zero_emb lm_embedding kmeans_emb
                (self_codebook_size self) (self_predict_nq self) codec_lm
                text' tl c' cl _ _ _ Htlne Vt' Hnq1 Hg Vc' ltac:(lia) Hfw
                i (a + c) _ Hl Hcrow') as Hrow.
  eexists. split; [exact Hrow|]. split.
  - rewrite target_row_prefix.
    2:{ rewrite length_take, length_fmap. lia. }
    rewrite take_take, <-fmap_take, <-list_fmap_compose.
    replace ((a + c) `min` max_list cl) with (a + c) by lia.
    subst prow. rewrite take_joined by done.
    rewrite Hta, take_take.
    replace (c `min` max_list codec_lengths) with c; [done|].
    assert (c ≤ max_list codec_lengths); [|lia].
    apply max_list_elem_of_le, list_elem_of_lookup. eauto.
  - apply target_row_eos; [|lia].
    rewrite length_take, length_fmap. lia.
Qed.

Lemma filter_all {A} (P : A → Prop) `{!∀ x, Decision (P x)} (l : list A) :
  Forall P l → filter P l = l.
Proof.
  induction 1 as [|x l Hx _ IH]; [done|].
  rewrite filter_cons_True by done. by rewrite IH.
Qed.

Lemma filter_none {A} (P : A → Prop) `{!∀ x, Decision (P x)} (l : list A) :
  Forall (λ x, ¬ P x) l → filter P l = [].
Proof.
  induction 1 as [|x l Hx _ IH]; [done|].
  by rewrite filter_cons_False.
Qed.

Lemma count_unpadded (l M : nat) :
  l ≤ M →
  length (filter (λ m, m = true)
            (negb <$> ((λ j, bool_decide (l ≤ j)) <$> seq 0 M))) = l.
Proof.
  intros Hle. replace M with (l + (M - l)) by lia.
  rewrite seq_app, !fmap_app, list.filter_app, length_app.
  rewrite filter_all, filter_none.
  - rewrite !length_fmap, length_seq. cbn. lia.
  - apply Forall_fmap, Forall_fmap, list.Forall_forall.
    intros j Hj%elem_of_seq. cbn. rewrite bool_decide_eq_true_2 by lia. done.
  - apply Forall_fmap, Forall_fmap, list.Forall_forall.
    intros j Hj%elem_of_seq. cbn. rewrite bool_decide_eq_false_2 by lia. done.
Qed.

Lemma count_output_mask (M : nat) (lengths : list nat) :
  Forall (λ l, l ≤ M) lengths →
  length (filter (λ m, m = true)
            (mjoin (fmap (M := list) (fmap (M := list) negb)
                      ((λ l, (λ j, bool_decide (l ≤ j)) <$> seq 0 M)
                         <$> lengths))))
  = sum_list lengths.
Proof.
  induction 1 as [|l ls Hl _ IH]; [done|].
  cbn [fmap list_fmap mjoin list_join sum_list].
  rewrite list.filter_app, length_app.
  change (list_fmap bool bool negb) with (fmap (M := list) negb).
  change (list_fmap nat bool (λ j, bool_decide (l ≤ j)))
    with (fmap (M := list) (λ j, bool_decide (l ≤ j))).
  rewrite count_unpadded by done. f_equal. exact IH.
Qed.

(** X18.
    The loss of [forward] is divided, when [length_normalized_loss] is
    set, by the number of target positions of the batch, the end ids (and
    the tokens of an auxiliary prefix) included, times [predict_nq], and by
    the number of examples times [predict_nq] otherwise; the latter is the
    weight returned in both cases, and the sequence length reported is the
    largest text length plus the largest codec length. *)
Theorem forward_normalizer_counts_targets {Mod Float F : Type}
    (self : LauraGenModel Mod Float) (nll : list (list (list F)))
    (target_lengths text_lengths codec_lengths : list nat) :
  target_lengths ≠ [] → text_lengths ≠ [] → codec_lengths ≠ [] →
  ∃ output_mask,
    forward_normalizer self nll target_lengths text_lengths codec_lengths
    = Ok (output_mask,
          if self_length_normalized_loss self
          then sum_list target_lengths * self_predict_nq self
          else length nll * self_predict_nq self,
          length nll * self_predict_nq self,
          max_list text_lengths + max_list codec_lengths)
    ∧ length output_mask = length target_lengths
    ∧ ∀ i l j,
        target_lengths !! i = Some l → j < max_list target_lengths →
        output_mask !! i ≫= (λ row, row !! j) = Some (bool_decide (j < l)).
Proof.
  intros Ht Htl Hcl. unfold forward_normalizer.
  rewrite (tensor_max_ok target_lengths) by done. cbn [mbind result_bind].
  rewrite make_pad_mask_ok by done. cbn [mbind result_bind].
  rewrite (tensor_max_ok text_lengths), (tensor_max_ok codec_lengths) by done.
  cbn [mbind result_bind].
  rewrite count_output_mask.
  2:{ apply list.Forall_forall. intros l Hl.
      by apply max_list_elem_of_le. }
  eexists. split; [reflexivity|]. split.
  - by rewrite !length_fmap.
  - intros i l j Hl Hj.
    rewrite !list_lookup_fmap, Hl. cbn.
    rewrite !list_lookup_fmap, lookup_seq_lt by done. cbn.
    f_equal. destruct (decide (l ≤ j)).
    + rewrite bool_decide_eq_true_2, bool_decide_eq_false_2 by lia. done.
    + rewrite bool_decide_eq_false_2, bool_decide_eq_true_2 by lia. done.
Qed.

(** ** [LauraGenModel.cal_codec_emb] *)

(** X19.
    On a model that [__init__] has built, [cal_codec_emb] does not get past
    the first turn of its first loop: there is at least one quantizer, and
    once [codec_prob[:, :, 0]] is taken the codebook it multiplies with,
    [self.quantizer_codebook], does not exist.  The call fails, with
    [AttributeError] unless the indexing has failed before. *)
Theorem cal_codec_emb_never_starts {Mod Float V Prob Mat Emb : Type}
    (PositionalEncoding ScaledPositionalEncoding : Z → outcome Mod)
    (Sequential : Mod) (KMeansQuantizer : string → outcome Mod)
    (Embedding : Z → Z → outcome Mod)
    (TransformerEmbedLM : gmap string (config_value V) → outcome Mod)
    (LabelSmoothingLoss : Z → Z → Float → bool → outcome Mod)
    (select_quantizer : Prob → nat → result Mat)
    (codebook_embed : Mod → nat → result Mat)
    (matmul : Mat → Mat → result Emb) (emb_add : Emb → Emb → result Emb)
    kmeans_ckpt pos_enc codec_conf ignore_id length_normalized_loss
    lsm_weight codec_lm_conf codec_sampling_ratio predict_nq pos_emb_type
    (self : LauraGenModel Mod Float) (codec_prob : Prob) :
  (LauraGenModel_init PositionalEncoding ScaledPositionalEncoding
     Sequential KMeansQuantizer Embedding TransformerEmbedLM
     LabelSmoothingLoss kmeans_ckpt pos_enc codec_conf ignore_id
     length_normalized_loss lsm_weight codec_lm_conf codec_sampling_ratio
     predict_nq pos_emb_type).1 = Returns self →
  ∃ e,
    cal_codec_emb_first_nq_emb select_quantizer codebook_embed matmul
      emb_add self codec_prob = Raise e
    ∧ (is_ok (select_quantizer codec_prob 0) = true → e = AttributeError).
Proof.
  intros Hself.
  destruct (LauraGenModel_init _ _ _ _ _ _ _ _ _ _ _ _ _ _ _ _ _)
    as [r conf'] eqn:Hinit. cbn in Hself. subst r.
  apply LauraGenModel_init_returns in Hinit
    as (_ & _ & Hnq & _ & _ & Hpnq & _ & _ & _ & _ & Hcodebook & _).
  unfold cal_codec_emb_first_nq_emb. rewrite Hpnq.
  destruct predict_nq as [|n]; [done|]. cbn [first_nq_emb_loop].
  destruct (select_quantizer codec_prob 0) as [p|e]; cbn [mbind result_bind].
  - rewrite Hcodebook. cbn. eauto.
  - exists e. split; [done|]. cbn. done.
Qed.

(** ** [LauraGenModel._target_mask] *)

(** X20.
    Given the lower-triangular mask that [subsequent_mask] returns,
    [_target_mask] lets position [i] of example [b] see the positions [j]
    with [j <= i] that lie within the length of the example. *)
Theorem target_mask_entries (subsequent_mask : nat → list (list bool))
    (lengths : list nat) :
  lengths ≠ [] →
  (∀ n, length (subsequent_mask n) = n
        ∧ ∀ i row, subsequent_mask n !! i = Some row →
            row = (λ j, bool_decide (j ≤ i)) <$> seq 0 n) →
  let L := max_list lengths in
  ∃ mask,
    _target_mask subsequent_mask lengths = Ok mask
    ∧ length mask = length lengths
    ∧ ∀ b l i j,
        lengths !! b = Some l → i < L → j < L →
        ∃ rows row,
          mask !! b = Some rows ∧ length rows = L
          ∧ rows !! i = Some row ∧ length row = L
          ∧ row !! j = Some (bool_decide (j < l ∧ j ≤ i)).
Proof.
  intros Hne Hm L. subst L. unfold _target_mask.
  rewrite make_pad_mask_ok by done. cbn [mbind result_bind].
  set (ys_mask := fmap (M := list) (fmap (M := list) negb) _).
  assert (size1 ys_mask = max_list lengths) as Hsize.
  { subst ys_mask. destruct lengths as [|l ls]; [done|].
    cbn [fmap list_fmap size1]. by rewrite !length_fmap, length_seq. }
  rewrite Hsize. eexists. split; [reflexivity|]. split.
  { subst ys_mask. by rewrite !length_fmap. }
  intros b l i j Hl Hi Hj.
  destruct (Hm (max_list lengths)) as [HmL Hmrows].
  destruct (lookup_lt_is_Some_2 (subsequent_mask (max_list lengths)) i)
    as [mrow Hmrow]; [lia|].
  pose proof (Hmrows i mrow Hmrow) as ->.
  eexists _, _. split.
  { subst ys_mask. rewrite !list_lookup_fmap, Hl. cbn. reflexivity. }
  split; [by rewrite length_fmap|]. split.
  { rewrite list_lookup_fmap, Hmrow. cbn. reflexivity. }
  split.
  { rewrite length_zip_with, !length_fmap, !length_seq. lia. }
  rewrite lookup_zip_with, !list_lookup_fmap.
  rewrite lookup_seq_lt by done. cbn. f_equal.
  repeat case_bool_decide; cbn; try done; lia.
Qed.

(** ** [inference/infer.py] *)

Section inference_facts.
Context {A Wave Data : Type}.
Context (my_model : list (item A) → outcome (list (string * list Wave))).
Context (build_streaming_iterator :
  option Data → outcome (list (list string * gmap string (list (item A))))).
Context (expand_audio : A → outcome A).
Context (path_join : string → string → string).

Local Abbreviation raw_loader' := (raw_loader expand_audio).
Local Abbreviation save_all' := (save_all (Wave := Wave) path_join).
Local Abbreviation generate_all' := (generate_all my_model path_join).

Lemma raw_loader_text_only (raw_inputs : list (item A)) text :
  raw_inputs !! 0 = Some text → length raw_inputs ≠ 3 →
  raw_loader' raw_inputs = Returns [(["utt1"], {[ "text" := [text] ]})].
Proof.
  intros Ht Hlen. unfold raw_loader. rewrite (index_ok _ _ _ Ht).
  cbn [lift mbind outcome_bind]. by rewrite decide_False.
Qed.

Lemma raw_loader_prompt (text prompt_text : item A) a a' :
  expand_audio a = Returns a' →
  raw_loader' [text; prompt_text; Array a]
  = Returns [(["utt1"],
              <["prompt_audio" := [Array a']]>
                (<["prompt_text" := [prompt_text]]> {[ "text" := [text] ]}))].
Proof. intros Ha. unfold raw_loader. cbn. by rewrite Ha. Qed.

Lemma raw_loader_audio_path (text prompt_text : item A) path :
  raw_loader' [text; prompt_text; Str path] = Raises NameError.
Proof. done. Qed.

Lemma model_inputs_text_only (text : item A) :
  model_inputs {[ "text" := [text] ]} = Returns [text].
Proof.
  unfold model_inputs, getitem. rewrite lookup_singleton_eq.
  cbn [mbind outcome_bind lift index lookup list_lookup foldl].
  by rewrite !lookup_singleton_ne.
Qed.

Lemma model_inputs_prompt (text prompt_text prompt_audio : item A) :
  model_inputs
    (<["prompt_audio" := [prompt_audio]]>
       (<["prompt_text" := [prompt_text]]> {[ "text" := [text] ]}))
  = Returns [text; prompt_text; prompt_audio].
Proof.
  set (data := <["prompt_audio" := _]> _).
  assert (data !! "text" = Some [text]) as Htext.
  { subst data. rewrite !lookup_insert_ne by done.
    apply lookup_singleton_eq. }
  assert (data !! "prompt_text" = Some [prompt_text]) as Hprompt.
  { subst data. rewrite lookup_insert_ne by done. apply lookup_insert_eq. }
  assert (data !! "prompt_audio" = Some [prompt_audio]) as Haudio.
  { subst data. apply lookup_insert_eq. }
  unfold model_inputs, getitem. rewrite Htext.
  cbn [mbind outcome_bind lift index lookup list_lookup foldl].
  by rewrite Hprompt, Haudio.
Qed.

Lemma save_all_saves output_path key (ret_val : list (string * list Wave)) :
  ∀ log,
    Forall (λ sw, sw.2 ≠ []) ret_val →
    ∃ saved,
      save_all' output_path key ret_val log = (Returns (), log ++ saved)
      ∧ length saved = length ret_val
      ∧ ∀ i suffix wave,
          ret_val !! i = Some (suffix, wave) →
          ∃ wave0,
            head wave = Some wave0
            ∧ saved !! i
              = Some (SaveAudio wave0
                        (path_join output_path
                           (str_remove ".wav" key +:+ "_" +:+ suffix
                            +:+ ".wav"))).
Proof.
  induction ret_val as [|[suffix wave] rest IH]; intros log Hall.
  { exists []. rewrite app_nil_r. by split_and!. }
  apply Forall_cons_1 in Hall as [Hw Hall]. cbn in Hw.
  destruct wave as [|wave0 wave]; [done|].
  cbn [save_all index lookup list_lookup].
  destruct (IH (log ++ [SaveAudio wave0
                          (path_join output_path
                             (str_remove ".wav" key +:+ "_" +:+ suffix
                              +:+ ".wav"))]) Hall)
    as (saved & Hsaved & Hlen & Hrows).
  eexists (_ :: saved). split_and!.
  - rewrite Hsaved. by rewrite <-(assoc_L (++)).
  - cbn. by rewrite Hlen.
  - intros [|i] s w Hi.
    + injection Hi as <- <-. eauto.
    + by apply Hrows.
Qed.
End inference_facts.

(** X21.
    [_forward] on raw inputs.  The model is called once: on the text alone
    unless exactly three raw inputs are given, in which case the prompt
    text and the prompt audio follow it; a prompt audio given as a file
    name is a [NameError] ([librosa] is not imported) before anything is
    done.  Without an output directory the call returns the one item
    [utt1] with what the model returned and touches no file; with one
    ([output_dir_v2] if given, [output_dir] otherwise) it creates the
    directory, saves the first waveform of every suffix under
    [utt1_<suffix>.wav] there and returns an empty list. *)
Theorem forward_raw_inputs {A Wave Data : Type}
    (my_model : list (item A) → outcome (list (string * list Wave)))
    (build_streaming_iterator :
       option Data → outcome (list (list string * gmap string (list (item A)))))
    (expand_audio : A → outcome A) (path_join : string → string → string)
    (output_dir output_dir_v2 : option string) :
  let forward raw_inputs :=
    _forward my_model build_streaming_iterator expand_audio path_join
      output_dir None (Some raw_inputs) output_dir_v2 in
  let output_path :=
    match output_dir_v2 with Some p => Some p | None => output_dir end in
  let generated inputs r :=
    ∀ ret_val,
      my_model inputs = Returns ret_val →
      match output_path with
      | None => r = (Returns [("utt1", ret_val)], [])
      | Some p =>
          Forall (λ sw, sw.2 ≠ []) ret_val →
          ∃ saved,
            r = (Returns [], MakeDirs p :: saved)
            ∧ length saved = length ret_val
            ∧ ∀ i suffix wave,
                ret_val !! i = Some (suffix, wave) →
                ∃ wave0,
                  head wave = Some wave0
                  ∧ saved !! i
                    = Some (SaveAudio wave0
                              (path_join p
                                 ("utt1_" +:+ suffix +:+ ".wav")))
      end in
  (∀ raw_inputs text,
     raw_inputs !! 0 = Some text → length raw_inputs ≠ 3 →
     generated [text] (forward raw_inputs))
  ∧ (∀ text prompt_text a a',
       expand_audio a = Returns a' →
       generated [text; prompt_text; Array a']
         (forward [text; prompt_text; Array a]))
  ∧ (∀ text prompt_text path,
       forward [text; prompt_text; Str path] = (Raises NameError, [])).
Proof.
  intros forward output_path generated.
  assert (∀ data inputs,
            model_inputs data = Returns inputs →
            generated inputs
              (generate_all my_model path_join output_path
                 [(["utt1"], data)] []
                 match output_path with
                 | Some p => [MakeDirs p]
                 | None => []
                 end)) as Hgen.
  { intros data inputs Hin ret_val Hret. cbn [generate_all].
    cbn [index lookup list_lookup lift mbind outcome_bind].
    rewrite Hin. cbn [mbind outcome_bind]. rewrite Hret.
    cbn [mbind outcome_bind].
    destruct output_path as [p|]; [|done].
    intros Hall.
    destruct (save_all_saves path_join p "utt1" ret_val [MakeDirs p] Hall)
      as (saved & -> & Hlen & Hrows).
    exists saved. by split_and!. }
  subst forward. split_and!.
  - intros raw_inputs text Ht Hlen. unfold _forward.
    rewrite (raw_loader_text_only expand_audio raw_inputs text) by done.
    apply Hgen, model_inputs_text_only.
  - intros text prompt_text a a' Ha. unfold _forward.
    rewrite (raw_loader_prompt expand_audio text prompt_text a a') by done.
    apply Hgen, model_inputs_prompt.
  - intros text prompt_text path. unfold _forward.
    by rewrite raw_loader_audio_path.
Qed.

(** ** [WavLMKmeansConformer]: reconstruction and inference *)

Section wavlm_inference_facts.
Context {E Tok Loss Ratio Wave : Type} (mask_emb : E).
Context (kmeans : list (list E) → list (list Tok)).
Context (kmeans_embedding : list (list Tok) → list (list E)).
Context (conformer : list (list E) → list nat → list (list E) * list nat).
Context (mse_loss ssim : list (list E) → list (list E) → Loss).
Context (loss_add : Loss → Loss → Loss).
Context (ratio_is_zero : Ratio → bool) (int_mul : nat → Ratio → Z).
Context (hifi : list (list E) → Wave).

Lemma masked_emb_unmasked emb mask_ratio perm :
  (∀ r, mask_ratio = Some r → ratio_is_zero r = true) →
  masked_emb mask_emb ratio_is_zero int_mul emb mask_ratio perm = emb.
Proof.
  intros Hzero. unfold masked_emb. destruct mask_ratio as [r|]; [|done].
  by rewrite (Hzero r).
Qed.

Lemma recon_forward_unmasked emb mask_ratio perm :
  (∀ r, mask_ratio = Some r → ratio_is_zero r = true) →
  recon hifi
    (forward mask_emb kmeans kmeans_embedding conformer mse_loss ssim
       loss_add ratio_is_zero int_mul emb mask_ratio perm).1.1.1.1
  = inference kmeans_embedding conformer hifi (kmeans emb)
  ∧ (forward mask_emb kmeans kmeans_embedding conformer mse_loss ssim
       loss_add ratio_is_zero int_mul emb mask_ratio perm).1.1.1.2
    = emb.
Proof.
  intros Hzero. unfold forward, recon, inference. cbn [fst snd].
  by rewrite masked_emb_unmasked.
Qed.
End wavlm_inference_facts.

(** X22.
    Without masking ([mask_ratio] [None] or [0.0]), reconstructing audio
    from what [forward] returns is [inference] on the k-means tokens of the
    embeddings, and the embeddings [forward] hands back are the ones it was
    given.  [inference_audio] is built on this: were [split_audio] bound,
    it would split the audio into pieces of 48080 samples, return the
    [inference] of the tokens of the WavLM embeddings of the pieces, joined
    and cut to the length of the input; but the module binds no
    [split_audio], and the call raises [NameError] before anything else is
    done. *)
Theorem inference_audio_needs_split_audio
    {E Tok Loss Ratio Wave Piece : Type} (mask_emb : E)
    (kmeans : list (list E) → list (list Tok))
    (kmeans_embedding : list (list Tok) → list (list E))
    (conformer : list (list E) → list nat → list (list E) * list nat)
    (mse_loss ssim : list (list E) → list (list E) → Loss)
    (loss_add : Loss → Loss → Loss)
    (ratio_is_zero : Ratio → bool) (int_mul : nat → Ratio → Z)
    (hifi : list (list E) → Wave)
    (squeeze_0 : Wave → Piece) (unsqueeze_0 : Piece → Wave)
    (cat_1 : list Wave → result Wave) (slice_1 : Wave → nat → Wave)
    (wave_size_1 : Wave → nat) (x : Wave) (wavlm : Wave → list (list E)) :
  let forward :=
    forward mask_emb kmeans kmeans_embedding conformer mse_loss ssim loss_add
      ratio_is_zero int_mul in
  let inference_audio :=
    inference_audio mask_emb kmeans kmeans_embedding conformer mse_loss ssim
      loss_add ratio_is_zero int_mul hifi squeeze_0 unsqueeze_0 cat_1 slice_1
      wave_size_1 in
  (∀ emb mask_ratio perm,
     (∀ r, mask_ratio = Some r → ratio_is_zero r = true) →
     recon hifi (forward emb mask_ratio perm).1.1.1.1
     = inference kmeans_embedding conformer hifi (kmeans emb)
     ∧ (forward emb mask_ratio perm).1.1.1.2 = emb)
  ∧ inference_audio None x wavlm = Raises NameError
  ∧ ∀ split_audio,
      inference_audio (Some split_audio) x wavlm
      = (audio ← lift (cat_1
                         ((λ piece,
                             inference kmeans_embedding conformer hifi
                               (kmeans (wavlm (unsqueeze_0 piece))))
                          <$> split_audio (squeeze_0 x) 48080%Z));
         Returns (slice_1 audio (wave_size_1 x))).
Proof.
  intros forward' inference_audio'. subst forward' inference_audio'.
  split_and!.
  - intros emb mask_ratio perm Hzero. by apply recon_forward_unmasked.
  - done.
  - intros split_audio. unfold inference_audio.
    cbn [read_global mbind outcome_bind].
    rewrite (list_fmap_ext _
               (λ piece, inference kmeans_embedding conformer hifi
                           (kmeans (wavlm (unsqueeze_0 piece))))); [done|].
    intros i piece _. cbn beta zeta. by apply recon_forward_unmasked.
Qed.

(** ** [update_args] *)

Section update_args_facts.
Context {V : Type}.

Lemma setattr_items_str (items : list (string * V)) : ∀ args rest,
  setattr_items args (str_items items ++ rest)
  = setattr_items (list_to_map (reverse items) ∪ args) rest.
Proof.
  induction items as [|[k v] items IH]; intros args rest.
  { cbn. by rewrite (left_id_L ∅ (∪)). }
  cbn [str_items fmap list_fmap app setattr_items fst snd].
  change (list_fmap _ _ _ items) with (str_items items).
  rewrite IH, reverse_cons, list_to_map_app. cbn [list_to_map foldr].
  rewrite <-(assoc_L (∪)). f_equal. f_equal.
  by rewrite insert_empty, <-insert_union_singleton_l.
Qed.

Lemma list_to_map_reverse_lookup (items : list (string * V)) k v :
  NoDup items.*1 → (k, v) ∈ items →
  (list_to_map (reverse items) : gmap string V) !! k = Some v.
Proof.
  intros Hnd Hin. apply elem_of_list_to_map_1.
  - by rewrite fmap_reverse, reverse_Permutation.
  - by apply elem_of_reverse.
Qed.
End update_args_facts.

(** X23.
    [update_args] sets every item of the YAML mapping as an attribute of
    [args], the later of two items of the same key winning, and returns
    [args] itself: an attribute named in the file has the value of the
    file, whatever it was before, and every other attribute is kept.  A
    file that holds no mapping is an [AttributeError] and leaves [args]
    alone; a key that is no string is a [TypeError], raised after the items
    before it have been set. *)
Theorem update_args_config_overrides {V : Type}
    (safe_load : string → outcome (yaml_document V))
    (args : gmap string V) (config_file_path : string) :
  let returned := update_args safe_load args config_file_path in
  (∀ items,
     safe_load config_file_path = Returns (YamlMapping (str_items items)) →
     let args' := list_to_map (reverse items) ∪ args in
     returned = (Returns args', args')
     ∧ (NoDup items.*1 → ∀ k v, (k, v) ∈ items → args' !! k = Some v)
     ∧ (∀ k, k ∉ items.*1 → args' !! k = args !! k))
  ∧ (safe_load config_file_path = Returns YamlOther →
     returned = (Raises (Builtin AttributeError), args))
  ∧ (∀ items v rest,
       safe_load config_file_path
       = Returns (YamlMapping (str_items items ++ (KeyOther, v) :: rest)) →
       returned
       = (Raises (Builtin TypeError), list_to_map (reverse items) ∪ args))
  ∧ (∀ e, safe_load config_file_path = Raises e →
          returned = (Raises e, args)).
Proof.
  intros returned. subst returned. unfold update_args. split_and!.
  - intros items ->. cbv zeta. split_and!.
    + rewrite <-(app_nil_r (str_items items)), setattr_items_str. done.
    + intros Hnd k v Hin.
      apply lookup_union_Some_l. by apply list_to_map_reverse_lookup.
    + intros k Hk. rewrite lookup_union_r; [done|].
      apply not_elem_of_list_to_map_1.
      rewrite fmap_reverse. by rewrite elem_of_reverse.
  - by intros ->.
  - intros items v rest ->. by rewrite setattr_items_str.
  - by intros e ->.
Qed.

(** ** Concrete inputs of the properties above *)

Lemma strip_ddp_state_dict_last_wins_witness :
  strip_ddp_state_dict [("module.fc.bias", 1); ("fc.bias", 2)]
  = [("fc.bias", 2)].
Proof.
  destruct (strip_ddp_state_dict_last_wins ([] : odict nat))
    as (_ & _ & _ & H).
  exact (proj1 (H "fc.bias" 1 2 eq_refl)).
Defined.

Lemma _init_splits_at_last_dot_witness :
  Example2._init (ConfigStr "models.modules.mlp.MLP")
    (ConfigDict [("hidden_dim", 4%Z)]) [2%Z] [("activation", 7%Z)]
  = Ok ("models.modules.mlp", "MLP", [2%Z],
        [("activation", 7%Z); ("hidden_dim", 4%Z)]).
Proof.
  exact (proj1 (_init_splits_at_last_dot Example2.import_module
                  Example2.getattr Example2.call "models.modules.mlp" "MLP"
                  [("hidden_dim", 4%Z)] [2%Z] [("activation", 7%Z)] eq_refl)).
Defined.


Lemma causal_mask_opens_next_position_witness :
  Example2.causal_attn_mask 3
  = [[Finite 1; Finite 1; NegInf];
     [Finite 1; Finite 1; Finite 1];
     [Finite 1; Finite 1; Finite 1]]
  ∧ Example2.causal_attn_mask 3 !! 0 ≫= (λ row, row !! 1)
    = Some (Finite 1).
Proof.
  split; [vm_compute; reflexivity|].
  destruct (causal_mask_opens_next_position (Finite 0) (Finite 1) NegInf
              extended_eqb (size1 (A := list Z))
              (λ q k v (m : option (list (list extended))), (q, m))
              [] [[[1]; [2]; [3]]]%Z [] eq_refl eq_refl)
    as (_ & _ & _ & _ & H).
  apply (H 0). cbn. lia.
Defined.

Lemma SinuPosEncoding_forward_adds_table_witness :
  ∃ y,
    Example2.SinuPosEncoding_forward
      (Tensor3 2 2 [[[10; 20]; [30; 40]]]%Z) = Ok y
    ∧ entry3 (entries y) 0 1 0 = Some 31%Z
    ∧ entry3 (entries y) 0 1 1 = Some 39%Z.
Proof.
  destruct (SinuPosEncoding_forward_adds_table (F := Z) (D := Z) 0%Z Z.succ
              id Z.opp Z.mul (λ x d, (x * d)%Z) Z.of_nat 8%Z
              (λ d n, (d / Z.of_nat n)%Z) Z.opp Z.add
              (Tensor3 2 2 [[[10; 20]; [30; 40]]]%Z))
    as (_ & _ & H).
  destruct H as (y & Hy & _ & _ & _ & _ & Hentries).
  - reflexivity.
  - simpl. lia.
  - repeat constructor.
  - exists y. split; [exact Hy|].
    destruct (Hentries 0 1 0 30%Z 40%Z eq_refl eq_refl) as [Hs Hc].
    split; [exact Hs|exact Hc].
Defined.

Lemma forward_negative_ratio_masks_most_witness :
  Example.mask_index [[1; 2; 3; 4]; [5; 6; 7; 8]]%Z (Some (-1, 4)%Z)
    [2; 0; 3; 1] = [2; 0; 3]
  ∧ Example.masked_emb [[1; 2; 3; 4]; [5; 6; 7; 8]]%Z (Some (-1, 4)%Z)
      [2; 0; 3; 1] = [[-1; 2; -1; -1]; [-1; 6; -1; -1]]%Z.
Proof.
  destruct (forward_negative_ratio_masks_most (-1)%Z Example.ratio_is_zero
              Example.int_mul [[1; 2; 3; 4]; [5; 6; 7; 8]]%Z [2; 0; 3; 1]
              (-1, 4)%Z) as (Hchosen & _).
  - repeat constructor.
  - simpl. rewrite (Permutation_swap 0 2 [3; 1]).
    apply Permutation_skip. rewrite (Permutation_swap 1 3 []).
    rewrite (Permutation_swap 1 2 [3]). done.
  - reflexivity.
  - vm_compute. reflexivity.
  - split; [exact Hchosen|reflexivity].
Defined.


Lemma greedy_decoding_ignores_beam_size_witness :
  Example.decode_codec [7; 8]%Z (Some [4]%Z) None None 6
    (SamplingBool false) 3 None 0
  = decode_codec 0%Z Example.lm_embedding Example.kmeans_emb
      Example.codebook_size 1 Z.ltb Z.add 0%Z (Z.ltb 0) id Example.rng
      (λ _ _ i, 4 - i) Example.codec_lm_score [7; 8]%Z (Some [4]%Z) None None
      6 (SamplingBool false) 1 None 0.
Proof.
  apply greedy_decoding_ignores_beam_size.
  - intros x y. rewrite Z.ltb_lt, Z.ltb_ge. lia.
  - lia.
  - intros seq_input prompt. unfold Example.codec_lm_score.
    destruct (length seq_input <? 8); constructor; try constructor.
    + simpl. lia.
    + exists 1, 5%Z. split; [reflexivity|].
      intros [|[|[|[|j]]]] w Hw Hne; try done; by injection Hw as <-.
    + simpl. lia.
    + exists 3, 9%Z. split; [reflexivity|].
      intros [|[|[|[|j]]]] w Hw Hne; try done; by injection Hw as <-.
Defined.

Lemma build_llm_io_batch_of_text_lengths_witness :
  Example.build_llm_io Example.text [3; 2; 1] None None false
  = Raise IndexError
  ∧ Example.build_llm_io Example.text [3] None None false
    = Example.build_llm_io [[7; 8; 9]]%Z [3] None None false.
Proof.
  split.
  - destruct (build_llm_io_batch_of_text_lengths 0%Z Example.lm_embedding
                Example.kmeans_emb Example.codebook_size 1 Example.text
                [3; 2; 1]) as [Hmore _].
    apply Hmore; [simpl; lia|discriminate|discriminate].
  - destruct (build_llm_io_batch_of_text_lengths 0%Z Example.lm_embedding
                Example.kmeans_emb Example.codebook_size 1 Example.text [3])
      as [_ Hfewer].
    apply Hfewer. simpl. lia.
Defined.

Lemma build_llm_io_lengths_unchecked_witness :
  ∃ llm_inputs,
    Example.build_llm_io Example.text [5; 2] None None false
    = Ok (LlmInputs llm_inputs [7; 4])
    ∧ Forall (λ row, length row = 5) llm_inputs.
Proof.
  destruct (build_llm_io_lengths_unchecked 0%Z Example.lm_embedding
              Example.kmeans_emb Example.codebook_size 1 Example.text [5; 2]
              3) as (llm_inputs & Hio & _ & Hwidth & _).
  - discriminate.
  - simpl. lia.
  - repeat constructor.
  - exists llm_inputs. split; [exact Hio|exact Hwidth].
Defined.

Lemma build_codec_lm_restores_conf_witness :
  build_codec_lm Example2.TransformerEmbedLM 8 Example2.codec_lm_conf
  = (Returns "TransformerEmbedLM", Example2.codec_lm_conf)
  ∧ (build_codec_lm Example2.TransformerEmbedLM 8
       (<["name" := ConfigStr "rnn"]> Example2.codec_lm_conf)).2
    = delete "name" Example2.codec_lm_conf.
Proof.
  split.
  - destruct (build_codec_lm_restores_conf Example2.TransformerEmbedLM 8
                Example2.codec_lm_conf) as (_ & Hret & _).
    destruct (Hret "TransformerEmbedLM") as (Hconf & _);
      [vm_compute; reflexivity|].
    rewrite <-Hconf at 2. vm_compute. reflexivity.
  - destruct (build_codec_lm_restores_conf Example2.TransformerEmbedLM 8
                (<["name" := ConfigStr "rnn"]> Example2.codec_lm_conf))
      as (_ & _ & _ & Hbad).
    rewrite (Hbad (ConfigStr "rnn")); [|vm_compute; reflexivity|by left].
    cbn [snd]. apply delete_insert_eq.
Defined.

Lemma LauraGenModel_init_checks_witness :
  ∃ self,
    Example2.LauraGenModel_init "kmeans.pt" (Some "abs_pos")
      (Some Example2.codec_conf) (-1) true 1 (Some Example2.codec_lm_conf)
      0 2 "split"
    = (Returns self, Some Example2.codec_lm_conf)
    ∧ self_lm_out_voc_size self = 8%Z
    ∧ self_criterion_ce self = "LabelSmoothingLoss 4".
Proof.
  pose proof (LauraGenModel_init_checks (Float := Z)
                (λ _, Returns "PositionalEncoding")
                (λ _, Returns "ScaledPositionalEncoding")
                "Sequential" (λ _, Returns "KMeansQuantizer")
                (λ _ _, Returns "Embedding") Example2.TransformerEmbedLM
                Example2.LabelSmoothingLoss "kmeans.pt" (Some "abs_pos")
                (Some Example2.codec_conf) (-1)%Z true 1%Z
                (Some Example2.codec_lm_conf) 0%Z 2 "split")
    as (_ & _ & _ & Hret).
  cbv zeta in Hret. fold Example2.LauraGenModel_init in Hret.
  destruct (Example2.LauraGenModel_init _ _ _ _ _ _ _ _ _ _)
    as [[self|e] conf'] eqn:Hinit; [|by vm_compute in Hinit].
  destruct (Hret self eq_refl)
    as (Hconf & (conf & [= <-] & Hsize & _) & _ & Hvoc & Hcrit & _).
  cbn [snd] in Hconf. subst conf'.
  exists self. split; [done|]. split.
  - rewrite Hvoc, Hsize. vm_compute. reflexivity.
  - rewrite Hsize in Hcrit. vm_compute in Hcrit. by injection Hcrit as ->.
Defined.

Lemma encode_after_init_witness :
  ∃ self,
    (Example2.LauraGenModel_init "kmeans.pt" (Some "abs_pos")
       (Some Example2.codec_conf) (-1) true 1 (Some Example2.codec_lm_conf)
       0 2 "split").1 = Returns self
    ∧ Example2.encode self [[[1; 2]; [3; 4]]]%Z [2]
      = Ok ([[[1; 2]; [3; 4]]]%Z, [2])
    ∧ Example2.encode self [[[1; 2; 3]]]%Z [1] = Raise AttributeError.
Proof.
  destruct (Example2.LauraGenModel_init "kmeans.pt" (Some "abs_pos")
              (Some Example2.codec_conf) (-1) true 1
              (Some Example2.codec_lm_conf) 0 2 "split")
    as [[self|e] conf'] eqn:Hinit; [|by vm_compute in Hinit].
  exists self. split; [done|].
  assert (self_codebook_dim self = 2%Z) as Hdim.
  { vm_compute in Hinit. by injection Hinit as <- _. }
  pose proof (λ text text_lengths,
                encode_after_init (Float := Z) (X := list (list (list Z)))
                  (λ _, Returns "PositionalEncoding")
                  (λ _, Returns "ScaledPositionalEncoding")
                  "Sequential" (λ _, Returns "KMeansQuantizer")
                  (λ _ _, Returns "Embedding") Example2.TransformerEmbedLM
                  Example2.LabelSmoothingLoss
                  (λ text, Z.of_nat (size1 (mjoin text)))
                  (λ _ text lens, Ok (text, lens)) (λ _ text, Ok text)
                  "kmeans.pt" (Some "abs_pos") (Some Example2.codec_conf)
                  (-1)%Z true 1%Z (Some Example2.codec_lm_conf) 0%Z 2
                  "split" self text text_lengths) as Henc.
  fold Example2.LauraGenModel_init in Henc. rewrite Hinit in Henc.
  fold Example2.encode in Henc.
  split; rewrite (Henc _ _ eq_refl), Hdim; reflexivity.
Defined.

Lemma example_self_built :
  Example2.LauraGenModel_init "kmeans.pt" (Some "abs_pos")
    (Some Example2.codec_conf) (-1) true 1 (Some Example2.codec_lm_conf)
    0 2 "split"
  = (Returns Example3.self, Some Example2.codec_lm_conf).
Proof. vm_compute. reflexivity. Qed.

Lemma forward_trains_on_aux_then_codec_witness :
  ∃ text' codec' y target row,
    Example3.forward_nll_inputs Example3.self [[7; 8; 9]]%Z [2]
      [[2; 0]]%Z [2] (Some [[1; 2]]%Z) (Some [1])
    = Ok (text', [3], codec', [3])
    ∧ text' !! 0 = Some [1; 7; 8]%Z
    ∧ Example3.nll_forward text' [3] (take_quantizers 2 codec') [3]
      = Ok (y, target, [4])
    ∧ target !! 0 = Some row
    ∧ take 3 row = [[1; 1]; [2; 2]; [0; 0]]%Z
    ∧ row !! 3 = Some [3; 3]%Z.
Proof.
  destruct (forward_trains_on_aux_then_codec (Float := Z) (L := Z) 0%Z
              Example.lm_embedding Example.kmeans_emb Example3.kmeans
              Example.codec_lm (λ _, 2%Z) (λ _ text lens, Ok (text, lens))
              (λ _ text, Ok text) Example3.self id [[7; 8; 9]]%Z [2]
              [[2; 0]]%Z [2] [[1; 2]]%Z [1])
    as (_ & text' & codec' & Hin & Htext & y & target & Hnll & Htarget);
    [discriminate|reflexivity|reflexivity|repeat constructor; simpl; lia..
    |reflexivity|reflexivity|reflexivity|simpl; lia|].
  destruct (Htext 0 1 2 [1; 2]%Z [7; 8; 9]%Z eq_refl eq_refl eq_refl eq_refl)
    as (trow & Htrow & Htake).
  destruct (Htarget 0 1 2 [1; 2]%Z [2; 0]%Z eq_refl eq_refl eq_refl eq_refl)
    as (row & Hrow & Hprefix & Heos).
  exists text', codec', y, target, row.
  split; [exact Hin|]. split.
  { injection Hin as <- _. vm_compute. reflexivity. }
  split; [exact Hnll|]. split; [exact Hrow|]. split; [exact Hprefix|].
  exact Heos.
Defined.

Lemma forward_normalizer_counts_targets_witness :
  ∃ output_mask,
    forward_normalizer Example3.self [[[0; 0]]; [[0; 0]]]%Z [4; 2] [3; 3]
      [3; 1]
    = Ok (output_mask, 12, 4, 6)
    ∧ output_mask !! 1 ≫= (λ row, row !! 2) = Some false.
Proof.
  destruct (forward_normalizer_counts_targets Example3.self
              [[[0; 0]]; [[0; 0]]]%Z [4; 2] [3; 3] [3; 1])
    as (output_mask & Hnorm & _ & Hmask); [discriminate..|].
  exists output_mask. split; [exact Hnorm|].
  apply (Hmask 1 2 2); [reflexivity|simpl; lia].
Defined.

Lemma cal_codec_emb_never_starts_witness :
  Example3.cal_codec_emb_first_nq_emb Example3.self [5; 6]%Z
  = Raise AttributeError.
Proof.
  destruct (cal_codec_emb_never_starts (Float := Z) (V := unit)
              (λ _, Returns "PositionalEncoding")
              (λ _, Returns "ScaledPositionalEncoding")
              "Sequential" (λ _, Returns "KMeansQuantizer")
              (λ _ _, Returns "Embedding") Example2.TransformerEmbedLM
              Example2.LabelSmoothingLoss index (λ _ i, Ok (Z.of_nat i))
              (λ p c, Ok (p * c)%Z) (λ a b, Ok (a + b)%Z)
              "kmeans.pt" (Some "abs_pos") (Some Example2.codec_conf)
              (-1)%Z true 1%Z (Some Example2.codec_lm_conf) 0%Z 2 "split"
              Example3.self [5; 6]%Z) as (e & He & Hattr).
  - vm_compute. reflexivity.
  - unfold Example3.cal_codec_emb_first_nq_emb. rewrite He.
    by rewrite Hattr.
Defined.

Lemma target_mask_entries_witness :
  _target_mask Example3.subsequent_mask [2; 1]
  = Ok [[[true; false]; [true; true]]; [[true; false]; [true; false]]].
Proof.
  destruct (target_mask_entries Example3.subsequent_mask [2; 1])
    as (mask & Hmask & _); [discriminate| |].
  - intros n. unfold Example3.subsequent_mask. split.
    + by rewrite length_fmap, length_seq.
    + intros i row Hrow. rewrite list_lookup_fmap in Hrow.
      destruct (seq 0 n !! i) as [k|] eqn:Hk; [|done].
      apply lookup_seq in Hk as [-> _]. by injection Hrow as <-.
  - rewrite Hmask. vm_compute in Hmask. by injection Hmask as <-.
Defined.

Lemma forward_raw_inputs_witness :
  Example3._forward None None (Some [Str "hello"; Str "ignored"]) None
  = (Returns [("utt1", [("gen", [[Str "hello"]])])], [])
  ∧ Example3._forward (Some "out") None (Some [Str "hello"]) (Some "exp")
    = (Returns [], [MakeDirs "exp"; SaveAudio [Str "hello"] "exp/utt1_gen.wav"])
  ∧ Example3._forward None None (Some [Str "hello"; Str "hi"; Str "a.wav"])
      None
    = (Raises NameError, []).
Proof.
  split; [|split].
  - destruct (forward_raw_inputs (Data := unit) Example3.my_model
                (λ _, Returns []) (λ a : Z, Returns a)
                (λ dir file, dir +:+ "/" +:+ file) None None)
      as (Htext & _).
    exact (Htext [Str "hello"; Str "ignored"] (Str "hello") eq_refl
             ltac:(discriminate) _ eq_refl).
  - reflexivity.
  - destruct (forward_raw_inputs (Data := unit) Example3.my_model
                (λ _, Returns []) (λ a : Z, Returns a)
                (λ dir file, dir +:+ "/" +:+ file) None None)
      as (_ & _ & Hname).
    exact (Hname (Str "hello") (Str "hi") "a.wav").
Defined.

Lemma inference_audio_needs_split_audio_witness :
  Example4.recon (Example.forward [[5; 6; 7]]%Z (Some (0, 1)%Z) [2; 0; 1]).1.1.1.1
  = Example4.inference [[5; 6; 7]]%Z
  ∧ Example4.inference_audio None [[1; 2; 3; 4; 5]]%Z id = Raises NameError
  ∧ Example4.inference_audio (Some (λ audio _, Example4.split_audio 5 audio 2))
      [[1; 2; 3; 4; 5]]%Z id
    = Returns [[1; 2; 3; 4; 5]]%Z.
Proof.
  destruct (inference_audio_needs_split_audio (Loss := unit) (-1)%Z id id
              (λ emb lens, (emb, lens)) (λ _ _, ()) (λ _ _, ()) (λ _ _, ())
              Example.ratio_is_zero Example.int_mul id mjoin
              (λ piece : list Z, [piece]) Example4.cat_1
              (λ audio n, take n <$> audio) size1 [[1; 2; 3; 4; 5]]%Z id)
    as (Hrecon & Hname & Hsplit).
  split_and!.
  - refine (proj1 (Hrecon [[5; 6; 7]]%Z (Some (0, 1)%Z) [2; 0; 1] _)).
    by intros r [= <-].
  - exact Hname.
  - unfold Example4.inference_audio. rewrite Hsplit. reflexivity.
Defined.

Lemma update_args_config_overrides_witness :
  Example4.update_args {[ "lr" := 1%Z; "seed" := 7%Z ]} "config.yaml"
  = (Returns {[ "epochs" := 10%Z; "lr" := 3%Z; "seed" := 7%Z ]},
     {[ "epochs" := 10%Z; "lr" := 3%Z; "seed" := 7%Z ]})
  ∧ Example4.update_args {[ "lr" := 1%Z ]} "list.yaml"
    = (Raises (Builtin AttributeError), {[ "lr" := 1%Z ]}).
Proof.
  destruct (update_args_config_overrides Example4.safe_load
              {[ "lr" := 1%Z; "seed" := 7%Z ]} "config.yaml")
    as (Hset & _).
  destruct (Hset [("lr", 3%Z); ("epochs", 10%Z)] eq_refl) as (Hret & _).
  destruct (update_args_config_overrides Example4.safe_load
              {[ "lr" := 1%Z ]} "list.yaml") as (_ & Hother & _).
  split.
  - unfold Example4.update_args. rewrite Hret. vm_compute. reflexivity.
  - exact (Hother eq_refl).
Defined.
